(** * wai-cs: schema resolution, scoring engine, run pipeline, idempotency claims

    A shallow embedding of the scoring orchestration core of the service:
    - [schema]     : [Resolve] (internal/schema, resolver), [ValidateHeaders] and
                     [ValidateRow] (internal/schema, validator)
    - [scoring]    : [DefaultScoreFunc], [normalizeValue], [toFloat64] (internal/scoring, scorer)
                     and [sortRecommendationsByScore], [Execute], [ExecuteWithRetry],
                     [calculateBackoff] (internal/scoring/pipeline.go)
    - [repository] : [Claim] (internal/repository/idempotency_repo.go) and the
                     run, schema-config, site-record and recommendation repositories.

    Numbers: Go's [float64] is modelled by the exact rationals [Q]; rounding,
    infinities and NaN are outside the model, except in the validator, where
    what [strconv.ParseFloat] returns is a [Float64].  [math.Max] and [math.Min] are
    [Qmax] and [Qmin].  Go's [int] is [Z].  Go maps are stdpp's [gmap]; a [range]
    over a map is a [map_fold] (its order is unspecified, as in Go).  Errors are
    the error's message. *)

From Stdlib Require Import QArith Qminmax Qabs Lqa ZArith Lia Ascii String.
From stdpp Require Import base option gmap strings pretty list fin_maps sorting.

(** Go's [(T, error)] results. *)
Inductive result (A : Type) : Type :=
| Ok (a : A)
| Err (msg : string).
Arguments Ok {A} a.
Arguments Err {A} msg.

Definition is_ok {A} (r : result A) : bool :=
  match r with Ok _ => true | Err _ => false end.

(** The raw bytes of a [json.RawMessage] as [json.Unmarshal] sees them: no
    bytes at all, the literal [null], bytes that do not parse into the target
    type, or a document that does. *)
Inductive RawMessage (A : Type) : Type :=
| RawEmpty
| RawNull
| RawInvalid
| RawValue (a : A).
Arguments RawEmpty {A}.
Arguments RawNull {A}.
Arguments RawInvalid {A}.
Arguments RawValue {A} a.

(* ===================================================================== *)
(** ** package schema *)
(* ===================================================================== *)
Module schema.

(** [type FieldType string] *)
Abbreviation FieldType := string (only parsing).
Definition TypePercentage : FieldType := "percentage".
Definition TypeIndex : FieldType := "index".
Definition TypeInteger : FieldType := "integer".
Definition TypeNumeric : FieldType := "numeric".
Definition TypePopulation : FieldType := "population".
Definition TypeText : FieldType := "text".
Definition TypeIdentifier : FieldType := "identifier".

(** [type Direction string] *)
Abbreviation Direction := string (only parsing).
Definition DirectionMaximize : Direction := "maximize".
Definition DirectionMinimize : Direction := "minimize".

Record FieldDef : Type := {
  Type_ : FieldType;
  Required : bool;
  Min : option Q;
  Max : option Q;
  Weight : Q;
  Direction_ : Direction;
  Description : string;
}.

Record ResolvedSchema : Type := {
  Fields : gmap string FieldDef;
  SiteIDColumn : string;
  Weights : gmap string Q;
}.

Record GlobalSchemaConfig : Type := {
  gFields : gmap string FieldDef;
  gSiteIDColumn : string;
}.

Record TenantSchemaOverride : Type := {
  tFields : gmap string FieldDef;
  tSiteIDColumn : option string;
  tWeights : gmap string Q;
}.

(** [for name, fieldDef := range fields { resolved.Fields[name] = fieldDef;
    resolved.Weights[name] = fieldDef.Weight }], used for the global fields
    and again for the tenant's. *)
Definition copyField (name : string) (fieldDef : FieldDef)
    (resolved : ResolvedSchema) : ResolvedSchema :=
  {| Fields := <[name := fieldDef]> (Fields resolved);
     SiteIDColumn := SiteIDColumn resolved;
     Weights := <[name := Weight fieldDef]> (Weights resolved) |}.

Definition copyFields (fields : gmap string FieldDef)
    (resolved : ResolvedSchema) : ResolvedSchema :=
  map_fold copyField resolved fields.

(** One round of [for name, weight := range tenant.Weights]; an error already
    returned stays returned. *)
Definition overrideWeight (name : string) (weight : Q)
    (acc : result ResolvedSchema) : result ResolvedSchema :=
  match acc with
  | Err e => Err e
  | Ok resolved =>
      match Fields resolved !! name with
      | None => Err ("cannot override weight for non-existent field: " +:+ name)
      | Some _ =>
          Ok {| Fields := Fields resolved;
                SiteIDColumn := SiteIDColumn resolved;
                Weights := <[name := weight]> (Weights resolved) |}
      end
  end.

Definition applyTenant (tenant : TenantSchemaOverride)
    (resolved : ResolvedSchema) : result ResolvedSchema :=
  let resolved1 :=
    match tSiteIDColumn tenant with
    | Some col => {| Fields := Fields resolved; SiteIDColumn := col;
                     Weights := Weights resolved |}
    | None => resolved
    end in
  let resolved2 := copyFields (tFields tenant) resolved1 in
  map_fold overrideWeight (Ok resolved2) (tWeights tenant).

(** [func Resolve(globalConfig, tenantConfig json.RawMessage)]: the parsed
    configurations are the inputs; a document that does not parse is [RawInvalid]. *)
Definition Resolve (globalConfig : RawMessage GlobalSchemaConfig)
    (tenantConfig : RawMessage TenantSchemaOverride) : result ResolvedSchema :=
  match globalConfig with
  | RawEmpty | RawInvalid => Err "failed to parse global schema config"
  | _ =>
      let global :=
        match globalConfig with
        | RawValue g => g
        | _ => {| gFields := ∅; gSiteIDColumn := "" |}
        end in
      if String.eqb (gSiteIDColumn global) "" then
        Err "global schema config must specify site_id_column"
      else if Nat.eqb (size (gFields global)) 0 then
        Err "global schema config must specify at least one field"
      else
        let resolved :=
          copyFields (gFields global)
            {| Fields := ∅; SiteIDColumn := gSiteIDColumn global; Weights := ∅ |} in
        match tenantConfig with
        | RawEmpty | RawNull => Ok resolved
        | RawInvalid => Err "failed to parse tenant schema override"
        | RawValue tenant => applyTenant tenant resolved
        end
  end.

(** *** validator.go *)

(** A [float64] as [strconv.ParseFloat] can return it: not a number, an
    infinity, or a rational. *)
Inductive Float64 : Type :=
| NaN
| Inf (negative : bool)
| Finite (q : Q).

(** [a < b] on [float64]; a comparison with NaN is false. *)
Definition flt (a b : Float64) : bool :=
  match a, b with
  | NaN, _ | _, NaN => false
  | Finite x, Finite y => if Qlt_le_dec x y then true else false
  | Inf true, Inf true => false
  | Inf true, _ => true
  | Finite _, Inf false => true
  | _, _ => false
  end.

(** [func ValidateHeaders(headers []string, schema *ResolvedSchema) (warnings []string, errors []string)],
    for a schema that is not nil. *)
Definition ValidateHeaders (headers : list string) (schema : ResolvedSchema)
    : list string * list string :=
  let headerSet : gmap string bool :=
    foldl (fun headerSet h => <[h := true]> headerSet) ∅ headers in
  let errors :=
    map_fold
      (fun fieldName (fieldDef : FieldDef) (errors : list string) =>
         if Required fieldDef then
           if negb (default false (headerSet !! fieldName)) then
             errors ++ ["required field '" +:+ fieldName +:+ "' not found in headers"]
           else errors
         else errors)
      [] (Fields schema) in
  let errors :=
    if negb (default false (headerSet !! SiteIDColumn schema)) then
      errors ++ ["site_id_column '" +:+ SiteIDColumn schema +:+ "' not found in headers"]
    else errors in
  let warnings :=
    foldl
      (fun (warnings : list string) header =>
         if String.eqb header (SiteIDColumn schema) then warnings
         else
           match Fields schema !! header with
           | None =>
               warnings ++
                 ["unexpected column '" +:+ header +:+
                  "' found in CSV; will be included in record data but not validated"]
           | Some _ => warnings
           end)
      [] headers in
  (warnings, errors).

Section Validator.

(** [strconv.ParseFloat(value, 64)] when it returns no error; it belongs to
    Go's library, and it reads the words for the infinities and for NaN. *)
Variable ParseFloat : string -> option Float64.

(** How [fmt] prints a [float64] for the verb [%v]. *)
Variable formatFloat : Float64 -> string.

(** [floatVal != float64(int64(floatVal))] for a finite [floatVal] that an
    [int64] cannot hold: Go leaves the conversion to the implementation. *)
Variable differsOutOfRange : Q -> bool.

(** [strings.TrimSpace] *)
Variable TrimSpace : string -> string.

(** [floatVal != float64(int64(floatVal))].  The conversion to [int64]
    discards the fraction, and the integer it yields for a [float64] between
    -2^63 and 2^63 is a [float64] again; an infinity and NaN differ from every
    [float64] that comes from an [int64]. *)
Definition notWhole (floatVal : Float64) : bool :=
  match floatVal with
  | NaN | Inf _ => true
  | Finite q =>
      if Qle_bool (inject_Z (- 2 ^ 63)) q && negb (Qle_bool (inject_Z (2 ^ 63)) q)
      then negb (Qeq_bool q (inject_Z (Z.quot (Qnum q) (Z.pos (Qden q)))))
      else differsOutOfRange q
  end.

(** [func validatePercentage(fieldName, value string, rowNum int) error];
    [None] is a nil error. *)
Definition validatePercentage (fieldName value : string) (rowNum : Z) : option string :=
  match ParseFloat value with
  | None =>
      Some ("row " +:+ pretty rowNum +:+ ": field '" +:+ fieldName +:+
            "' must be a valid number, got '" +:+ value +:+ "'")
  | Some floatVal =>
      if flt floatVal (Finite 0) || flt (Finite 100) floatVal then
        Some ("row " +:+ pretty rowNum +:+ ": field '" +:+ fieldName +:+
              "' must be between 0 and 100, got " +:+ formatFloat floatVal)
      else None
  end.

(** [func validateIndex(fieldName, value string, fieldDef FieldDef, rowNum int) error] *)
Definition validateIndex (fieldName value : string) (fieldDef : FieldDef) (rowNum : Z)
    : option string :=
  match ParseFloat value with
  | None =>
      Some ("row " +:+ pretty rowNum +:+ ": field '" +:+ fieldName +:+
            "' must be a valid number, got '" +:+ value +:+ "'")
  | Some floatVal =>
      match Min fieldDef with
      | Some min =>
          if flt floatVal (Finite min) then
            Some ("row " +:+ pretty rowNum +:+ ": field '" +:+ fieldName +:+
                  "' must be >= " +:+ formatFloat (Finite min) +:+ ", got " +:+
                  formatFloat floatVal)
          else
            match Max fieldDef with
            | Some max =>
                if flt (Finite max) floatVal then
                  Some ("row " +:+ pretty rowNum +:+ ": field '" +:+ fieldName +:+
                        "' must be <= " +:+ formatFloat (Finite max) +:+ ", got " +:+
                        formatFloat floatVal)
                else None
            | None => None
            end
      | None =>
          match Max fieldDef with
          | Some max =>
              if flt (Finite max) floatVal then
                Some ("row " +:+ pretty rowNum +:+ ": field '" +:+ fieldName +:+
                      "' must be <= " +:+ formatFloat (Finite max) +:+ ", got " +:+
                      formatFloat floatVal)
              else None
          | None => None
          end
      end
  end.

(** [func validateInteger(fieldName, value string, fieldDef FieldDef, rowNum int) error] *)
Definition validateInteger (fieldName value : string) (fieldDef : FieldDef) (rowNum : Z)
    : option string :=
  match ParseFloat value with
  | None =>
      Some ("row " +:+ pretty rowNum +:+ ": field '" +:+ fieldName +:+
            "' must be a valid number, got '" +:+ value +:+ "'")
  | Some floatVal =>
      if notWhole floatVal then
        Some ("row " +:+ pretty rowNum +:+ ": field '" +:+ fieldName +:+
              "' must be a whole number, got " +:+ formatFloat floatVal)
      else
        match Min fieldDef with
        | Some min =>
            if flt floatVal (Finite min) then
              Some ("row " +:+ pretty rowNum +:+ ": field '" +:+ fieldName +:+
                    "' must be >= " +:+ formatFloat (Finite min) +:+ ", got " +:+
                    formatFloat floatVal)
            else
              match Max fieldDef with
              | Some max =>
                  if flt (Finite max) floatVal then
                    Some ("row " +:+ pretty rowNum +:+ ": field '" +:+ fieldName +:+
                          "' must be <= " +:+ formatFloat (Finite max) +:+ ", got " +:+
                          formatFloat floatVal)
                  else None
              | None => None
              end
        | None =>
            match Max fieldDef with
            | Some max =>
                if flt (Finite max) floatVal then
                  Some ("row " +:+ pretty rowNum +:+ ": field '" +:+ fieldName +:+
                        "' must be <= " +:+ formatFloat (Finite max) +:+ ", got " +:+
                        formatFloat floatVal)
                else None
            | None => None
            end
        end
  end.

(** [func validateNumeric(fieldName, value string, fieldDef FieldDef, rowNum int) error]:
    the body of [validateIndex] once more. *)
Definition validateNumeric (fieldName value : string) (fieldDef : FieldDef) (rowNum : Z)
    : option string :=
  match ParseFloat value with
  | None =>
      Some ("row " +:+ pretty rowNum +:+ ": field '" +:+ fieldName +:+
            "' must be a valid number, got '" +:+ value +:+ "'")
  | Some floatVal =>
      match Min fieldDef with
      | Some min =>
          if flt floatVal (Finite min) then
            Some ("row " +:+ pretty rowNum +:+ ": field '" +:+ fieldName +:+
                  "' must be >= " +:+ formatFloat (Finite min) +:+ ", got " +:+
                  formatFloat floatVal)
          else
            match Max fieldDef with
            | Some max =>
                if flt (Finite max) floatVal then
                  Some ("row " +:+ pretty rowNum +:+ ": field '" +:+ fieldName +:+
                        "' must be <= " +:+ formatFloat (Finite max) +:+ ", got " +:+
                        formatFloat floatVal)
                else None
            | None => None
            end
      | None =>
          match Max fieldDef with
          | Some max =>
              if flt (Finite max) floatVal then
                Some ("row " +:+ pretty rowNum +:+ ": field '" +:+ fieldName +:+
                      "' must be <= " +:+ formatFloat (Finite max) +:+ ", got " +:+
                      formatFloat floatVal)
              else None
          | None => None
          end
      end
  end.

(** [func validatePopulation(fieldName, value string, rowNum int) error] *)
Definition validatePopulation (fieldName value : string) (rowNum : Z) : option string :=
  match ParseFloat value with
  | None =>
      Some ("row " +:+ pretty rowNum +:+ ": field '" +:+ fieldName +:+
            "' must be a valid number, got '" +:+ value +:+ "'")
  | Some floatVal =>
      if notWhole floatVal then
        Some ("row " +:+ pretty rowNum +:+ ": field '" +:+ fieldName +:+
              "' must be a whole number, got " +:+ formatFloat floatVal)
      else if flt floatVal (Finite 0) then
        Some ("row " +:+ pretty rowNum +:+ ": field '" +:+ fieldName +:+
              "' must be non-negative, got " +:+ formatFloat floatVal)
      else None
  end.

(** [func validateText(fieldName, value string, rowNum int) error] *)
Definition validateText (fieldName value : string) (rowNum : Z) : option string := None.

(** [func validateIdentifier(fieldName, value string, rowNum int) error] *)
Definition validateIdentifier (fieldName value : string) (rowNum : Z) : option string :=
  if String.eqb (TrimSpace value) "" then
    Some ("row " +:+ pretty rowNum +:+ ": field '" +:+ fieldName +:+
          "' (identifier) cannot be empty")
  else None.

(** [func validateFieldValue(fieldName, value string, fieldDef FieldDef, rowNum int) error] *)
Definition validateFieldValue (fieldName value : string) (fieldDef : FieldDef) (rowNum : Z)
    : option string :=
  if String.eqb (Type_ fieldDef) TypePercentage then validatePercentage fieldName value rowNum
  else if String.eqb (Type_ fieldDef) TypeIndex then validateIndex fieldName value fieldDef rowNum
  else if String.eqb (Type_ fieldDef) TypeInteger then validateInteger fieldName value fieldDef rowNum
  else if String.eqb (Type_ fieldDef) TypeNumeric then validateNumeric fieldName value fieldDef rowNum
  else if String.eqb (Type_ fieldDef) TypePopulation then validatePopulation fieldName value rowNum
  else if String.eqb (Type_ fieldDef) TypeText then validateText fieldName value rowNum
  else if String.eqb (Type_ fieldDef) TypeIdentifier then validateIdentifier fieldName value rowNum
  else
    Some ("row " +:+ pretty rowNum +:+ ": unknown field type '" +:+ Type_ fieldDef +:+
          "' for field '" +:+ fieldName +:+ "'").

(** The body of [for fieldName, fieldDef := range schema.Fields] in [ValidateRow]. *)
Definition validateRowField (row : gmap string string) (rowNum : Z)
    (fieldName : string) (fieldDef : FieldDef) (errors : list string) : list string :=
  match row !! fieldName with
  | None =>
      if Required fieldDef then
        errors ++ ["row " +:+ pretty rowNum +:+ ": required field '" +:+ fieldName +:+
                   "' is missing"]
      else errors
  | Some value =>
      if String.eqb value "" && negb (Required fieldDef) then errors
      else
        match validateFieldValue fieldName value fieldDef rowNum with
        | Some err => errors ++ [err]
        | None => errors
        end
  end.

(** [func ValidateRow(row map[string]string, schema *ResolvedSchema, rowNum int) (warnings []string, errors []string)],
    for a schema that is not nil; [warnings] is never assigned. *)
Definition ValidateRow (row : gmap string string) (schema : ResolvedSchema) (rowNum : Z)
    : list string * list string :=
  ([], map_fold (validateRowField row rowNum) [] (Fields schema)).

End Validator.

End schema.

(* ===================================================================== *)
(** ** package models *)
(* ===================================================================== *)
Module models.

(** [uuid.UUID] values are opaque tokens. *)
Abbreviation UUID := N (only parsing).

Record ExplanationFactor : Type := {
  Name : string;
  Value : Q;
  Weight : Q;
  Contribution : Q;
  Direction : string;
  Reason : string * string;
}.

(** [Explanation.Summary] is a sentence built with [fmt.Sprintf]; the model
    keeps what the sentence is built from. *)
Inductive Summary : Type :=
| SummaryNoFactors
| SummaryWeighted (finalScore : Q)
| SummaryTop (finalScore : Q) (topFactors : list string).

Record Explanation : Type := {
  Factors : list ExplanationFactor;
  Summary_ : Summary;
}.

Record SiteRecord (SiteData : Type) : Type := {
  SiteID : string;
  SiteName : string;
  Data : RawMessage SiteData;
}.
Arguments SiteID {SiteData} _.
Arguments SiteName {SiteData} _.
Arguments Data {SiteData} _.

(** The fields of [ScoringRun] that the pipeline reads from the run it is
    handed; the row of the run in the store is [repository.RunRow]. *)
Record ScoringRun : Type := {
  ID : UUID;
  UploadID : UUID;
  TenantID : UUID;
  ModelVersion : string;
}.

(** [SchemaConfig.Config] holds a global configuration or a tenant override. *)
Record SchemaConfig (A : Type) : Type := {
  cfgID : UUID;
  Config : RawMessage A;
}.
Arguments cfgID {A} _.
Arguments Config {A} _.

Record SchemaConfigSnapshot : Type := {
  snapID : UUID;
  snapRunID : UUID;
  SchemaConfigID : UUID;
  snapUploadID : option UUID;
  snapConfig : RawMessage schema.GlobalSchemaConfig;
  SnapshotData : schema.ResolvedSchema;
}.

Record Recommendation : Type := {
  recID : UUID;
  recRunID : UUID;
  recTenantID : UUID;
  recSiteID : string;
  recSiteName : string;
  Ranking : Z;
  FinalScore : Q;
  RawScore : Q;
  ComponentScores : Explanation;
  Metadata : Q * string;
}.

Definition setRanking (rec : Recommendation) (ranking : Z) : Recommendation :=
  {| recID := recID rec; recRunID := recRunID rec; recTenantID := recTenantID rec;
     recSiteID := recSiteID rec; recSiteName := recSiteName rec;
     Ranking := ranking; FinalScore := FinalScore rec; RawScore := RawScore rec;
     ComponentScores := ComponentScores rec; Metadata := Metadata rec |}.

End models.

(* ===================================================================== *)
(** ** package scoring: the scorer *)
(* ===================================================================== *)
Module scoring.
Import schema models.

(** The dynamic types a [map[string]interface{}] value can have, as the type
    switch of [toFloat64] distinguishes them. *)
Inductive SiteValue : Type :=
| VFloat64 (v : Q)
| VFloat32 (v : Q)
| VInt (v : Z)
| VInt64 (v : Z)
| VInt32 (v : Z)
| VString (v : string)
| VBool (v : bool)
| VNil
| VOther.

(** [func isNumericFieldType(fieldType schema.FieldType) bool] *)
Definition isNumericFieldType (fieldType : FieldType) : bool :=
  if String.eqb fieldType TypeNumeric then true
  else if String.eqb fieldType TypeInteger then true
  else if String.eqb fieldType TypePercentage then true
  else if String.eqb fieldType TypeIndex then true
  else if String.eqb fieldType TypePopulation then true
  else false.

(** [func normalizeValue(value float64, min, max *float64, direction schema.Direction) float64] *)
Definition normalizeValue (value : Q) (min max : option Q) (direction : schema.Direction) : Q :=
  match min, max with
  | Some minVal, Some maxVal =>
      if Qeq_bool maxVal minVal then 0.5%Q
      else
        let normalized := ((value - minVal) / (maxVal - minVal))%Q in
        let normalized := Qmax 0 (Qmin 1 normalized) in
        if String.eqb direction DirectionMinimize then (1 - normalized)%Q
        else normalized
  | _, _ => Qmax 0 (Qmin 1 (value / 100))
  end.

(** [func generateReasonString]: the quality band and the phrase that the
    format string interpolates. *)
Definition generateReasonString (fieldName : string) (value normalizedValue : Q)
    (direction : schema.Direction) : string * string :=
  let quality :=
    if Qle_bool 0.75 normalizedValue then "excellent"
    else if Qle_bool 0.5 normalizedValue then "good"
    else if Qle_bool 0.25 normalizedValue then "fair"
    else "poor" in
  if String.eqb direction DirectionMaximize then (quality, "higher is better")
  else (quality, "lower is better").

(** [func generateSummary(factors []models.ExplanationFactor, finalScore float64) string] *)
Definition generateSummary (factors : list ExplanationFactor) (finalScore : Q) : Summary :=
  match factors with
  | [] => SummaryNoFactors
  | _ =>
      let topFactors :=
        omap (fun factor =>
                if Qlt_le_dec 0 (Contribution factor) then Some (Name factor) else None)
             (take 3 factors) in
      match topFactors with
      | [] => SummaryWeighted finalScore
      | _ => SummaryTop finalScore topFactors
      end
  end.

(** The running totals of the loop over [resolvedSchema.Fields]. *)
Record totals : Type := {
  factors : list ExplanationFactor;
  totalWeightedScore : Q;
  totalWeight : Q;
  maxPossibleScore : Q;
}.

Section Scorer.

(** [json.Unmarshal([]byte(v), &num)] with [num float64]: the number a string
    parses to, if it does.  It belongs to Go's library. *)
Variable jsonNumber : string -> option Q.

(** [sort.Slice] belongs to Go's library and is not stable. *)
Variable sortSlice :
  (ExplanationFactor -> ExplanationFactor -> bool) ->
  list ExplanationFactor -> list ExplanationFactor.

(** [func toFloat64(value interface{}) (float64, error)] *)
Definition toFloat64 (value : SiteValue) : result Q :=
  match value with
  | VFloat64 v => Ok v
  | VFloat32 v => Ok v
  | VInt v => Ok (inject_Z v)
  | VInt64 v => Ok (inject_Z v)
  | VInt32 v => Ok (inject_Z v)
  | VString v =>
      match jsonNumber v with
      | None => Err "cannot convert string to float64"
      | Some num => Ok num
      end
  | _ => Err "unsupported type for numeric conversion"
  end.

(** The body of [for fieldName, fieldDef := range resolvedSchema.Fields]. *)
Definition scoreField (siteData : gmap string SiteValue) (weights : gmap string Q)
    (fieldName : string) (fieldDef : FieldDef) (acc : totals) : totals :=
  if negb (isNumericFieldType (Type_ fieldDef)) || Qeq_bool (schema.Weight fieldDef) 0
  then acc
  else
    let weight := default 0%Q (weights !! fieldName) in
    if Qeq_bool weight 0 then acc
    else
      match siteData !! fieldName with
      | None => acc
      | Some rawValue =>
          match toFloat64 rawValue with
          | Err _ => acc
          | Ok numValue =>
              let normalizedValue :=
                normalizeValue numValue (Min fieldDef) (Max fieldDef) (Direction_ fieldDef) in
              let contribution := (normalizedValue * weight)%Q in
              let direction :=
                if String.eqb (Direction_ fieldDef) DirectionMinimize
                then "minimize" else "maximize" in
              let reason :=
                generateReasonString fieldName numValue normalizedValue (Direction_ fieldDef) in
              let factor :=
                {| Name := fieldName; Value := numValue; models.Weight := weight;
                   Contribution := contribution; Direction := direction;
                   Reason := reason |} in
              {| factors := factors acc ++ [factor];
                 totalWeightedScore := (totalWeightedScore acc + contribution)%Q;
                 totalWeight := (totalWeight acc + weight)%Q;
                 maxPossibleScore := (maxPossibleScore acc + weight)%Q |}
          end
      end.

Definition scoreFields (siteData : gmap string SiteValue)
    (resolvedSchema : ResolvedSchema) : totals :=
  map_fold (scoreField siteData (Weights resolvedSchema))
    {| factors := []; totalWeightedScore := 0; totalWeight := 0; maxPossibleScore := 0 |}
    (Fields resolvedSchema).

(** The comparison handed to [sort.Slice]. *)
Definition byAbsContribution (a b : ExplanationFactor) : bool :=
  if Qlt_le_dec (Qabs (Contribution b)) (Qabs (Contribution a)) then true else false.

(** [func DefaultScoreFunc(siteData map[string]interface{}, resolvedSchema *schema.ResolvedSchema)
    (rawScore float64, finalScore float64, explanation models.Explanation, err error)];
    a nil schema is [None]. *)
Definition DefaultScoreFunc (siteData : gmap string SiteValue)
    (resolvedSchema : option ResolvedSchema) : result (Q * Q * Explanation) :=
  match resolvedSchema with
  | None => Err "resolved schema cannot be nil"
  | Some resolvedSchema =>
      if Nat.eqb (size siteData) 0 then Err "site data cannot be empty"
      else
        let acc := scoreFields siteData resolvedSchema in
        let rawScore := totalWeightedScore acc in
        let finalScore :=
          if Qlt_le_dec 0 (maxPossibleScore acc)
          then (rawScore / maxPossibleScore acc * 100)%Q
          else 0%Q in
        let finalScore := Qmax 0 (Qmin 100 finalScore) in
        let sorted := sortSlice byAbsContribution (factors acc) in
        Ok (rawScore, finalScore,
            {| Factors := sorted; Summary_ := generateSummary sorted finalScore |})
  end.

End Scorer.

End scoring.

(* ===================================================================== *)
(** ** package repository *)
(* ===================================================================== *)
Module repository.
Import schema models scoring.

(** *** idempotency_repo.go *)

Record IdempotencyResult : Type := {
  AlreadyExists : bool;
  ResourceID : UUID;
}.

(** [func (r *IdempotencyRepository) Claim(ctx, tenantID, key, resourceType, resourceID)].
    The table [idempotency_keys] has the primary key (tenant_id, key,
    resource_type).  The query is one statement, [INSERT ... ON CONFLICT DO
    NOTHING RETURNING ...] united with a [SELECT] of the existing row: one
    atomic step on the table.  [dbErr] is the storage layer's error, if it
    raises one. *)
Definition Claim (tenantID : UUID) (key resourceType : string) (resourceID : UUID)
    (dbErr : option string) (idempotency_keys : gmap (UUID * string * string) UUID)
    : result IdempotencyResult * gmap (UUID * string * string) UUID :=
  if String.eqb key "" then (Err "idempotency key cannot be empty", idempotency_keys)
  else
    match dbErr with
    | Some e => (Err e, idempotency_keys)
    | None =>
        match idempotency_keys !! (tenantID, key, resourceType) with
        | None =>
            (Ok {| AlreadyExists := false; ResourceID := resourceID |},
             <[(tenantID, key, resourceType) := resourceID]> idempotency_keys)
        | Some existing =>
            (Ok {| AlreadyExists := true; ResourceID := existing |}, idempotency_keys)
        end
    end.

(** *** The store behind the pipeline's repositories *)

(** The columns of [scoring_runs] that the pipeline writes. *)
Record RunRow : Type := {
  Status : string;
  ScoredCount : option Z;
  LastError : option string;
  DurationMs : option Z;
  Attempt : Z;
}.

Abbreviation SiteData := (gmap string SiteValue) (only parsing).

(** A call of a repository method, as the pipeline issues it. *)
Inductive Call : Type :=
| CallUpdateStatus (runID : UUID) (status : string) (scoredCount : option Z)
    (lastError : option string) (durationMs : option Z)
| CallIncrementAttempt (runID : UUID)
| CallGetGlobalActive
| CallGetTenantActive (tenantID : UUID)
| CallCreateSnapshot (snapshot : SchemaConfigSnapshot)
| CallGetByUpload (uploadID : UUID)
| CallBulkInsert (recs : list Recommendation).

(** The tables, and what the environment decides: [faults] says, call by
    call, whether the store fails the next statement ([Some e]) or runs it
    ([None], also when the list is used up); [cancels] says, wait by wait,
    whether the context is cancelled during the back-off; [nextUUID] feeds
    [uuid.New]; [elapsedMs] is what [time.Since(startTime)] reads.  [calls]
    records the repository calls in the order they are made, and
    [runSnapshotID] is the field [SchemaConfigSnapshotID] of the run in
    memory. *)
Record World : Type := {
  scoring_runs : gmap UUID RunRow;
  global_config : option (SchemaConfig GlobalSchemaConfig);
  tenant_configs : gmap UUID (SchemaConfig TenantSchemaOverride);
  schema_config_snapshots : list SchemaConfigSnapshot;
  site_records : gmap UUID (list (SiteRecord (gmap string SiteValue)));
  recommendations : list Recommendation;
  faults : list (option string);
  cancels : list bool;
  nextUUID : UUID;
  elapsedMs : Z;
  calls : list Call;
  runSnapshotID : option UUID;
}.

Definition set_scoring_runs (v : gmap UUID RunRow) (w : World) : World :=
  {| scoring_runs := v; global_config := global_config w;
     tenant_configs := tenant_configs w;
     schema_config_snapshots := schema_config_snapshots w;
     site_records := site_records w; recommendations := recommendations w;
     faults := faults w; cancels := cancels w; nextUUID := nextUUID w;
     elapsedMs := elapsedMs w; calls := calls w; runSnapshotID := runSnapshotID w |}.

Definition set_schema_config_snapshots (v : list SchemaConfigSnapshot) (w : World) : World :=
  {| scoring_runs := scoring_runs w; global_config := global_config w;
     tenant_configs := tenant_configs w;
     schema_config_snapshots := v;
     site_records := site_records w; recommendations := recommendations w;
     faults := faults w; cancels := cancels w; nextUUID := nextUUID w;
     elapsedMs := elapsedMs w; calls := calls w; runSnapshotID := runSnapshotID w |}.

Definition set_recommendations (v : list Recommendation) (w : World) : World :=
  {| scoring_runs := scoring_runs w; global_config := global_config w;
     tenant_configs := tenant_configs w;
     schema_config_snapshots := schema_config_snapshots w;
     site_records := site_records w; recommendations := v;
     faults := faults w; cancels := cancels w; nextUUID := nextUUID w;
     elapsedMs := elapsedMs w; calls := calls w; runSnapshotID := runSnapshotID w |}.

Definition set_faults (v : list (option string)) (w : World) : World :=
  {| scoring_runs := scoring_runs w; global_config := global_config w;
     tenant_configs := tenant_configs w;
     schema_config_snapshots := schema_config_snapshots w;
     site_records := site_records w; recommendations := recommendations w;
     faults := v; cancels := cancels w; nextUUID := nextUUID w;
     elapsedMs := elapsedMs w; calls := calls w; runSnapshotID := runSnapshotID w |}.

Definition set_cancels (v : list bool) (w : World) : World :=
  {| scoring_runs := scoring_runs w; global_config := global_config w;
     tenant_configs := tenant_configs w;
     schema_config_snapshots := schema_config_snapshots w;
     site_records := site_records w; recommendations := recommendations w;
     faults := faults w; cancels := v; nextUUID := nextUUID w;
     elapsedMs := elapsedMs w; calls := calls w; runSnapshotID := runSnapshotID w |}.

Definition set_nextUUID (v : UUID) (w : World) : World :=
  {| scoring_runs := scoring_runs w; global_config := global_config w;
     tenant_configs := tenant_configs w;
     schema_config_snapshots := schema_config_snapshots w;
     site_records := site_records w; recommendations := recommendations w;
     faults := faults w; cancels := cancels w; nextUUID := v;
     elapsedMs := elapsedMs w; calls := calls w; runSnapshotID := runSnapshotID w |}.

Definition set_calls (v : list Call) (w : World) : World :=
  {| scoring_runs := scoring_runs w; global_config := global_config w;
     tenant_configs := tenant_configs w;
     schema_config_snapshots := schema_config_snapshots w;
     site_records := site_records w; recommendations := recommendations w;
     faults := faults w; cancels := cancels w; nextUUID := nextUUID w;
     elapsedMs := elapsedMs w; calls := v; runSnapshotID := runSnapshotID w |}.

Definition set_runSnapshotID (v : option UUID) (w : World) : World :=
  {| scoring_runs := scoring_runs w; global_config := global_config w;
     tenant_configs := tenant_configs w;
     schema_config_snapshots := schema_config_snapshots w;
     site_records := site_records w; recommendations := recommendations w;
     faults := faults w; cancels := cancels w; nextUUID := nextUUID w;
     elapsedMs := elapsedMs w; calls := calls w; runSnapshotID := v |}.

(** Computations over the world. *)
Definition M (A : Type) : Type := World -> A * World.

Definition ret {A} (a : A) : M A := fun w => (a, w).

Definition bind {A B} (m : M A) (k : A -> M B) : M B :=
  fun w => let (a, w') := m w in k a w'.

Notation "'let*' x ':=' m 'in' k" := (bind m (fun x => k))
  (at level 10, x pattern, m at level 100, k at level 200).

Definition recordCall (c : Call) : M unit :=
  fun w => (tt, set_calls (calls w ++ [c]) w).

(** The next entry of [faults]: the error the store raises on the statement
    it is given now, if it raises one. *)
Definition nextFault : M (option string) :=
  fun w => (mjoin (head (faults w)), set_faults (tail (faults w)) w).

(** One statement sent to the store: the call is recorded, and [stmt] runs
    unless the store fails it. *)
Definition statement {A} (c : Call) (stmt : M (result A)) : M (result A) :=
  let* _ := recordCall c in
  let* fault := nextFault in
  match fault with
  | Some e => ret (Err e)
  | None => stmt
  end.

(** [COALESCE($n, column)] *)
Definition coalesce {A} (new old : option A) : option A :=
  match new with Some _ => new | None => old end.

(** [func (r *RunRepository) UpdateStatus(ctx, runID, status, scoredCount, lastError, durationMs) error] *)
Definition UpdateStatus (runID : UUID) (status : string) (scoredCount : option Z)
    (lastError : option string) (durationMs : option Z) : M (result unit) :=
  statement (CallUpdateStatus runID status scoredCount lastError durationMs)
    (fun w =>
       match scoring_runs w !! runID with
       | None => (Err "scoring run not found", w)
       | Some row =>
           let row' :=
             {| Status := status;
                ScoredCount := coalesce scoredCount (ScoredCount row);
                LastError := coalesce lastError (LastError row);
                DurationMs := coalesce durationMs (DurationMs row);
                Attempt := Attempt row |} in
           (Ok tt, set_scoring_runs (<[runID := row']> (scoring_runs w)) w)
       end).

(** [func (r *RunRepository) IncrementAttempt(ctx, runID) error] *)
Definition IncrementAttempt (runID : UUID) : M (result unit) :=
  statement (CallIncrementAttempt runID)
    (fun w =>
       match scoring_runs w !! runID with
       | None => (Err "scoring run not found", w)
       | Some row =>
           let row' :=
             {| Status := Status row; ScoredCount := ScoredCount row;
                LastError := LastError row; DurationMs := DurationMs row;
                Attempt := (Attempt row + 1)%Z |} in
           (Ok tt, set_scoring_runs (<[runID := row']> (scoring_runs w)) w)
       end).

(** [func (r *SchemaConfigRepository) GetGlobalActive(ctx)]: no row is [nil, nil]. *)
Definition GetGlobalActive : M (result (option (SchemaConfig GlobalSchemaConfig))) :=
  statement CallGetGlobalActive (fun w => (Ok (global_config w), w)).

(** [func (r *SchemaConfigRepository) GetTenantActive(ctx, tenantID)] *)
Definition GetTenantActive (tenantID : UUID)
    : M (result (option (SchemaConfig TenantSchemaOverride))) :=
  statement (CallGetTenantActive tenantID)
    (fun w => (Ok (tenant_configs w !! tenantID), w)).

(** [func (r *SchemaConfigRepository) CreateSnapshot(ctx, snapshot) error] *)
Definition CreateSnapshot (snapshot : SchemaConfigSnapshot) : M (result unit) :=
  statement (CallCreateSnapshot snapshot)
    (fun w =>
       (Ok tt, set_schema_config_snapshots (schema_config_snapshots w ++ [snapshot]) w)).

(** [func (r *SiteRecordRepository) GetByUpload(ctx, uploadID)]: the upload's
    records in the order of their creation. *)
Definition GetByUpload (uploadID : UUID)
    : M (result (list (SiteRecord (gmap string SiteValue)))) :=
  statement (CallGetByUpload uploadID)
    (fun w => (Ok (default [] (site_records w !! uploadID)), w)).

(** [func (r *RecommendationRepository) BulkInsert(ctx, recs) error]: with no
    recommendations it returns before it reaches the store; otherwise the
    batch is sent as one unit, which the store inserts whole or fails. *)
Definition BulkInsert (recs : list Recommendation) : M (result unit) :=
  let* _ := recordCall (CallBulkInsert recs) in
  match recs with
  | [] => ret (Ok tt)
  | _ =>
      let* fault := nextFault in
      match fault with
      | Some e => ret (Err e)
      | None =>
          fun w => (Ok tt, set_recommendations (recommendations w ++ recs) w)
      end
  end.

End repository.

(* ===================================================================== *)
(** ** package scoring: pipeline.go *)
(* ===================================================================== *)
Module pipeline.
Import schema models scoring repository.

(** [type ScoreFunc func(siteData, resolvedSchema) (rawScore, finalScore, explanation, err)] *)
Abbreviation ScoreFunc :=
  (gmap string SiteValue -> option ResolvedSchema -> result (Q * Q * Explanation))
  (only parsing).

Record Pipeline : Type := {
  schemaResolver :
    RawMessage GlobalSchemaConfig -> RawMessage TenantSchemaOverride -> result ResolvedSchema;
  scoreFunc : ScoreFunc;
  maxRetries : Z;
  retryBaseWait : Z;
}.

(** [func NewPipeline(...)]: the resolver is [schema.NewResolver()], whose
    [Resolve] method is [schema.Resolve]; a nil [scoreFunc] is replaced by the
    default one. *)
Definition NewPipeline (defaultScoreFunc : ScoreFunc) (scoreFunc : option ScoreFunc)
    (maxRetries retryBaseWait : Z) : Pipeline :=
  {| schemaResolver := Resolve;
     scoreFunc := default defaultScoreFunc scoreFunc;
     maxRetries := maxRetries;
     retryBaseWait := retryBaseWait |}.

(** [if recommendations[j].FinalScore > recommendations[i].FinalScore { swap }] *)
Definition swapIfGreater (i j : nat) (recommendations : list Recommendation)
    : list Recommendation :=
  match recommendations !! i, recommendations !! j with
  | Some ri, Some rj =>
      if Qlt_le_dec (FinalScore ri) (FinalScore rj)
      then <[i := rj]> (<[j := ri]> recommendations)
      else recommendations
  | _, _ => recommendations
  end.

(** [for j := i + 1; j < len(recommendations); j++]: [n] rounds are left. *)
Fixpoint innerLoop (i j n : nat) (recommendations : list Recommendation)
    : list Recommendation :=
  match n with
  | O => recommendations
  | S n' => innerLoop i (S j) n' (swapIfGreater i j recommendations)
  end.

(** [for i := 0; i < len(recommendations); i++]: [n] rounds are left. *)
Fixpoint outerLoop (i n : nat) (recommendations : list Recommendation)
    : list Recommendation :=
  match n with
  | O => recommendations
  | S n' =>
      outerLoop (S i) n'
        (innerLoop i (S i) (length recommendations - S i) recommendations)
  end.

(** [func sortRecommendationsByScore(recommendations []models.Recommendation)] *)
Definition sortRecommendationsByScore (recommendations : list Recommendation)
    : list Recommendation :=
  outerLoop 0 (length recommendations) recommendations.

(** [for i := range recommendations { recommendations[i].Ranking = i + 1 }] *)
Definition assignRankings (recommendations : list Recommendation) : list Recommendation :=
  imap (fun i rec => setRanking rec (Z.of_nat i + 1)) recommendations.

(** [uuid.New()] *)
Definition newUUID : M UUID :=
  fun w => (nextUUID w, set_nextUUID (N.succ (nextUUID w)) w).

(** [int(time.Since(startTime).Milliseconds())] *)
Definition sinceStart : M Z := fun w => (elapsedMs w, w).

(** [run.SchemaConfigSnapshotID = &snapshotID] *)
Definition setSnapshotID (snapshotID : UUID) : M unit :=
  fun w => (tt, set_runSnapshotID (Some snapshotID) w).

(** [func (p *Pipeline) handleExecutionError(ctx, logger, run, err) error] *)
Definition handleExecutionError (run : ScoringRun) (err : string) : M (option string) :=
  let* _ := UpdateStatus (ID run) "failed" None (Some err) None in
  ret (Some err).

(** The body of [for idx, siteRecord := range siteRecords] in [Execute]: the
    record is skipped when its data does not parse or the score function
    fails on it; [json.Unmarshal] of [null] leaves the map nil. *)
Definition scoreSite (p : Pipeline) (run : ScoringRun) (resolvedSchema : ResolvedSchema)
    (recommendations : list Recommendation)
    (siteRecord : SiteRecord (gmap string SiteValue)) : M (list Recommendation) :=
  match Data siteRecord with
  | RawEmpty | RawInvalid => ret recommendations
  | parsed =>
      let siteData := match parsed with RawValue d => d | _ => ∅ end in
      match scoreFunc p siteData (Some resolvedSchema) with
      | Err _ => ret recommendations
      | Ok (rawScore, finalScore, explanation) =>
          let* recID := newUUID in
          let rec :=
            {| recID := recID; recRunID := ID run; recTenantID := TenantID run;
               recSiteID := SiteID siteRecord; recSiteName := SiteName siteRecord;
               Ranking := 0; FinalScore := finalScore; RawScore := rawScore;
               ComponentScores := explanation;
               Metadata := (rawScore, ModelVersion run) |} in
          ret (recommendations ++ [rec])
      end
  end.

Fixpoint scoreSites (p : Pipeline) (run : ScoringRun) (resolvedSchema : ResolvedSchema)
    (recommendations : list Recommendation)
    (siteRecords : list (SiteRecord (gmap string SiteValue))) : M (list Recommendation) :=
  match siteRecords with
  | [] => ret recommendations
  | siteRecord :: rest =>
      let* recommendations := scoreSite p run resolvedSchema recommendations siteRecord in
      scoreSites p run resolvedSchema recommendations rest
  end.

(** [func (p *Pipeline) Execute(ctx, run) error]: [None] is a nil error. *)
Definition Execute (p : Pipeline) (run : ScoringRun) : M (option string) :=
  (* Step a *)
  let* r := UpdateStatus (ID run) "running" None None None in
  match r with
  | Err err => handleExecutionError run err
  | Ok _ =>
  (* Step b *)
  let* r := GetGlobalActive in
  match r with
  | Err err => handleExecutionError run err
  | Ok None => handleExecutionError run "no active global schema configuration found"
  | Ok (Some globalConfig) =>
  let* r := GetTenantActive (TenantID run) in
  match r with
  | Err err => handleExecutionError run err
  | Ok tenantConfig =>
  let tenantConfigBytes :=
    match tenantConfig with
    | Some tenantConfig => Config tenantConfig
    | None => RawEmpty
    end in
  match schemaResolver p (Config globalConfig) tenantConfigBytes with
  | Err err => handleExecutionError run err
  | Ok resolvedSchema =>
  (* Step c *)
  let* snapshotID := newUUID in
  let snapshot :=
    {| snapID := snapshotID; snapRunID := ID run; SchemaConfigID := cfgID globalConfig;
       snapUploadID := Some (UploadID run); snapConfig := Config globalConfig;
       SnapshotData := resolvedSchema |} in
  let* r := CreateSnapshot snapshot in
  match r with
  | Err err => handleExecutionError run err
  | Ok _ =>
  let* _ := setSnapshotID snapshotID in
  (* Step d *)
  let* r := GetByUpload (UploadID run) in
  match r with
  | Err err => handleExecutionError run err
  | Ok siteRecords =>
  if Nat.eqb (length siteRecords) 0 then
    let* completeDuration := sinceStart in
    let* _ := UpdateStatus (ID run) "succeeded" (Some 0%Z) None (Some completeDuration) in
    ret None
  else
  (* Steps e and f *)
  let* recommendations := scoreSites p run resolvedSchema [] siteRecords in
  let recommendations := assignRankings (sortRecommendationsByScore recommendations) in
  (* Step g *)
  let* r := BulkInsert recommendations in
  match r with
  | Err err => handleExecutionError run err
  | Ok _ =>
  (* Step h *)
  let* completeDuration := sinceStart in
  let scoredCount := Z.of_nat (length recommendations) in
  let* r := UpdateStatus (ID run) "succeeded" (Some scoredCount) None (Some completeDuration) in
  match r with
  | Err err => ret (Some err)
  | Ok _ => ret None
  end end end end end end end end.

(** The [select] on [time.After(backoff)] and [ctx.Done()]: [true] when the
    context is done first. *)
Definition waitBackoff : M bool :=
  fun w => (default false (head (cancels w)), set_cancels (tail (cancels w)) w).

(** [fmt.Sprintf] with the verbs [%d] and [%v]. *)
Definition exhaustedMessage (attempts : Z) (lastErr : option string) : string :=
  "scoring pipeline failed after " +:+ pretty attempts +:+ " attempts: "
    +:+ default "<nil>" lastErr.

(** [for attempt := 0; attempt <= p.maxRetries; attempt++] of
    [ExecuteWithRetry]: [inl] is a [return] from inside the loop, [inr] is the
    loop left by its condition or by [break], with [lastErr].  [fuel] bounds
    the rounds. *)
Fixpoint retryLoop (p : Pipeline) (run : ScoringRun) (fuel : nat) (attempt : Z)
    (lastErr : option string) : M (option string + option string) :=
  match fuel with
  | O => ret (inr lastErr)
  | S fuel' =>
      if (attempt <=? maxRetries p)%Z then
        let* _ := IncrementAttempt (ID run) in
        let* err := Execute p run in
        match err with
        | None => ret (inl None)
        | Some e =>
            let lastErr := Some e in
            if (attempt >=? maxRetries p)%Z then ret (inr lastErr)
            else
              let* cancelled := waitBackoff in
              if cancelled then ret (inl (Some "context canceled"))
              else retryLoop p run fuel' (attempt + 1)%Z lastErr
        end
      else ret (inr lastErr)
  end.

(** [func (p *Pipeline) ExecuteWithRetry(ctx, run) error] *)
Definition ExecuteWithRetry (p : Pipeline) (run : ScoringRun) : M (option string) :=
  let* r := retryLoop p run (Z.to_nat (maxRetries p + 1)) 0 None in
  match r with
  | inl res => ret res
  | inr lastErr =>
      let errorMsg := exhaustedMessage (maxRetries p + 1) lastErr in
      let* _ := UpdateStatus (ID run) "failed" None (Some errorMsg) None in
      ret (Some errorMsg)
  end.

(** *** calculateBackoff *)

(** The [int64] that holds [z] modulo 2^64. *)
Definition wrap64 (z : Z) : Z := ((z + 2 ^ 63) mod 2 ^ 64 - 2 ^ 63)%Z.

(** [d.Milliseconds()] for a [time.Duration] of [d] nanoseconds. *)
Definition Milliseconds (d : Z) : Z := Z.quot d 1000000.

Section Backoff.

(** [int64(f)] for a [float64] that an [int64] cannot hold: Go leaves the
    value to the implementation. *)
Variable int64OutOfRange : Z -> Z.

(** [rand.Int63n(n)] for a positive [n]: the number that is drawn. *)
Variable Int63n : Z -> Z.

(** [int64(math.Pow(2, float64(attempt)))]: a power of two is a [float64];
    with a negative exponent it is below 1 and the conversion discards it;
    from 2^63 on an [int64] cannot hold it. *)
Definition pow2 (attempt : Z) : Z :=
  if (attempt <? 0)%Z then 0%Z
  else if (attempt <=? 62)%Z then (2 ^ attempt)%Z
  else int64OutOfRange attempt.

(** [func (p *Pipeline) calculateBackoff(attempt int) time.Duration], with
    [retryBaseWait] in nanoseconds as [time.Duration] counts; [None] is the
    panic of [rand.Int63n] on an argument that is not positive. *)
Definition calculateBackoff (p : Pipeline) (attempt : Z) : option Z :=
  let exponentialMs := wrap64 (Milliseconds (retryBaseWait p) * pow2 attempt) in
  let n := wrap64 (Z.quot exponentialMs 10 + 1) in
  if (n <=? 0)%Z then None
  else
    let jitterMs := Int63n n in
    let totalMs := wrap64 (exponentialMs + jitterMs) in
    let maxMs := (5 * 60 * 1000)%Z in
    let totalMs := if (totalMs >? maxMs)%Z then maxMs else totalMs in
    Some (wrap64 (totalMs * 1000000)).

End Backoff.

End pipeline.

(* ===================================================================== *)
(** ** Predicates used to state the properties *)
(* ===================================================================== *)
Module spec.
Import schema models scoring repository pipeline.
Local Open Scope Q_scope.

(** The field types that are scored. *)
Definition numericTypes : list string :=
  [TypePercentage; TypeIndex; TypeInteger; TypeNumeric; TypePopulation].

(** The values that coerce to a number: the numeric dynamic types, and the
    strings that parse as a JSON number. *)
Inductive Coerces (jsonNumber : string -> option Q) : SiteValue -> Q -> Prop :=
| coerces_float64 v : Coerces jsonNumber (VFloat64 v) v
| coerces_float32 v : Coerces jsonNumber (VFloat32 v) v
| coerces_int z : Coerces jsonNumber (VInt z) (inject_Z z)
| coerces_int64 z : Coerces jsonNumber (VInt64 z) (inject_Z z)
| coerces_int32 z : Coerces jsonNumber (VInt32 z) (inject_Z z)
| coerces_string s v : jsonNumber s = Some v -> Coerces jsonNumber (VString s) v.

(** What the code asks of a field before it scores it with weight [w] on
    the value [v]: a numeric type, a non-zero weight in the field definition
    itself, a non-zero effective weight, a value in the record, and a value
    that coerces. *)
Definition Scored (jsonNumber : string -> option Q)
    (siteData : gmap string SiteValue) (weights : gmap string Q)
    (name : string) (fd : FieldDef) (w v : Q) : Prop :=
  Type_ fd ∈ numericTypes /\
  ~ schema.Weight fd == 0 /\
  weights !! name = Some w /\ ~ w == 0 /\
  exists raw, siteData !! name = Some raw /\ Coerces jsonNumber raw v.

(** The conditions of scoring without the weight of the field definition
    itself: numeric type, non-zero effective weight, a value that coerces. *)
Definition ScoredByEffectiveWeight (jsonNumber : string -> option Q)
    (siteData : gmap string SiteValue) (weights : gmap string Q)
    (name : string) (fd : FieldDef) (w v : Q) : Prop :=
  Type_ fd ∈ numericTypes /\
  weights !! name = Some w /\ ~ w == 0 /\
  exists raw, siteData !! name = Some raw /\ Coerces jsonNumber raw v.


Definition sumQ (l : list Q) : Q := foldr Qplus 0 l.

(** What holds of the totals after the loop has visited the fields [m]. *)
Definition loopInvariant (jsonNumber : string -> option Q)
    (siteData : gmap string SiteValue) (weights : gmap string Q)
    (acc : totals) (m : gmap string FieldDef) : Prop :=
  (forall f, f ∈ factors acc ->
     exists fd w v, m !! Name f = Some fd /\
       Scored jsonNumber siteData weights (Name f) fd w v /\
       Value f = v /\ models.Weight f = w /\
       Contribution f = normalizeValue v (Min fd) (Max fd) (Direction_ fd) * w) /\
  (forall name fd w v, m !! name = Some fd ->
     Scored jsonNumber siteData weights name fd w v ->
     exists f, f ∈ factors acc /\ Name f = name) /\
  NoDup (Name <$> factors acc) /\
  totalWeightedScore acc == sumQ (Contribution <$> factors acc) /\
  maxPossibleScore acc == sumQ (models.Weight <$> factors acc) /\
  (factors acc = [] -> maxPossibleScore acc = 0).

(** A call of [Claim] by some caller, with the storage error it meets, if any. *)
Record ClaimRequest : Type := {
  reqTenantID : N;
  reqKey : string;
  reqResourceType : string;
  reqResourceID : N;
  reqDbErr : option string;
}.

(** Callers, concurrent or not, reach the table one statement after the
    other: the table after the requests [reqs], in the order they take effect. *)
Definition claimAll (reqs : list ClaimRequest)
    (idempotency_keys : gmap (N * string * string) N) : gmap (N * string * string) N :=
  foldl (fun table req =>
           snd (Claim (reqTenantID req) (reqKey req) (reqResourceType req)
                  (reqResourceID req) (reqDbErr req) table))
        idempotency_keys reqs.

(** Results in the order of the ranking: no later result has a greater
    final score. *)
Definition byScoreDesc (a b : Recommendation) : Prop := FinalScore b <= FinalScore a.

(** One round of the outer loop of the sort, on the element [x] at the
    current position and the elements [l] after it: [x] is exchanged with
    every later element that is strictly greater than what the position holds
    by then.  The result is what the position holds in the end and what is
    left after it. *)
Fixpoint sweep (x : Recommendation) (l : list Recommendation)
    : Recommendation * list Recommendation :=
  match l with
  | [] => (x, [])
  | y :: l' =>
      if Qlt_le_dec (FinalScore x) (FinalScore y)
      then (fst (sweep y l'), x :: snd (sweep y l'))
      else (fst (sweep x l'), y :: snd (sweep x l'))
  end.



(** What [Execute] hands to the resolver as the tenant's configuration. *)
Definition tenantBytes (run : ScoringRun) (w : World) : RawMessage TenantSchemaOverride :=
  match tenant_configs w !! TenantID run with
  | Some tenantConfig => Config tenantConfig
  | None => RawEmpty
  end.

Definition isIncrementAttempt (c : Call) : bool :=
  match c with CallIncrementAttempt _ => true | _ => false end.

(** How often the attempt counter was asked to be incremented. *)
Definition countAttempts (cs : list Call) : nat :=
  length (List.filter isIncrementAttempt cs).

(** [Q] holds of the value and the world that [m] leaves from [w]. *)
Definition post {A} (m : M A) (w : World) (Q : A -> World -> Prop) : Prop :=
  Q (fst (m w)) (snd (m w)).



(** One round of [ExecuteWithRetry]: the attempt counter, then [Execute]. *)
Definition attempt (p : Pipeline) (run : ScoringRun) : M (option string) :=
  let* _ := IncrementAttempt (ID run) in Execute p run.


(** [m] keeps [R] between the world it starts from and the world it leaves. *)
Definition preserves {A} (R : World -> World -> Prop) (m : M A) : Prop :=
  forall w, R w (snd (m w)).

(** From [w] to [w'] nothing changes but the row of the run [runID], and
    the lists of persisted results, of snapshots and of calls, which only
    grow at their end; no row of [scoring_runs] appears or disappears. *)
Definition touchesOnly (runID : N) (w w' : World) : Prop :=
  global_config w' = global_config w /\
  tenant_configs w' = tenant_configs w /\
  site_records w' = site_records w /\
  (forall id, id <> runID -> scoring_runs w' !! id = scoring_runs w !! id) /\
  (forall id, is_Some (scoring_runs w' !! id) <-> is_Some (scoring_runs w !! id)) /\
  recommendations w `prefix_of` recommendations w' /\
  schema_config_snapshots w `prefix_of` schema_config_snapshots w' /\
  calls w `prefix_of` calls w'.

(** The row [row'] holds at least what [row] holds: no column that had a
    value is empty, and the attempt counter is not smaller. *)
Definition rowGrows (row row' : RunRow) : Prop :=
  (is_Some (ScoredCount row) -> is_Some (ScoredCount row')) /\
  (is_Some (LastError row) -> is_Some (LastError row')) /\
  (is_Some (DurationMs row) -> is_Some (DurationMs row')) /\
  (Attempt row <= Attempt row')%Z.

(** The row of the run [runID], if there is one in [w], is still there in
    [w'] and holds at least as much. *)
Definition runRowGrows (runID : N) (w w' : World) : Prop :=
  forall row, scoring_runs w !! runID = Some row ->
    exists row', scoring_runs w' !! runID = Some row' /\ rowGrows row row'.




Definition isUpdateStatus (c : Call) : bool :=
  match c with CallUpdateStatus _ _ _ _ _ => true | _ => false end.

End spec.

(* ===================================================================== *)
(** ** Sample data *)
(* ===================================================================== *)
Module examples.
Import schema models scoring repository pipeline.

(** A reader of the JSON numbers written as an optional sign, digits and an
    optional fraction; it stands for [json.Unmarshal] in the examples. *)
Definition digitOf (c : ascii) : option Z :=
  let n := nat_of_ascii c in
  if (48 <=? n)%nat && (n <=? 57)%nat then Some (Z.of_nat (n - 48)) else None.

Fixpoint readDigits (s : string) (acc : Z) (scale : positive) (seen : bool)
    : option (Z * positive * string) :=
  match s with
  | EmptyString => if seen then Some (acc, scale, EmptyString) else None
  | String c rest =>
      match digitOf c with
      | Some d => readDigits rest (acc * 10 + d)%Z (scale * 10)%positive true
      | None => if seen then Some (acc, scale, s) else None
      end
  end.

Definition readUnsigned (s : string) : option Q :=
  match readDigits s 0 1 false with
  | Some (whole, _, EmptyString) => Some (inject_Z whole)
  | Some (whole, _, String "." frac) =>
      match readDigits frac 0 1 false with
      | Some (num, scale, EmptyString) => Some (inject_Z whole + (num # scale))%Q
      | _ => None
      end
  | _ => None
  end.

Definition decimalNumber (s : string) : option Q :=
  match s with
  | String "-" rest => Qopp <$> readUnsigned rest
  | _ => readUnsigned s
  end.

(** Readers and printers that stand for [strconv.ParseFloat], for the verb
    [%v] and for [strings.TrimSpace] in the examples. *)
Definition parseFloat (s : string) : option Float64 :=
  if String.eqb s "NaN" then Some NaN else Finite <$> decimalNumber s.

Definition showFloat (f : Float64) : string :=
  match f with
  | NaN => "NaN"
  | Inf true => "-Inf"
  | Inf false => "+Inf"
  | Finite _ => "<number>"
  end.


(** A sort by insertion; it stands for [sort.Slice] in the examples. *)
Fixpoint insertBy {A} (less : A -> A -> bool) (x : A) (l : list A) : list A :=
  match l with
  | [] => [x]
  | y :: l' => if less x y then x :: l else y :: insertBy less x l'
  end.

Definition insertionSort {A} (less : A -> A -> bool) (l : list A) : list A :=
  foldr (insertBy less) [] l.

Definition defaultScore := DefaultScoreFunc decimalNumber insertionSort.

Definition field (type : string) (min max : option Q) (weight : Q) (direction : string)
    : FieldDef :=
  {| Type_ := type; Required := false; Min := min; Max := max;
     schema.Weight := weight; Direction_ := direction; Description := "" |}.

(** The end-to-end scenario: one percentage field on [0, 100], weight 1,
    which the tenant overrides to 2. *)
Definition globalUnemployment : GlobalSchemaConfig :=
  {| gFields := {[ "unemployment_rate" := field TypePercentage (Some 0%Q) (Some 100%Q) 1 DirectionMaximize ]};
     gSiteIDColumn := "site_id" |}.

Definition tenantDoubles : TenantSchemaOverride :=
  {| tFields := ∅; tSiteIDColumn := None;
     tWeights := {[ "unemployment_rate" := 2%Q ]} |}.

Definition schemaUnemployment : ResolvedSchema :=
  {| Fields := {[ "unemployment_rate" := field TypePercentage (Some 0%Q) (Some 100%Q) 1 DirectionMaximize ]};
     SiteIDColumn := "site_id";
     Weights := {[ "unemployment_rate" := 2%Q ]} |}.

(** A tenant that redefines the field with weight 3 and also gives the
    standalone weight 2. *)
Definition tenantRedefines : TenantSchemaOverride :=
  {| tFields := {[ "unemployment_rate" := field TypePercentage (Some 0%Q) (Some 50%Q) 3 DirectionMinimize ]};
     tSiteIDColumn := None;
     tWeights := {[ "unemployment_rate" := 2%Q ]} |}.


Definition tenantEnables : TenantSchemaOverride :=
  {| tFields := ∅; tSiteIDColumn := None; tWeights := {[ "cost_index" := 2%Q ]} |}.


(** The same field with both bounds equal to 10. *)
Definition globalZeroWeightFlat : GlobalSchemaConfig :=
  {| gFields := {[ "cost_index" := field TypeIndex (Some 10%Q) (Some 10%Q) 0 DirectionMaximize ]};
     gSiteIDColumn := "site_id" |}.

Definition schemaZeroWeightFlat : ResolvedSchema :=
  {| Fields := {[ "cost_index" := field TypeIndex (Some 10%Q) (Some 10%Q) 0 DirectionMaximize ]};
     SiteIDColumn := "site_id";
     Weights := {[ "cost_index" := 2%Q ]} |}.

(** A field whose definition gives no direction. *)
Definition schemaNoDirection : ResolvedSchema :=
  {| Fields := {[ "unemployment_rate" := field TypePercentage (Some 0%Q) (Some 100%Q) 1 "" ]};
     SiteIDColumn := "site_id";
     Weights := {[ "unemployment_rate" := 1%Q ]} |}.

(** A field with equal bounds that is scored. *)
Definition schemaFlat : ResolvedSchema :=
  {| Fields := {[ "cost_index" := field TypeIndex (Some 10%Q) (Some 10%Q) 1 DirectionMinimize ]};
     SiteIDColumn := "site_id";
     Weights := {[ "cost_index" := 2%Q ]} |}.

Definition rec (id : N) (score : Q) : Recommendation :=
  {| recID := id; recRunID := 1; recTenantID := 1; recSiteID := "site";
     recSiteName := "Site"; Ranking := 0; FinalScore := score; RawScore := score;
     ComponentScores := {| Factors := []; Summary_ := SummaryNoFactors |};
     Metadata := (score, "v1") |}.

(** Two callers present the key "k1" of tenant 7 with the candidates 100
    and 200; a third claims another key in between. *)
Definition otherClaims : list spec.ClaimRequest :=
  [ {| spec.reqTenantID := 7; spec.reqKey := "k2"; spec.reqResourceType := "upload";
       spec.reqResourceID := 300; spec.reqDbErr := None |};
    {| spec.reqTenantID := 7; spec.reqKey := "k1"; spec.reqResourceType := "upload";
       spec.reqResourceID := 200; spec.reqDbErr := None |} ].

(** A pipeline with the default score function and two retries, a queued
    run of tenant 7 on upload 10, and worlds for it. *)
Definition samplePipeline : Pipeline := NewPipeline defaultScore None 2 1000.

Definition sampleRun : ScoringRun :=
  {| ID := 1; UploadID := 10; TenantID := 7; ModelVersion := "v1" |}.

Definition queuedRow : RunRow :=
  {| Status := "queued"; ScoredCount := None; LastError := None;
     DurationMs := None; Attempt := 0 |}.

Definition site (id : string) (value : Q) : SiteRecord (gmap string SiteValue) :=
  {| SiteID := id; SiteName := id;
     Data := RawValue {[ "unemployment_rate" := VFloat64 value ]} |}.

Definition sampleWorld (globalConfig : option (SchemaConfig GlobalSchemaConfig))
    (siteRecords : list (SiteRecord (gmap string SiteValue))) : World :=
  {| scoring_runs := {[ 1%N := queuedRow ]};
     global_config := globalConfig;
     tenant_configs := ∅;
     schema_config_snapshots := [];
     site_records := {[ 10%N := siteRecords ]};
     recommendations := [];
     faults := [];
     cancels := [];
     nextUUID := 100;
     elapsedMs := 42;
     calls := [];
     runSnapshotID := None |}.

Definition sampleConfig : SchemaConfig GlobalSchemaConfig :=
  {| cfgID := 5; Config := RawValue globalUnemployment |}.

(** What [Resolve] returns for [globalUnemployment] alone. *)
Definition schemaGlobalOnly : ResolvedSchema :=
  {| Fields := {[ "unemployment_rate" := field TypePercentage (Some 0%Q) (Some 100%Q) 1 DirectionMaximize ]};
     SiteIDColumn := "site_id";
     Weights := {[ "unemployment_rate" := 1%Q ]} |}.

(** Sites A and B score 50 each, site C scores 80; A is first in the input. *)
Definition tiedWorld : World :=
  sampleWorld (Some sampleConfig) [site "A" 50; site "B" 50; site "C" 80].

Definition emptyWorld : World := sampleWorld (Some sampleConfig) [].

(** No active global configuration: every attempt fails. *)
Definition unconfiguredWorld : World := sampleWorld None [site "A" 50].

End examples.

(* ===================================================================== *)
(** ** The scorer: normalization and the final score *)
(* ===================================================================== *)
Section NormalizeFacts.
Import schema models scoring spec.
Local Open Scope Q_scope.






Lemma normalizeValue_flat value minVal maxVal direction :
  Qeq_bool maxVal minVal = true ->
  normalizeValue value (Some minVal) (Some maxVal) direction = 0.5.
Proof.
  intros Heq. unfold normalizeValue. rewrite Heq. reflexivity.
Qed.








Lemma isNumericFieldType_spec (t : string) :
  isNumericFieldType t = true <-> t ∈ numericTypes.
Proof.
  unfold isNumericFieldType, numericTypes.
  rewrite !elem_of_cons, elem_of_nil.
  destruct (String.eqb_spec t TypeNumeric); [tauto |].
  destruct (String.eqb_spec t TypeInteger); [tauto |].
  destruct (String.eqb_spec t TypePercentage); [tauto |].
  destruct (String.eqb_spec t TypeIndex); [tauto |].
  destruct (String.eqb_spec t TypePopulation); [tauto |].
  split; [discriminate | tauto].
Qed.

End NormalizeFacts.

(* ===================================================================== *)
(** ** The scorer: which fields are scored *)
(* ===================================================================== *)
Section ScorerFacts.
Import schema models scoring spec.
Local Open Scope Q_scope.

Variable jsonNumber : string -> option Q.
Variable sortSlice :
  (ExplanationFactor -> ExplanationFactor -> bool) ->
  list ExplanationFactor -> list ExplanationFactor.


Lemma toFloat64_spec (raw : SiteValue) (v : Q) :
  toFloat64 jsonNumber raw = Ok v <-> Coerces jsonNumber raw v.
Proof.
  split.
  - destruct raw; simpl; intros H; try discriminate;
      try (injection H as <-; constructor).
    destruct (jsonNumber v0) eqn:E; [| discriminate].
    injection H as <-. constructor. exact E.
  - intros H. destruct H; simpl; try reflexivity.
    rewrite H. reflexivity.
Qed.

Lemma Qeq_bool_false_iff (x y : Q) : Qeq_bool x y = false <-> ~ x == y.
Proof.
  split.
  - intros Hb Heq. apply Qeq_eq_bool in Heq. congruence.
  - intros Hne. destruct (Qeq_bool x y) eqn:E; [| reflexivity].
    apply Qeq_bool_eq in E. contradiction.
Qed.

Lemma Scored_functional siteData weights name fd w v w' v' :
  Scored jsonNumber siteData weights name fd w v -> Scored jsonNumber siteData weights name fd w' v' ->
  w = w' /\ v = v'.
Proof.
  intros (_ & _ & Hw & _ & raw & Hraw & Hc) (_ & _ & Hw' & _ & raw' & Hraw' & Hc').
  split; [congruence |].
  assert (raw = raw') as <- by congruence.
  apply toFloat64_spec in Hc, Hc'. congruence.
Qed.

(** One round of the loop either leaves the totals as they are, or appends
    one factor and adds its contribution and weight. *)
Lemma scoreField_spec siteData weights name fd acc :
  let acc' := scoreField jsonNumber siteData weights name fd acc in
  ((forall w v, ~ Scored jsonNumber siteData weights name fd w v) /\ acc' = acc)
  \/
  (exists w v f,
      Scored jsonNumber siteData weights name fd w v /\
      factors acc' = factors acc ++ [f] /\
      Name f = name /\ Value f = v /\ models.Weight f = w /\
      Contribution f = normalizeValue v (Min fd) (Max fd) (Direction_ fd) * w /\
      totalWeightedScore acc' = totalWeightedScore acc + Contribution f /\
      maxPossibleScore acc' = maxPossibleScore acc + w).
Proof.
  unfold scoreField.
  destruct (isNumericFieldType (Type_ fd)) eqn:Htype; simpl.
  2:{ left. split; [| reflexivity]. intros w v (Ht & _).
      apply isNumericFieldType_spec in Ht. congruence. }
  destruct (Qeq_bool (schema.Weight fd) 0) eqn:Hfw.
  { left. split; [| reflexivity]. intros w v (_ & Hne & _).
    apply Qeq_bool_false_iff in Hne. congruence. }
  destruct (weights !! name) as [w|] eqn:Hw; simpl.
  2:{ left. split; [| reflexivity]. intros w v (_ & _ & Hw' & _). congruence. }
  destruct (Qeq_bool w 0) eqn:Hw0.
  { left. split; [| reflexivity]. intros w' v (_ & _ & Hw' & Hne & _).
    apply Qeq_bool_false_iff in Hne. congruence. }
  destruct (siteData !! name) as [raw|] eqn:Hraw.
  2:{ left. split; [| reflexivity]. intros w' v (_ & _ & _ & _ & raw & Hr & _).
      congruence. }
  destruct (toFloat64 jsonNumber raw) as [v|msg] eqn:Hv.
  2:{ left. split; [| reflexivity]. intros w' v (_ & _ & _ & _ & raw' & Hr & Hc).
      apply toFloat64_spec in Hc. congruence. }
  right. eexists w, v, _. split.
  { split; [apply isNumericFieldType_spec, Htype |].
    split; [apply Qeq_bool_false_iff, Hfw |].
    split; [exact Hw |]. split; [apply Qeq_bool_false_iff, Hw0 |].
    exists raw. split; [exact Hraw | apply toFloat64_spec, Hv]. }
  simpl. repeat split; reflexivity.
Qed.


Lemma sumQ_app (l1 l2 : list Q) : sumQ (l1 ++ l2) == sumQ l1 + sumQ l2.
Proof.
  induction l1 as [|x l1 IH]; simpl.
  - lra.
  - rewrite IH. lra.
Qed.

Lemma sumQ_perm (l1 l2 : list Q) : l1 ≡ₚ l2 -> sumQ l1 == sumQ l2.
Proof.
  induction 1; simpl; lra.
Qed.

Lemma scoreFields_invariant siteData resolvedSchema :
  loopInvariant jsonNumber siteData (Weights resolvedSchema)
    (scoreFields jsonNumber siteData resolvedSchema) (Fields resolvedSchema).
Proof.
  unfold scoreFields.
  apply (map_fold_weak_ind (loopInvariant jsonNumber siteData (Weights resolvedSchema))).
  - unfold loopInvariant; simpl. repeat split; try reflexivity.
    + intros f Hf. apply elem_of_nil in Hf. contradiction.
    + intros name fd w v Hm. rewrite lookup_empty in Hm. discriminate.
    + constructor.
  - intros name fd m acc Hfresh (Hin & Hall & Hnd & Htot & Hmax & Hnil).
    destruct (scoreField_spec siteData (Weights resolvedSchema) name fd acc)
      as [[Hskip ->] | (w & v & f & Hsc & Hfs & Hn & Hv & Hw & Hc & Ht & Hm)].
    + repeat split; try assumption.
      * intros f Hf. destruct (Hin f Hf) as (fd' & w & v & Hl & Hrest).
        exists fd', w, v. split; [| exact Hrest].
        rewrite lookup_insert_ne; [exact Hl | congruence].
      * intros name' fd' w v Hl Hsc.
        destruct (decide (name = name')) as [<- | Hne].
        -- rewrite lookup_insert_eq in Hl. injection Hl as <-.
           exfalso. exact (Hskip w v Hsc).
        -- rewrite lookup_insert_ne in Hl by exact Hne. eauto.
    + assert (Hnotin : name ∉ Name <$> factors acc).
      { intros Hel. apply list_elem_of_fmap in Hel as (g & Hg & Hgin).
        destruct (Hin g Hgin) as (fd' & _ & _ & Hl & _). congruence. }
      repeat split.
      * intros g Hg. rewrite Hfs in Hg. apply elem_of_app in Hg as [Hg | Hg].
        -- destruct (Hin g Hg) as (fd' & w' & v' & Hl & Hrest).
           exists fd', w', v'. split; [| exact Hrest].
           rewrite lookup_insert_ne; [exact Hl | congruence].
        -- apply list_elem_of_singleton in Hg as ->.
           exists fd, w, v. rewrite Hn, lookup_insert_eq. auto.
      * intros name' fd' w' v' Hl Hsc'. rewrite Hfs.
        destruct (decide (name = name')) as [<- | Hne].
        -- exists f. split; [| exact Hn]. apply elem_of_app. right.
           apply list_elem_of_singleton. reflexivity.
        -- rewrite lookup_insert_ne in Hl by exact Hne.
           destruct (Hall name' fd' w' v' Hl Hsc') as (g & Hg & Hgn).
           exists g. split; [| exact Hgn]. apply elem_of_app. left. exact Hg.
      * rewrite Hfs, fmap_app. apply NoDup_app. split; [exact Hnd |]. split.
        -- simpl. intros x Hx Hx'. apply list_elem_of_singleton in Hx'.
           subst x. rewrite Hn in Hx. contradiction.
        -- simpl. apply NoDup_singleton.
      * rewrite Ht, Hfs, fmap_app, sumQ_app, Htot. simpl. lra.
      * rewrite Hm, Hfs, fmap_app, sumQ_app, Hmax. simpl. rewrite Hw. lra.
      * rewrite Hfs. intros Habs. destruct (factors acc); discriminate.
Qed.

(** With a schema and a non-empty record the scorer returns, and this is
    what it returns. *)
Lemma DefaultScoreFunc_returns siteData resolvedSchema :
  size siteData <> 0%nat ->
  DefaultScoreFunc jsonNumber sortSlice siteData (Some resolvedSchema) =
    let acc := scoreFields jsonNumber siteData resolvedSchema in
    let finalScore :=
      Qmax 0 (Qmin 100
        (if Qlt_le_dec 0 (maxPossibleScore acc)
         then totalWeightedScore acc / maxPossibleScore acc * 100 else 0)) in
    let sorted := sortSlice byAbsContribution (factors acc) in
    Ok (totalWeightedScore acc, finalScore,
        {| Factors := sorted; Summary_ := generateSummary sorted finalScore |}).
Proof.
  intros Hsize. unfold DefaultScoreFunc.
  destruct (Nat.eqb_spec (size siteData) 0) as [Heq | _]; [contradiction | reflexivity].
Qed.

(** The factors of the explanation are the scored fields, one factor each,
    and the raw score is the sum of their contributions. *)
Lemma DefaultScoreFunc_explains siteData resolvedSchema :
  (forall less l, sortSlice less l ≡ₚ l) ->
  size siteData <> 0%nat ->
  exists rawScore finalScore explanation,
    DefaultScoreFunc jsonNumber sortSlice siteData (Some resolvedSchema)
      = Ok (rawScore, finalScore, explanation) /\
    (forall f, f ∈ Factors explanation ->
       exists fd w v, Fields resolvedSchema !! Name f = Some fd /\
         Scored jsonNumber siteData (Weights resolvedSchema) (Name f) fd w v /\
         Value f = v /\ models.Weight f = w /\
         Contribution f = normalizeValue v (Min fd) (Max fd) (Direction_ fd) * w) /\
    (forall name fd w v, Fields resolvedSchema !! name = Some fd ->
       Scored jsonNumber siteData (Weights resolvedSchema) name fd w v ->
       exists f, f ∈ Factors explanation /\ Name f = name) /\
    NoDup (Name <$> Factors explanation) /\
    rawScore == sumQ (Contribution <$> Factors explanation).
Proof.
  intros Hperm Hsize.
  rewrite (DefaultScoreFunc_returns _ _ Hsize). cbv zeta.
  eexists _, _, _. split; [reflexivity |]. simpl.
  destruct (scoreFields_invariant siteData resolvedSchema)
    as (Hin & Hall & Hnd & Htot & _ & _).
  set (acc := scoreFields jsonNumber siteData resolvedSchema) in *.
  pose proof (Hperm byAbsContribution (factors acc)) as Hp.
  repeat split.
  - intros f Hf. apply Hin. rewrite <- Hp. exact Hf.
  - intros name fd w v Hl Hsc. destruct (Hall name fd w v Hl Hsc) as (f & Hf & Hn).
    exists f. split; [rewrite Hp; exact Hf | exact Hn].
  - rewrite Hp. exact Hnd.
  - rewrite Htot. apply sumQ_perm. rewrite Hp. reflexivity.
Qed.



(** C10 (amended): when both bounds of a field are present and equal,
    [normalizeValue] returns exactly 0.5 for every value and every direction,
    and such a field, when it is scored (numeric type, non-zero weight in its
    definition, non-zero effective weight, a value that coerces), has one
    factor, whose contribution is 0.5 * effectiveWeight whatever the value. *)
Theorem equal_bounds_contribute_half siteData resolvedSchema name fd minVal maxVal :
  (forall less l, sortSlice less l ≡ₚ l) ->
  size siteData <> 0%nat ->
  Fields resolvedSchema !! name = Some fd ->
  Min fd = Some minVal -> Max fd = Some maxVal -> maxVal == minVal ->
  (forall value direction, normalizeValue value (Min fd) (Max fd) direction = 0.5) /\
  exists rawScore finalScore explanation,
    DefaultScoreFunc jsonNumber sortSlice siteData (Some resolvedSchema)
      = Ok (rawScore, finalScore, explanation) /\
    (forall w v, Scored jsonNumber siteData (Weights resolvedSchema) name fd w v ->
       exists f, f ∈ Factors explanation /\ Name f = name /\
         Contribution f = 0.5 * w) /\
    (forall f, f ∈ Factors explanation -> Name f = name ->
       Weights resolvedSchema !! name = Some (models.Weight f) /\
       Contribution f = 0.5 * models.Weight f).
Proof.
  intros Hperm Hsize Hfd Hmin Hmax Heq.
  assert (Hflat : forall value direction,
             normalizeValue value (Min fd) (Max fd) direction = 0.5).
  { intros value direction. rewrite Hmin, Hmax.
    apply normalizeValue_flat, Qeq_eq_bool, Heq. }
  split; [exact Hflat |].
  destruct (DefaultScoreFunc_explains siteData resolvedSchema Hperm Hsize)
    as (rawScore & finalScore & explanation & Hres & Hin & Hall & _ & _).
  exists rawScore, finalScore, explanation. split; [exact Hres |].
  assert (Hhalf : forall f, f ∈ Factors explanation -> Name f = name ->
            Weights resolvedSchema !! name = Some (models.Weight f) /\
            Contribution f = 0.5 * models.Weight f).
  { intros f Hf Hn.
    destruct (Hin f Hf) as (fd' & w & v & Hl & (_ & _ & Hw & _) & _ & Hwf & Hc).
    rewrite Hn in Hl, Hw. assert (fd' = fd) as -> by congruence.
    rewrite Hflat in Hc. subst w. split; assumption. }
  split; [| exact Hhalf].
  intros w v Hsc. destruct (Hall name fd w v Hfd Hsc) as (f & Hf & Hn).
  exists f. split; [exact Hf |]. split; [exact Hn |].
  destruct (Hhalf f Hf Hn) as [Hw Hc].
  destruct Hsc as (_ & _ & Hw' & _). rewrite Hc.
  assert (models.Weight f = w) as -> by congruence. reflexivity.
Qed.

End ScorerFacts.

(* ===================================================================== *)
(** ** The scorer: direction monotonicity *)
(* ===================================================================== *)
Section DirectionFacts.
Import schema models scoring spec.
Local Open Scope Q_scope.


End DirectionFacts.

(* ===================================================================== *)
(** ** The scorer on the sample data *)
(* ===================================================================== *)
Section ScorerExamples.
Import schema models scoring spec examples.
Local Open Scope Q_scope.

Lemma insertBy_perm {A} (less : A -> A -> bool) (x : A) (l : list A) :
  insertBy less x l ≡ₚ x :: l.
Proof.
  induction l as [|y l IH]; simpl; [reflexivity |].
  destruct (less x y); [reflexivity |].
  rewrite IH. apply Permutation_swap.
Qed.

Lemma insertionSort_perm {A} (less : A -> A -> bool) (l : list A) :
  insertionSort less l ≡ₚ l.
Proof.
  induction l as [|x l IH]; simpl; [reflexivity |].
  rewrite insertBy_perm, IH. reflexivity.
Qed.

(** The end-to-end scenario of the specification: the tenant doubles the
    weight, the value 25 normalizes to 0.25, and the final score is 25. *)
Example end_to_end_scenario :
  Resolve (RawValue globalUnemployment) (RawValue tenantDoubles) = Ok schemaUnemployment /\
  exists rawScore finalScore factor summary,
    defaultScore {[ "unemployment_rate" := VFloat64 25 ]} (Some schemaUnemployment)
      = Ok (rawScore, finalScore, {| Factors := [factor]; Summary_ := summary |}) /\
    rawScore == 0.5 /\ finalScore == 25 /\
    Name factor = "unemployment_rate" /\ Reason factor = ("fair", "higher is better").
Proof.
  split; [vm_compute; reflexivity |].
  eexists _, _, _, _. split; [vm_compute; reflexivity |].
  repeat split.
Qed.






(** C10, as stated, fails in its last part: the field "cost_index" has both
    bounds equal to 10, a numeric type and the effective weight 2, and the
    record has the numeric value 10 for it, but the weight in the field
    definition is 0, so the field is skipped and contributes nothing instead
    of 0.5 * 2. *)
Lemma equal_bounds_field_may_contribute_nothing :
  Resolve (RawValue globalZeroWeightFlat) (RawValue tenantEnables) = Ok schemaZeroWeightFlat /\
  (exists fd, Fields schemaZeroWeightFlat !! "cost_index" = Some fd /\
     Min fd = Some 10 /\ Max fd = Some 10 /\
     ScoredByEffectiveWeight decimalNumber {[ "cost_index" := VFloat64 10 ]}
       (Weights schemaZeroWeightFlat) "cost_index" fd 2 10) /\
  defaultScore {[ "cost_index" := VFloat64 10 ]} (Some schemaZeroWeightFlat)
    = Ok (0, 0, {| Factors := []; Summary_ := SummaryNoFactors |}) /\
  ~ 0 == 0.5 * 2.
Proof.
  split; [vm_compute; reflexivity |].
  split; [| split; [vm_compute; reflexivity | discriminate]].
  eexists. split; [vm_compute; reflexivity |].
  split; [reflexivity |]. split; [reflexivity |].
  split; [apply isNumericFieldType_spec; reflexivity |].
  split; [vm_compute; reflexivity |].
  split; [discriminate |].
  eexists. split; [vm_compute; reflexivity | constructor].
Qed.

Lemma equal_bounds_contribute_half_witness :
  (forall (less : ExplanationFactor -> ExplanationFactor -> bool) l,
     insertionSort less l ≡ₚ l) /\
  size ({[ "cost_index" := VString "50" ]} : gmap string SiteValue) <> 0%nat /\
  Fields schemaFlat !! "cost_index"
    = Some (field TypeIndex (Some 10) (Some 10) 1 DirectionMinimize) /\
  10 == 10 /\
  exists rawScore finalScore explanation,
    defaultScore {[ "cost_index" := VString "50" ]} (Some schemaFlat)
      = Ok (rawScore, finalScore, explanation) /\
    exists f, f ∈ Factors explanation /\ Name f = "cost_index" /\
      Contribution f = 0.5 * 2.
Proof.
  split; [intros less l; apply insertionSort_perm |].
  split; [vm_compute; discriminate |].
  split; [vm_compute; reflexivity |].
  split; [reflexivity |].
  destruct (equal_bounds_contribute_half decimalNumber insertionSort
              {[ "cost_index" := VString "50" ]} schemaFlat "cost_index"
              (field TypeIndex (Some 10) (Some 10) 1 DirectionMinimize) 10 10)
    as (_ & rawScore & finalScore & explanation & Hres & Hscored & _).
  - intros less l. apply insertionSort_perm.
  - vm_compute; discriminate.
  - vm_compute; reflexivity.
  - reflexivity.
  - reflexivity.
  - reflexivity.
  - exists rawScore, finalScore, explanation. split; [exact Hres |].
    apply (Hscored 2 50).
    split; [apply isNumericFieldType_spec; reflexivity |].
    split; [discriminate |].
    split; [vm_compute; reflexivity |].
    split; [discriminate |].
    eexists. split; [vm_compute; reflexivity |].
    constructor. vm_compute. reflexivity.
Defined.

End ScorerExamples.

(* ===================================================================== *)
(** ** The resolver: weight precedence *)
(* ===================================================================== *)
Section ResolveFacts.
Import schema.

(** Copying field definitions overlays them on what is there. *)
Lemma copyFields_spec (fields : gmap string FieldDef) (resolved : ResolvedSchema) :
  Fields (copyFields fields resolved) = fields ∪ Fields resolved /\
  Weights (copyFields fields resolved) = (Weight <$> fields) ∪ Weights resolved /\
  SiteIDColumn (copyFields fields resolved) = SiteIDColumn resolved.
Proof.
  unfold copyFields.
  apply (map_fold_weak_ind
           (fun (acc : ResolvedSchema) (m : gmap string FieldDef) =>
              Fields acc = m ∪ Fields resolved /\
              Weights acc = (Weight <$> m) ∪ Weights resolved /\
              SiteIDColumn acc = SiteIDColumn resolved)).
  - rewrite fmap_empty, !(left_id_L ∅ (∪)). auto.
  - intros name fd m acc _ (HF & HW & HS). simpl.
    rewrite HF, HW, fmap_insert, !insert_union_l. auto.
Qed.

(** The pass over the tenant's standalone weights, when it returns a schema. *)
Lemma overrideWeights_ok (weights : gmap string Q) (resolved resolved' : ResolvedSchema) :
  map_fold overrideWeight (Ok resolved) weights = Ok resolved' ->
  Fields resolved' = Fields resolved /\
  Weights resolved' = weights ∪ Weights resolved /\
  SiteIDColumn resolved' = SiteIDColumn resolved /\
  (forall name, is_Some (weights !! name) -> is_Some (Fields resolved !! name)).
Proof.
  revert resolved'.
  apply (map_fold_weak_ind
           (fun (acc : result ResolvedSchema) (m : gmap string Q) =>
              forall resolved', acc = Ok resolved' ->
                Fields resolved' = Fields resolved /\
                Weights resolved' = m ∪ Weights resolved /\
                SiteIDColumn resolved' = SiteIDColumn resolved /\
                (forall name, is_Some (m !! name) -> is_Some (Fields resolved !! name)))).
  - intros resolved' [= <-]. rewrite (left_id_L ∅ (∪)).
    repeat split. intros name [x Hx]. rewrite lookup_empty in Hx. discriminate.
  - intros name w m acc _ IH resolved' Hstep.
    destruct acc as [r | e]; simpl in Hstep; [| discriminate].
    destruct (IH r eq_refl) as (HF & HW & HS & Hdom).
    destruct (Fields r !! name) as [fd|] eqn:Hl; [| discriminate].
    injection Hstep as <-. simpl.
    rewrite HW, insert_union_l. repeat split; try assumption.
    intros name' Hsome. destruct (decide (name = name')) as [<- | Hne].
    + rewrite <- HF, Hl. eauto.
    + rewrite lookup_insert_ne in Hsome by exact Hne. auto.
Qed.

(** The pass returns a schema when every standalone weight names a field. *)
Lemma overrideWeights_returns (weights : gmap string Q) (resolved : ResolvedSchema) :
  (forall name, is_Some (weights !! name) -> is_Some (Fields resolved !! name)) ->
  exists resolved', map_fold overrideWeight (Ok resolved) weights = Ok resolved'.
Proof.
  intros Hdom.
  enough (exists resolved',
             map_fold overrideWeight (Ok resolved) weights = Ok resolved' /\
             Fields resolved' = Fields resolved) as (r & Hr & _) by eauto.
  revert Hdom.
  apply (map_fold_weak_ind
           (fun (acc : result ResolvedSchema) (m : gmap string Q) =>
              (forall name, is_Some (m !! name) -> is_Some (Fields resolved !! name)) ->
              exists resolved', acc = Ok resolved' /\ Fields resolved' = Fields resolved)).
  - intros _. eauto.
  - intros name w m acc _ IH Hdom.
    destruct IH as (r & -> & HF).
    { intros name' Hsome. apply Hdom.
      destruct (decide (name = name')) as [<- | Hne].
      - rewrite lookup_insert_eq. eauto.
      - rewrite lookup_insert_ne by exact Hne. exact Hsome. }
    simpl. destruct (Hdom name) as [fd Hfd]; [rewrite lookup_insert_eq; eauto |].
    rewrite HF, Hfd. eexists. split; reflexivity.
Qed.

(** What [Resolve] returns for a global configuration alone. *)
Lemma Resolve_global_only (g : GlobalSchemaConfig) (tc : RawMessage TenantSchemaOverride)
    (rs : ResolvedSchema) :
  tc = RawEmpty \/ tc = RawNull ->
  Resolve (RawValue g) tc = Ok rs ->
  Fields rs = gFields g /\ Weights rs = Weight <$> gFields g.
Proof.
  intros Htc Hres. unfold Resolve in Hres.
  destruct (String.eqb (gSiteIDColumn g) ""); [discriminate |].
  destruct (Nat.eqb (size (gFields g)) 0); [discriminate |].
  destruct (copyFields_spec (gFields g)
              {| Fields := ∅; SiteIDColumn := gSiteIDColumn g; Weights := ∅ |})
    as (HF & HW & _).
  simpl in HF, HW. rewrite (right_id_L ∅ (∪)) in HF. rewrite (right_id_L ∅ (∪)) in HW.
  destruct Htc as [-> | ->]; injection Hres as <-; auto.
Qed.

(** What [Resolve] returns with a tenant override. *)
Lemma Resolve_with_tenant (g : GlobalSchemaConfig) (t : TenantSchemaOverride)
    (rs : ResolvedSchema) :
  Resolve (RawValue g) (RawValue t) = Ok rs ->
  Fields rs = tFields t ∪ gFields g /\
  Weights rs = tWeights t ∪ ((Weight <$> tFields t) ∪ (Weight <$> gFields g)).
Proof.
  intros Hres. unfold Resolve in Hres.
  destruct (String.eqb (gSiteIDColumn g) ""); [discriminate |].
  destruct (Nat.eqb (size (gFields g)) 0); [discriminate |].
  unfold applyTenant in Hres.
  apply overrideWeights_ok in Hres as (HF & HW & _ & _).
  rewrite HF, HW.
  match goal with
  | |- Fields (copyFields _ ?r1) = _ /\ _ =>
      destruct (copyFields_spec (tFields t) r1) as (HF1 & HW1 & _)
  end.
  rewrite HF1, HW1.
  destruct (copyFields_spec (gFields g)
              {| Fields := ∅; SiteIDColumn := gSiteIDColumn g; Weights := ∅ |})
    as (HF0 & HW0 & _).
  simpl in HF0, HW0. rewrite (right_id_L ∅ (∪)) in HF0. rewrite (right_id_L ∅ (∪)) in HW0.
  destruct (tSiteIDColumn t); simpl; rewrite HF0, HW0; auto.
Qed.

(** C2: for every field name, the effective weight in the schema that
    [Resolve] returns is the tenant's standalone weight when there is one,
    otherwise the weight of the tenant's definition of the field when there is
    one, otherwise the weight of the global definition; the field is in the
    merged field set exactly when the tenant or the global configuration
    defines it. *)
Theorem Resolve_weight_precedence (g : GlobalSchemaConfig)
    (tc : RawMessage TenantSchemaOverride) (rs : ResolvedSchema) (f : string) :
  Resolve (RawValue g) tc = Ok rs ->
  match tc with
  | RawValue t =>
      Fields rs !! f =
        match tFields t !! f with
        | Some fd => Some fd
        | None => gFields g !! f
        end /\
      Weights rs !! f =
        match tWeights t !! f with
        | Some w => Some w
        | None =>
            match tFields t !! f with
            | Some fd => Some (Weight fd)
            | None => Weight <$> gFields g !! f
            end
        end
  | _ =>
      Fields rs !! f = gFields g !! f /\
      Weights rs !! f = Weight <$> gFields g !! f
  end.
Proof.
  intros Hres.
  destruct tc as [| | | t].
  - destruct (Resolve_global_only g _ rs (or_introl eq_refl) Hres) as [-> ->].
    rewrite lookup_fmap. auto.
  - destruct (Resolve_global_only g _ rs (or_intror eq_refl) Hres) as [-> ->].
    rewrite lookup_fmap. auto.
  - unfold Resolve in Hres.
    destruct (String.eqb (gSiteIDColumn g) ""); [discriminate |].
    destruct (Nat.eqb (size (gFields g)) 0); discriminate.
  - destruct (Resolve_with_tenant g t rs Hres) as [-> ->]. split.
    + rewrite lookup_union. destruct (tFields t !! f), (gFields g !! f); reflexivity.
    + rewrite !lookup_union, !lookup_fmap.
      destruct (tWeights t !! f), (tFields t !! f), (gFields g !! f); reflexivity.
Qed.

End ResolveFacts.

Section ResolveExamples.
Import schema examples.

Lemma Resolve_weight_precedence_witness :
  Resolve (RawValue globalUnemployment) (RawValue tenantRedefines)
    = Ok {| Fields := tFields tenantRedefines; SiteIDColumn := "site_id";
            Weights := tWeights tenantRedefines |} /\
  Fields {| Fields := tFields tenantRedefines; SiteIDColumn := "site_id";
            Weights := tWeights tenantRedefines |} !! "unemployment_rate"
    = match tFields tenantRedefines !! "unemployment_rate" with
      | Some fd => Some fd
      | None => gFields globalUnemployment !! "unemployment_rate"
      end /\
  Weights {| Fields := tFields tenantRedefines; SiteIDColumn := "site_id";
             Weights := tWeights tenantRedefines |} !! "unemployment_rate"
    = match tWeights tenantRedefines !! "unemployment_rate" with
      | Some w => Some w
      | None =>
          match tFields tenantRedefines !! "unemployment_rate" with
          | Some fd => Some (Weight fd)
          | None => Weight <$> gFields globalUnemployment !! "unemployment_rate"
          end
      end.
Proof.
  split; [vm_compute; reflexivity |].
  apply (Resolve_weight_precedence globalUnemployment (RawValue tenantRedefines) _
           "unemployment_rate").
  vm_compute; reflexivity.
Defined.

(** The three layers on the sample data: the standalone weight 2 wins over
    the weight 3 of the tenant's definition, which wins over the global 1. *)
Example precedence_layers :
  (exists rs, Resolve (RawValue globalUnemployment) (RawValue tenantRedefines) = Ok rs /\
     Weights rs !! "unemployment_rate" = Some 2%Q) /\
  (exists rs, Resolve (RawValue globalUnemployment)
                (RawValue {| tFields := tFields tenantRedefines; tSiteIDColumn := None;
                             tWeights := ∅ |}) = Ok rs /\
     Weights rs !! "unemployment_rate" = Some 3%Q) /\
  (exists rs, Resolve (RawValue globalUnemployment) RawNull = Ok rs /\
     Weights rs !! "unemployment_rate" = Some 1%Q).
Proof.
  repeat split; eexists; (split; [vm_compute; reflexivity | vm_compute; reflexivity]).
Qed.

End ResolveExamples.

(* ===================================================================== *)
(** ** The idempotency claim *)
(* ===================================================================== *)
Section ClaimFacts.
Import models repository spec.

Lemma Claim_existing (tenantID : N) (key resourceType : string) (resourceID existing : N)
    (table : gmap (N * string * string) N) :
  key <> ""%string ->
  table !! (tenantID, key, resourceType) = Some existing ->
  Claim tenantID key resourceType resourceID None table
    = (Ok {| AlreadyExists := true; ResourceID := existing |}, table).
Proof.
  intros Hkey Hl. unfold Claim.
  destruct (String.eqb_spec key ""); [contradiction |].
  rewrite Hl. reflexivity.
Qed.

(** No call of [Claim], whatever it presents and whatever it meets, changes
    an entry that is there. *)
Lemma Claim_keeps_entry (tenantID : N) (key resourceType : string) (resourceID : N)
    (dbErr : option string) (table : gmap (N * string * string) N)
    (k : N * string * string) (existing : N) :
  table !! k = Some existing ->
  snd (Claim tenantID key resourceType resourceID dbErr table) !! k = Some existing.
Proof.
  intros Hl. unfold Claim.
  destruct (String.eqb key ""); [exact Hl |].
  destruct dbErr; [exact Hl |].
  destruct (table !! (tenantID, key, resourceType)) eqn:Hk; simpl; [exact Hl |].
  rewrite lookup_insert_ne; [exact Hl | congruence].
Qed.

Lemma claimAll_keeps_entry (reqs : list ClaimRequest)
    (table : gmap (N * string * string) N) (k : N * string * string) (existing : N) :
  table !! k = Some existing -> claimAll reqs table !! k = Some existing.
Proof.
  revert table. induction reqs as [|req reqs IH]; intros table Hl; [exact Hl |].
  simpl. apply IH, Claim_keeps_entry, Hl.
Qed.

(** A claim that finds the key taken is a read: the table is the same. *)
Lemma Claim_taken_is_read (tenantID : N) (key resourceType : string) (resourceID : N)
    (dbErr : option string) (table : gmap (N * string * string) N) :
  is_Some (table !! (tenantID, key, resourceType)) ->
  snd (Claim tenantID key resourceType resourceID dbErr table) = table.
Proof.
  intros [existing Hl]. unfold Claim.
  destruct (String.eqb key ""); [reflexivity |].
  destruct dbErr; [reflexivity |]. rewrite Hl. reflexivity.
Qed.

(** C7: for a composite key (tenant, key, resourceType), the first claim
    that succeeds, that is the one answered with AlreadyExists = false,
    records its candidate and returns it.  After any further claims by any
    callers in any order, the key still maps to that candidate, every later
    claim for the key that the store answers returns AlreadyExists = true
    with the first caller's id, whatever candidate it presents, and no claim
    for the key changes the table; so of all the candidates presented for the
    key exactly one, the first, is recorded. *)
Theorem Claim_first_wins (tenantID : N) (key resourceType : string) (candidate : N)
    (dbErr : option string) (table table1 : gmap (N * string * string) N)
    (first : IdempotencyResult) :
  Claim tenantID key resourceType candidate dbErr table = (Ok first, table1) ->
  AlreadyExists first = false ->
  ResourceID first = candidate /\
  table1 !! (tenantID, key, resourceType) = Some candidate /\
  forall (reqs : list ClaimRequest) (later : N) (laterErr : option string),
    let table2 := claimAll reqs table1 in
    table2 !! (tenantID, key, resourceType) = Some candidate /\
    Claim tenantID key resourceType later None table2
      = (Ok {| AlreadyExists := true; ResourceID := candidate |}, table2) /\
    snd (Claim tenantID key resourceType later laterErr table2) = table2.
Proof.
  intros Hclaim Hnew. unfold Claim in Hclaim.
  destruct (String.eqb_spec key "") as [| Hkey]; [discriminate |].
  destruct dbErr; [discriminate |].
  destruct (table !! (tenantID, key, resourceType)) eqn:Hl.
  { injection Hclaim as <- <-. discriminate. }
  injection Hclaim as <- <-. simpl.
  split; [reflexivity |]. split; [apply lookup_insert_eq |].
  intros reqs later laterErr.
  assert (Hkept : claimAll reqs (<[(tenantID, key, resourceType) := candidate]> table)
                    !! (tenantID, key, resourceType) = Some candidate).
  { apply claimAll_keeps_entry, lookup_insert_eq. }
  split; [exact Hkept |]. split.
  - apply Claim_existing; assumption.
  - apply Claim_taken_is_read. rewrite Hkept. eauto.
Qed.

End ClaimFacts.

Section ClaimExamples.
Import models repository spec examples.

Lemma Claim_first_wins_witness :
  Claim 7 "k1" "upload" 100 None ∅
    = (Ok {| AlreadyExists := false; ResourceID := 100%N |},
       <[ (7%N, "k1"%string, "upload"%string) := 100%N ]> ∅) /\
  claimAll otherClaims (<[ (7%N, "k1"%string, "upload"%string) := 100%N ]> ∅)
    !! (7%N, "k1"%string, "upload"%string) = Some 100%N /\
  Claim 7 "k1" "upload" 200 None
      (claimAll otherClaims (<[ (7%N, "k1"%string, "upload"%string) := 100%N ]> ∅))
    = (Ok {| AlreadyExists := true; ResourceID := 100%N |},
       claimAll otherClaims (<[ (7%N, "k1"%string, "upload"%string) := 100%N ]> ∅)).
Proof.
  assert (Hfirst : Claim 7 "k1" "upload" 100 None ∅
            = (Ok {| AlreadyExists := false; ResourceID := 100%N |},
               <[ (7%N, "k1"%string, "upload"%string) := 100%N ]> ∅)).
  { unfold Claim. simpl. rewrite lookup_empty. reflexivity. }
  split; [exact Hfirst |].
  destruct (Claim_first_wins 7 "k1" "upload" 100 None ∅ _ _ Hfirst eq_refl)
    as (_ & _ & Hlater).
  destruct (Hlater otherClaims 200%N None) as (Hkept & Hsecond & _).
  split; [exact Hkept | exact Hsecond].
Defined.

(** An empty key is refused and nothing is recorded. *)
Example Claim_empty_key :
  Claim 7 "" "upload" 100 None ∅ = (Err "idempotency key cannot be empty", ∅).
Proof. reflexivity. Qed.

End ClaimExamples.

(* ===================================================================== *)
(** ** The ranking: [sortRecommendationsByScore] and the ranks *)
(* ===================================================================== *)
Section SortFacts.
Import models pipeline spec.

Lemma sweep_length x l : length (snd (sweep x l)) = length l.
Proof.
  revert x. induction l as [|y l IH]; intros x; simpl; [reflexivity |].
  destruct (Qlt_le_dec (FinalScore x) (FinalScore y)); simpl; rewrite IH; reflexivity.
Qed.

Lemma sweep_perm x l : fst (sweep x l) :: snd (sweep x l) ≡ₚ x :: l.
Proof.
  revert x. induction l as [|y l IH]; intros x; simpl; [reflexivity |].
  destruct (Qlt_le_dec (FinalScore x) (FinalScore y)); simpl.
  - rewrite Permutation_swap, IH. reflexivity.
  - rewrite Permutation_swap, IH. apply Permutation_swap.
Qed.

(** What the position holds in the end is at least what it held first and
    at least everything that is left after it. *)
Lemma sweep_greatest x l :
  (FinalScore x <= FinalScore (fst (sweep x l)))%Q /\
  Forall (byScoreDesc (fst (sweep x l))) (snd (sweep x l)).
Proof.
  revert x. induction l as [|y l IH]; intros x; simpl.
  - split; [apply Qle_refl | constructor].
  - destruct (Qlt_le_dec (FinalScore x) (FinalScore y)) as [Hlt | Hle]; simpl.
    + destruct (IH y) as [Hy Hall]. split; [lra |].
      constructor; [unfold byScoreDesc; lra | exact Hall].
    + destruct (IH x) as [Hx Hall]. split; [exact Hx |].
      constructor; [unfold byScoreDesc; lra | exact Hall].
Qed.

(** Nothing is exchanged when the position already holds the greatest. *)
Lemma sweep_sorted x l : Forall (byScoreDesc x) l -> sweep x l = (x, l).
Proof.
  induction 1 as [|y l Hy _ IH]; simpl; [reflexivity |].
  destruct (Qlt_le_dec (FinalScore x) (FinalScore y)) as [Hlt | _].
  - unfold byScoreDesc in Hy. lra.
  - rewrite IH. reflexivity.
Qed.

Lemma swapIfGreater_middle pre x mid y rest :
  swapIfGreater (length pre) (length pre + S (length mid)) (pre ++ x :: mid ++ y :: rest)
  = if Qlt_le_dec (FinalScore x) (FinalScore y)
    then pre ++ y :: mid ++ x :: rest
    else pre ++ x :: mid ++ y :: rest.
Proof.
  unfold swapIfGreater.
  rewrite (list_lookup_middle pre _ x (length pre) eq_refl).
  assert (Hj : (pre ++ x :: mid ++ y :: rest) !! (length pre + S (length mid)) = Some y).
  { rewrite lookup_app_r by lia.
    replace (length pre + S (length mid) - length pre)%nat with (S (length mid)) by lia.
    simpl. apply list_lookup_middle. reflexivity. }
  rewrite Hj.
  destruct (Qlt_le_dec (FinalScore x) (FinalScore y)); [| reflexivity].
  rewrite insert_app_r. simpl.
  replace (length mid) with (length mid + 0)%nat at 1 by lia.
  rewrite insert_app_r. simpl.
  replace (length pre) with (length pre + 0)%nat at 1 by lia.
  rewrite insert_app_r. reflexivity.
Qed.

(** The inner loop at position [length pre], with [mid] already visited,
    is a sweep over the rest. *)
Lemma innerLoop_sweep rest : forall pre x mid,
  innerLoop (length pre) (length pre + S (length mid)) (length rest)
    (pre ++ x :: mid ++ rest)
  = pre ++ fst (sweep x rest) :: mid ++ snd (sweep x rest).
Proof.
  induction rest as [|y rest IH]; intros pre x mid; simpl; [reflexivity |].
  rewrite swapIfGreater_middle.
  replace (S (length pre + S (length mid)))
    with (length pre + S (length (mid ++ [x])))%nat
    by (rewrite length_app; simpl; lia).
  destruct (Qlt_le_dec (FinalScore x) (FinalScore y)); simpl.
  - replace (pre ++ y :: mid ++ x :: rest) with (pre ++ y :: (mid ++ [x]) ++ rest)
      by (rewrite <- app_assoc; reflexivity).
    rewrite IH, <- app_assoc. reflexivity.
  - replace (S (length pre + S (length mid)))
      with (length pre + S (length (mid ++ [y])))%nat
      by (rewrite length_app; simpl; lia).
    replace (pre ++ x :: mid ++ y :: rest) with (pre ++ x :: (mid ++ [y]) ++ rest)
      by (rewrite <- app_assoc; reflexivity).
    replace (length pre + S (length (mid ++ [x])))%nat
      with (length pre + S (length (mid ++ [y])))%nat
      by (rewrite !length_app; simpl; lia).
    rewrite IH, <- app_assoc. reflexivity.
Qed.

(** The outer loop from position [length pre] on leaves [pre] alone and
    puts the rest in the order of the ranking. *)
Lemma outerLoop_sorts n : forall pre l,
  length l = n ->
  exists l', outerLoop (length pre) n (pre ++ l) = pre ++ l' /\
    l' ≡ₚ l /\ StronglySorted byScoreDesc l'.
Proof.
  induction n as [|n IH]; intros pre l Hlen.
  - destruct l; [| discriminate]. exists []. simpl.
    split; [reflexivity |]. split; [reflexivity | constructor].
  - destruct l as [|x l]; [discriminate |]. injection Hlen as Hlen. simpl.
    replace (length (pre ++ x :: l) - S (length pre))%nat with (length l)
      by (rewrite length_app; simpl; lia).
    pose proof (innerLoop_sweep l pre x []) as Hinner. simpl in Hinner.
    replace (length pre + 1)%nat with (S (length pre)) in Hinner by lia.
    rewrite Hinner.
    destruct (IH (pre ++ [fst (sweep x l)]) (snd (sweep x l))) as (l' & Hout & Hperm & Hsorted).
    { rewrite sweep_length. exact Hlen. }
    rewrite length_app in Hout. simpl in Hout.
    replace (length pre + 1)%nat with (S (length pre)) in Hout by lia.
    rewrite <- app_assoc in Hout. simpl in Hout.
    exists (fst (sweep x l) :: l'). rewrite Hout, <- app_assoc. simpl.
    split; [reflexivity |]. split.
    + rewrite Hperm. apply sweep_perm.
    + constructor; [exact Hsorted |].
      rewrite Hperm. apply sweep_greatest.
Qed.

(** The sort returns its input rearranged, with no later result greater
    than an earlier one. *)
Lemma sortRecommendationsByScore_sorts recommendations :
  sortRecommendationsByScore recommendations ≡ₚ recommendations /\
  StronglySorted byScoreDesc (sortRecommendationsByScore recommendations).
Proof.
  unfold sortRecommendationsByScore.
  destruct (outerLoop_sorts (length recommendations) [] recommendations eq_refl)
    as (l' & Hout & Hperm & Hsorted).
  simpl in Hout. rewrite Hout. split; assumption.
Qed.

(** On an input that is already in the order of the ranking the outer loop
    exchanges nothing. *)
Lemma outerLoop_sorted n : forall pre l,
  length l = n -> StronglySorted byScoreDesc l ->
  outerLoop (length pre) n (pre ++ l) = pre ++ l.
Proof.
  induction n as [|n IH]; intros pre l Hlen Hsorted; [reflexivity |].
  destruct l as [|x l]; [discriminate |]. injection Hlen as Hlen. simpl.
  apply StronglySorted_inv in Hsorted as [Hsorted Hx].
  replace (length (pre ++ x :: l) - S (length pre))%nat with (length l)
    by (rewrite length_app; simpl; lia).
  pose proof (innerLoop_sweep l pre x []) as Hinner. simpl in Hinner.
  replace (length pre + 1)%nat with (S (length pre)) in Hinner by lia.
  rewrite Hinner, (sweep_sorted x l Hx). simpl.
  pose proof (IH (pre ++ [x]) l Hlen Hsorted) as Hout.
  rewrite length_app in Hout. simpl in Hout.
  replace (length pre + 1)%nat with (S (length pre)) in Hout by lia.
  rewrite <- app_assoc in Hout. exact Hout.
Qed.

(** The ranks are handed out by position, and nothing else changes. *)
Lemma assignRankings_lookup recommendations i rec :
  assignRankings recommendations !! i = Some rec <->
  exists rec0, recommendations !! i = Some rec0 /\
    rec = setRanking rec0 (Z.of_nat i + 1).
Proof.
  unfold assignRankings. rewrite list_lookup_imap_Some. reflexivity.
Qed.







End SortFacts.

(* ===================================================================== *)
(** ** The pipeline: what one [Execute] does *)
(* ===================================================================== *)
Import repository pipeline.

(** Reduce the projections of a world that is given field by field. *)
Ltac world_simpl :=
  cbn [repository.scoring_runs global_config tenant_configs schema_config_snapshots
       site_records recommendations faults cancels nextUUID elapsedMs calls
       runSnapshotID set_scoring_runs set_schema_config_snapshots
       set_recommendations set_faults set_cancels set_nextUUID set_calls
       set_runSnapshotID fst snd ret newUUID sinceStart setSnapshotID
       Nat.eqb length default from_option] in *.

Section ExecuteFacts.
Import schema models scoring repository pipeline spec.


Lemma post_bind {A B} (m : M A) (k : A -> M B) w (Q : B -> World -> Prop) :
  post m w (fun a w1 => post (k a) w1 Q) -> post (bind m k) w Q.
Proof.
  unfold post, bind. destruct (m w) as [a w1]. exact (fun H => H).
Qed.






















End ExecuteFacts.

(* ===================================================================== *)
(** ** The pipeline: a run without input *)
(* ===================================================================== *)
Section EmptyInput.
Import schema models scoring repository pipeline spec.

Lemma noFault_step n (fs : list (option string)) :
  Forall (fun f => f = None) (take (S n) fs) ->
  mjoin (head fs) = None /\ Forall (fun f => f = None) (take n (tail fs)).
Proof.
  destruct fs as [|f fs]; simpl.
  - intros _. split; [reflexivity |]. destruct n; constructor.
  - intros H. apply Forall_cons in H as [-> H]. split; [reflexivity | exact H].
Qed.

Lemma statement_ok {A} (c : Call) (stmt : M (result A)) w :
  mjoin (head (faults w)) = None ->
  statement c stmt w = stmt (set_faults (tail (faults w)) (set_calls (calls w ++ [c]) w)).
Proof.
  intros H. unfold statement, bind, recordCall, nextFault. simpl. rewrite H. reflexivity.
Qed.

Lemma statement_fault {A} (c : Call) (stmt : M (result A)) w e :
  mjoin (head (faults w)) = Some e ->
  statement c stmt w = (Err e, set_faults (tail (faults w)) (set_calls (calls w ++ [c]) w)).
Proof.
  intros H. unfold statement, bind, recordCall, nextFault. simpl. rewrite H. reflexivity.
Qed.

Lemma sixth_fault (fs : list (option string)) :
  head (tail (tail (tail (tail (tail fs))))) = fs !! 5%nat.
Proof.
  destruct fs as [|f1 [|f2 [|f3 [|f4 [|f5 [|f6 fs]]]]]]; reflexivity.
Qed.

(** C8: when the store answers the first five statements of [Execute]
    (status running, global and tenant configuration, snapshot, site
    records), the schema resolves and the upload has no site records, then
    [Execute] returns nil; the only call after the fetch is the status update
    to succeeded with scoredCount 0, so [BulkInsert] is not called and the
    persisted results are the same; and the run is then recorded as
    succeeded with scoredCount 0, unless the store fails that last update. *)
Theorem Execute_empty_input p run w row globalConfig resolvedSchema :
  Forall (fun f => f = None) (take 5 (faults w)) ->
  scoring_runs w !! ID run = Some row ->
  global_config w = Some globalConfig ->
  schemaResolver p (Config globalConfig) (tenantBytes run w) = Ok resolvedSchema ->
  default [] (site_records w !! UploadID run) = [] ->
  exists w',
    Execute p run w = (None, w') /\
    recommendations w' = recommendations w /\
    calls w' = calls w ++
      [CallUpdateStatus (ID run) "running" None None None;
       CallGetGlobalActive;
       CallGetTenantActive (TenantID run);
       CallCreateSnapshot
         {| snapID := nextUUID w; snapRunID := ID run;
            SchemaConfigID := cfgID globalConfig;
            snapUploadID := Some (UploadID run);
            snapConfig := Config globalConfig;
            SnapshotData := resolvedSchema |};
       CallGetByUpload (UploadID run);
       CallUpdateStatus (ID run) "succeeded" (Some 0%Z) None (Some (elapsedMs w))] /\
    (mjoin (faults w !! 5%nat) = None ->
     scoring_runs w' !! ID run =
       Some {| Status := "succeeded"; ScoredCount := Some 0%Z;
               LastError := LastError row; DurationMs := Some (elapsedMs w);
               Attempt := Attempt row |}).
Proof.
  intros Hf Hrow Hgc Hres Hempty.
  destruct w as [runs gc tcs snaps srs recs fs nc nu el cs rsid]. world_simpl.
  apply noFault_step in Hf as [Hf1 Hf]. apply noFault_step in Hf as [Hf2 Hf].
  apply noFault_step in Hf as [Hf3 Hf]. apply noFault_step in Hf as [Hf4 Hf].
  apply noFault_step in Hf as [Hf5 _].
  unfold tenantBytes in Hres. world_simpl.
  unfold Execute. unfold bind at 1. unfold UpdateStatus at 1.
  rewrite statement_ok by exact Hf1. world_simpl. rewrite Hrow.
  unfold bind at 1. unfold GetGlobalActive.
  rewrite statement_ok by exact Hf2. world_simpl. rewrite Hgc.
  unfold bind at 1. unfold GetTenantActive.
  rewrite statement_ok by exact Hf3. world_simpl.
  rewrite Hres.
  unfold bind at 1. world_simpl. unfold bind at 1. unfold CreateSnapshot.
  rewrite statement_ok by exact Hf4. world_simpl.
  unfold bind at 1. world_simpl. unfold bind at 1. unfold GetByUpload.
  rewrite statement_ok by exact Hf5. world_simpl. rewrite Hempty. world_simpl.
  unfold bind at 1. world_simpl. unfold bind at 1.
  rewrite <- sixth_fault. unfold UpdateStatus.
  destruct (mjoin (head (tail (tail (tail (tail (tail fs))))))) as [e|] eqn:Hf6.
  - rewrite (statement_fault _ _ _ e) by exact Hf6. world_simpl.
    eexists. split; [reflexivity |]. world_simpl.
    split; [reflexivity |]. split; [| discriminate].
    rewrite <- !app_assoc. reflexivity.
  - rewrite statement_ok by exact Hf6. world_simpl. rewrite lookup_insert_eq.
    eexists. split; [reflexivity |]. world_simpl.
    split; [reflexivity |]. split; [rewrite <- !app_assoc; reflexivity |].
    intros _. rewrite lookup_insert_eq. reflexivity.
Qed.

End EmptyInput.

(* ===================================================================== *)
(** ** The pipeline: retries *)
(* ===================================================================== *)
Section RetryFacts.
Import schema models scoring repository pipeline spec.

Lemma bind_run {A B} (m : M A) (k : A -> M B) w :
  bind m k w = k (fst (m w)) (snd (m w)).
Proof. unfold bind. destruct (m w). reflexivity. Qed.

Lemma statement_calls {A} (c : Call) (stmt : M (result A)) w :
  (forall w1, calls (snd (stmt w1)) = calls w1) ->
  calls (snd (statement c stmt w)) = calls w ++ [c].
Proof.
  intros Hstmt. unfold statement, bind, recordCall, nextFault. world_simpl.
  destruct (mjoin (head (faults w))); [reflexivity |].
  rewrite Hstmt. reflexivity.
Qed.

Lemma calls_UpdateStatus runID status scoredCount lastError durationMs w :
  calls (snd (UpdateStatus runID status scoredCount lastError durationMs w))
  = calls w ++ [CallUpdateStatus runID status scoredCount lastError durationMs].
Proof.
  unfold UpdateStatus. apply statement_calls. intros w1.
  destruct (scoring_runs w1 !! runID); reflexivity.
Qed.







End RetryFacts.

(* ===================================================================== *)
(** ** The pipeline: ranking, ties, and the sample runs *)
(* ===================================================================== *)
Section PipelineClaims.
Import schema models scoring repository pipeline spec examples.





(** C6 (amended): ties are not broken by the input order in general.  When
    the results reach the sort already in non-increasing order of final score
    (in particular when all scores are equal), the sort exchanges nothing:
    every result keeps its position and gets the rank of that position, so
    among results with equal final score the earlier one has the smaller
    rank. *)
Theorem sorted_input_keeps_order recommendations :
  StronglySorted byScoreDesc recommendations ->
  sortRecommendationsByScore recommendations = recommendations /\
  forall i j a b,
    (i < j)%nat -> recommendations !! i = Some a -> recommendations !! j = Some b ->
    exists a' b',
      assignRankings (sortRecommendationsByScore recommendations) !! i = Some a' /\
      assignRankings (sortRecommendationsByScore recommendations) !! j = Some b' /\
      recID a' = recID a /\ recID b' = recID b /\
      (Ranking a' < Ranking b')%Z.
Proof.
  intros Hsorted.
  assert (Hid : sortRecommendationsByScore recommendations = recommendations).
  { unfold sortRecommendationsByScore.
    exact (outerLoop_sorted (length recommendations) [] recommendations eq_refl Hsorted). }
  split; [exact Hid |].
  intros i j a b Hij Ha Hb. rewrite Hid.
  exists (setRanking a (Z.of_nat i + 1)), (setRanking b (Z.of_nat j + 1)).
  split; [apply assignRankings_lookup; eauto |].
  split; [apply assignRankings_lookup; eauto |].
  simpl. repeat split. lia.
Qed.

End PipelineClaims.

Section PipelineExamples.
Import schema models scoring repository pipeline spec examples.

(** C6, as stated, fails: sites A and B have the same final score 50 and A
    comes first in the input, yet after one [Execute] B is ranked 2 and A is
    ranked 3.  The sort exchanges A with C, which moves A behind B. *)
Lemma ties_do_not_follow_input_order :
  sortRecommendationsByScore [rec 1 50; rec 2 50; rec 3 80]
    = [rec 3 80; rec 2 50; rec 1 50] /\
  fst (Execute samplePipeline sampleRun tiedWorld) = None /\
  (fun r => (recSiteID r, Ranking r, Qred (FinalScore r)))
    <$> recommendations (snd (Execute samplePipeline sampleRun tiedWorld))
    = [("C"%string, 1%Z, 80%Q); ("B"%string, 2%Z, 50%Q); ("A"%string, 3%Z, 50%Q)].
Proof.
  split; [vm_compute; reflexivity |].
  split; vm_compute; reflexivity.
Qed.

Lemma sorted_input_keeps_order_witness :
  StronglySorted byScoreDesc [rec 1 80; rec 2 50; rec 3 50] /\
  sortRecommendationsByScore [rec 1 80; rec 2 50; rec 3 50]
    = [rec 1 80; rec 2 50; rec 3 50] /\
  exists a' b',
    assignRankings (sortRecommendationsByScore [rec 1 80; rec 2 50; rec 3 50]) !! 1%nat
      = Some a' /\
    assignRankings (sortRecommendationsByScore [rec 1 80; rec 2 50; rec 3 50]) !! 2%nat
      = Some b' /\
    recID a' = 2%N /\ recID b' = 3%N /\ (Ranking a' < Ranking b')%Z.
Proof.
  assert (Hsorted : StronglySorted byScoreDesc [rec 1 80; rec 2 50; rec 3 50]).
  { repeat constructor; unfold byScoreDesc; simpl; discriminate. }
  split; [exact Hsorted |].
  destruct (sorted_input_keeps_order [rec 1 80; rec 2 50; rec 3 50] Hsorted)
    as [Hid Hties].
  split; [exact Hid |].
  apply (Hties 1%nat 2%nat (rec 2 50) (rec 3 50)); [lia | reflexivity | reflexivity].
Defined.

Lemma Execute_empty_input_witness :
  Forall (fun f : option string => f = None) (take 5 (faults emptyWorld)) /\
  scoring_runs emptyWorld !! ID sampleRun = Some queuedRow /\
  schemaResolver samplePipeline (Config sampleConfig) (tenantBytes sampleRun emptyWorld)
    = Ok schemaGlobalOnly /\
  default [] (site_records emptyWorld !! UploadID sampleRun) = [] /\
  exists w',
    Execute samplePipeline sampleRun emptyWorld = (None, w') /\
    recommendations w' = [] /\
    scoring_runs w' !! ID sampleRun =
      Some {| Status := "succeeded"; ScoredCount := Some 0%Z; LastError := None;
              DurationMs := Some 42%Z; Attempt := 0 |}.
Proof.
  assert (H1 : Forall (fun f : option string => f = None) (take 5 (faults emptyWorld)))
    by constructor.
  assert (H2 : scoring_runs emptyWorld !! ID sampleRun = Some queuedRow)
    by (vm_compute; reflexivity).
  assert (H3 : schemaResolver samplePipeline (Config sampleConfig)
                 (tenantBytes sampleRun emptyWorld) = Ok schemaGlobalOnly)
    by (vm_compute; reflexivity).
  assert (H4 : default [] (site_records emptyWorld !! UploadID sampleRun) = [])
    by (vm_compute; reflexivity).
  repeat (split; [assumption |]).
  destruct (Execute_empty_input samplePipeline sampleRun emptyWorld queuedRow
              sampleConfig schemaGlobalOnly H1 H2 eq_refl H3 H4)
    as (w' & Hexec & Hrecs & _ & Hrow).
  exists w'. split; [exact Hexec |]. split; [exact Hrecs |].
  apply Hrow. reflexivity.
Defined.


(** Without a global configuration all three attempts fail: the attempt
    counter is 3, the run is failed with the composite message, and the calls
    end with the one final status update. *)
Example retries_exhausted :
  let res := ExecuteWithRetry samplePipeline sampleRun unconfiguredWorld in
  fst res = Some "scoring pipeline failed after 3 attempts: no active global schema configuration found"%string /\
  scoring_runs (snd res) !! 1%N =
    Some {| Status := "failed"; ScoredCount := None;
            LastError := Some "scoring pipeline failed after 3 attempts: no active global schema configuration found"%string;
            DurationMs := None; Attempt := 3 |} /\
  countAttempts (calls (snd res)) = 3%nat /\
  last (calls (snd res)) =
    Some (CallUpdateStatus 1 "failed" None
            (Some "scoring pipeline failed after 3 attempts: no active global schema configuration found"%string)
            None).
Proof.
  cbv zeta. repeat split; vm_compute; reflexivity.
Qed.

(** A wait that is cancelled stops the retries: one attempt, no final
    status update by the wrapper. *)
Example retries_cancelled :
  let w := set_cancels [true] unconfiguredWorld in
  let res := ExecuteWithRetry samplePipeline sampleRun w in
  fst res = Some "context canceled"%string /\
  countAttempts (calls (snd res)) = 1%nat /\
  (Attempt <$> scoring_runs (snd res) !! 1%N) = Some 1%Z.
Proof.
  cbv zeta. repeat split; vm_compute; reflexivity.
Qed.

End PipelineExamples.

(* ===================================================================== *)
(** ** The resolver: when it returns, and what the result looks like *)
(* ===================================================================== *)
Section ResolveMore.
Import schema.

(** [Resolve] returns a schema only for a global document that parses. *)
Lemma Resolve_ok_global (gc : RawMessage GlobalSchemaConfig)
    (tc : RawMessage TenantSchemaOverride) (rs : ResolvedSchema) :
  Resolve gc tc = Ok rs ->
  exists g, gc = RawValue g /\ gSiteIDColumn g <> ""%string /\ gFields g <> ∅.
Proof.
  intros Hres. destruct gc as [| | | g]; try discriminate.
  exists g. split; [reflexivity |]. unfold Resolve in Hres.
  destruct (String.eqb_spec (gSiteIDColumn g) ""); [discriminate |].
  destruct (Nat.eqb_spec (size (gFields g)) 0); [discriminate |].
  split; [assumption |]. intros Hempty. rewrite Hempty, map_size_empty in *. lia.
Qed.

(** The schema before the tenant's standalone weights are applied. *)
Lemma Resolve_tenant_pass (g : GlobalSchemaConfig) (t : TenantSchemaOverride) :
  gSiteIDColumn g <> ""%string -> gFields g <> ∅ ->
  exists base,
    Resolve (RawValue g) (RawValue t) = map_fold overrideWeight (Ok base) (tWeights t) /\
    Fields base = tFields t ∪ gFields g /\
    Weights base = (Weight <$> tFields t) ∪ (Weight <$> gFields g) /\
    SiteIDColumn base = default (gSiteIDColumn g) (tSiteIDColumn t).
Proof.
  intros Hcol Hfields. unfold Resolve.
  destruct (String.eqb_spec (gSiteIDColumn g) ""); [contradiction |].
  destruct (Nat.eqb_spec (size (gFields g)) 0) as [Hsize | _].
  { apply map_size_empty_iff in Hsize. contradiction. }
  unfold applyTenant. eexists. split; [reflexivity |].
  match goal with
  | |- Fields (copyFields _ ?r1) = _ /\ _ =>
      destruct (copyFields_spec (tFields t) r1) as (HF1 & HW1 & HS1)
  end.
  rewrite HF1, HW1, HS1.
  destruct (copyFields_spec (gFields g)
              {| Fields := ∅; SiteIDColumn := gSiteIDColumn g; Weights := ∅ |})
    as (HF0 & HW0 & HS0).
  simpl in HF0, HW0, HS0.
  rewrite (right_id_L ∅ (∪)) in HF0. rewrite (right_id_L ∅ (∪)) in HW0.
  destruct (tSiteIDColumn t); simpl; rewrite HF0, HW0; auto.
Qed.

Lemma Resolve_global_pass (g : GlobalSchemaConfig) (tc : RawMessage TenantSchemaOverride) :
  gSiteIDColumn g <> ""%string -> gFields g <> ∅ ->
  tc = RawEmpty \/ tc = RawNull ->
  Resolve (RawValue g) tc =
    Ok {| Fields := gFields g; SiteIDColumn := gSiteIDColumn g;
          Weights := Weight <$> gFields g |}.
Proof.
  intros Hcol Hfields Htc. unfold Resolve.
  destruct (String.eqb_spec (gSiteIDColumn g) ""); [contradiction |].
  destruct (Nat.eqb_spec (size (gFields g)) 0) as [Hsize | _].
  { apply map_size_empty_iff in Hsize. contradiction. }
  destruct (copyFields_spec (gFields g)
              {| Fields := ∅; SiteIDColumn := gSiteIDColumn g; Weights := ∅ |})
    as (HF0 & HW0 & HS0).
  simpl in HF0, HW0, HS0.
  rewrite (right_id_L ∅ (∪)) in HF0. rewrite (right_id_L ∅ (∪)) in HW0.
  destruct (copyFields (gFields g)
              {| Fields := ∅; SiteIDColumn := gSiteIDColumn g; Weights := ∅ |})
    as [F S W]. simpl in *. subst.
  destruct Htc as [-> | ->]; reflexivity.
Qed.

(** [Resolve] fails closed.  It returns a schema exactly when the global
    document parses, names a site-ID column and declares at least one field,
    and the tenant document is absent, or null, or parses and gives standalone
    weights only to fields of the merged field set. *)
Theorem Resolve_succeeds_iff (gc : RawMessage GlobalSchemaConfig)
    (tc : RawMessage TenantSchemaOverride) :
  (exists rs, Resolve gc tc = Ok rs) <->
  exists g, gc = RawValue g /\ gSiteIDColumn g <> ""%string /\ gFields g <> ∅ /\
    match tc with
    | RawEmpty | RawNull => True
    | RawInvalid => False
    | RawValue t =>
        forall name, is_Some (tWeights t !! name) ->
          is_Some (tFields t !! name) \/ is_Some (gFields g !! name)
    end.
Proof.
  split.
  - intros [rs Hres].
    destruct (Resolve_ok_global gc tc rs Hres) as (g & -> & Hcol & Hfields).
    exists g. split; [reflexivity |]. split; [assumption |]. split; [assumption |].
    destruct tc as [| | | t]; try exact I.
    + unfold Resolve in Hres.
      destruct (String.eqb (gSiteIDColumn g) ""); [discriminate |].
      destruct (Nat.eqb (size (gFields g)) 0); discriminate.
    + destruct (Resolve_tenant_pass g t Hcol Hfields) as (base & Heq & HF & _).
      rewrite Heq in Hres. apply overrideWeights_ok in Hres as (_ & _ & _ & Hdom).
      intros name Hname. specialize (Hdom name Hname).
      rewrite HF, lookup_union in Hdom.
      destruct (tFields t !! name), (gFields g !! name); simpl in Hdom; eauto.
  - intros (g & -> & Hcol & Hfields & Htc).
    destruct tc as [| | | t]; try contradiction.
    + eexists. apply Resolve_global_pass; auto.
    + eexists. apply Resolve_global_pass; auto.
    + destruct (Resolve_tenant_pass g t Hcol Hfields) as (base & Heq & HF & _).
      rewrite Heq. apply overrideWeights_returns.
      intros name Hname. rewrite HF, lookup_union.
      destruct (Htc name Hname) as [[fd ->] | [fd ->]];
        [destruct (gFields g !! name) | destruct (tFields t !! name)]; simpl; eauto.
Qed.

(** In every schema that [Resolve] returns, the weights are keyed by
    exactly the field names, there is at least one field, and the site-ID
    column is the tenant's when the tenant gives one (whatever it is) and the
    global one otherwise. *)
Theorem Resolve_result_shape (gc : RawMessage GlobalSchemaConfig)
    (tc : RawMessage TenantSchemaOverride) (rs : ResolvedSchema) :
  Resolve gc tc = Ok rs ->
  (forall name, is_Some (Weights rs !! name) <-> is_Some (Fields rs !! name)) /\
  Fields rs <> ∅ /\
  exists g, gc = RawValue g /\
    SiteIDColumn rs =
      match tc with
      | RawValue t => default (gSiteIDColumn g) (tSiteIDColumn t)
      | _ => gSiteIDColumn g
      end.
Proof.
  intros Hres.
  destruct (Resolve_ok_global gc tc rs Hres) as (g & -> & Hcol & Hfields).
  assert (Hne : forall (m1 m2 : gmap string FieldDef), m2 <> ∅ -> m1 ∪ m2 <> ∅).
  { intros m1 m2 Hm2 Hu. apply Hm2. apply map_eq. intros i.
    rewrite lookup_empty. apply (f_equal (fun m => m !! i)) in Hu.
    rewrite lookup_empty in Hu. apply lookup_union_None in Hu. tauto. }
  destruct tc as [| | | t].
  - rewrite Resolve_global_pass in Hres by auto. injection Hres as <-. simpl.
    split; [intros name; rewrite lookup_fmap, fmap_is_Some; reflexivity |].
    split; [exact Hfields | eauto].
  - rewrite Resolve_global_pass in Hres by auto. injection Hres as <-. simpl.
    split; [intros name; rewrite lookup_fmap, fmap_is_Some; reflexivity |].
    split; [exact Hfields | eauto].
  - unfold Resolve in Hres.
    destruct (String.eqb (gSiteIDColumn g) ""); [discriminate |].
    destruct (Nat.eqb (size (gFields g)) 0); discriminate.
  - destruct (Resolve_tenant_pass g t Hcol Hfields) as (base & Heq & HF & HW & HS).
    rewrite Heq in Hres. apply overrideWeights_ok in Hres as (HF' & HW' & HS' & Hdom).
    split; [| split; [rewrite HF', HF; apply Hne, Hfields | exists g; split; congruence]].
    intros name. rewrite HW', HF', HW, HF, !lookup_union, !lookup_fmap.
    specialize (Hdom name). rewrite HF, lookup_union in Hdom.
    destruct (tWeights t !! name) as [w|] eqn:Hw.
    + split; [intros _; apply Hdom; eauto |].
      destruct (tFields t !! name), (gFields g !! name); simpl; eauto.
    + destruct (tFields t !! name), (gFields g !! name); simpl; split; eauto;
        intros [? ?]; discriminate.
Qed.

(** A tenant override that declares nothing is no override: the result is
    the one for an absent or null tenant document. *)
Theorem Resolve_empty_override (gc : RawMessage GlobalSchemaConfig) :
  Resolve gc (RawValue {| tFields := ∅; tSiteIDColumn := None; tWeights := ∅ |})
    = Resolve gc RawNull /\
  Resolve gc RawEmpty = Resolve gc RawNull.
Proof.
  split.
  - destruct gc as [| | | g]; reflexivity.
  - destruct gc; reflexivity.
Qed.

End ResolveMore.

Section ResolveMoreExamples.
Import schema examples.

Lemma Resolve_result_shape_witness :
  Resolve (RawValue globalUnemployment) (RawValue tenantDoubles) = Ok schemaUnemployment /\
  (forall name, is_Some (Weights schemaUnemployment !! name)
                <-> is_Some (Fields schemaUnemployment !! name)) /\
  Fields schemaUnemployment <> ∅.
Proof.
  assert (H : Resolve (RawValue globalUnemployment) (RawValue tenantDoubles)
              = Ok schemaUnemployment) by (vm_compute; reflexivity).
  split; [exact H |].
  destruct (Resolve_result_shape _ _ _ H) as (Hkeys & Hne & _).
  split; assumption.
Defined.

(** A standalone weight for a field that nobody declares makes [Resolve]
    fail, whatever else the documents hold. *)
Example Resolve_unknown_weight :
  Resolve (RawValue globalUnemployment)
    (RawValue {| tFields := ∅; tSiteIDColumn := None;
                 tWeights := {[ "nonexistent_field" := 2%Q ]} |})
  = Err "cannot override weight for non-existent field: nonexistent_field".
Proof. vm_compute. reflexivity. Qed.

End ResolveMoreExamples.

(* ===================================================================== *)
(** ** The scorer: errors, the weighted average, what it reads *)
(* ===================================================================== *)
Section ScorerMore.
Import schema models scoring spec.
Local Open Scope Q_scope.

Variable jsonNumber : string -> option Q.
Variable sortSlice :
  (ExplanationFactor -> ExplanationFactor -> bool) ->
  list ExplanationFactor -> list ExplanationFactor.



(** [DefaultScoreFunc] raises an error in two cases only, a nil schema and
    an empty record, and the nil schema is reported first.  A value that is
    missing or does not convert never makes it fail. *)
Theorem DefaultScoreFunc_fails_iff (siteData : gmap string SiteValue)
    (resolvedSchema : option ResolvedSchema) :
  (is_ok (DefaultScoreFunc jsonNumber sortSlice siteData resolvedSchema) = false
     <-> resolvedSchema = None \/ siteData = ∅) /\
  (resolvedSchema = None ->
     DefaultScoreFunc jsonNumber sortSlice siteData resolvedSchema
       = Err "resolved schema cannot be nil") /\
  (resolvedSchema <> None -> siteData = ∅ ->
     DefaultScoreFunc jsonNumber sortSlice siteData resolvedSchema
       = Err "site data cannot be empty").
Proof.
  destruct resolvedSchema as [rs |].
  - unfold DefaultScoreFunc.
    destruct (Nat.eqb_spec (size siteData) 0) as [Hsize | Hsize].
    + apply map_size_empty_iff in Hsize. repeat split; auto. discriminate.
    + repeat split; try discriminate.
      * intros [Habs | Habs]; [discriminate |].
        subst. rewrite map_size_empty in Hsize. contradiction.
      * intros _ ->. rewrite map_size_empty in Hsize. contradiction.
  - repeat split; auto. intros Habs. contradiction.
Qed.



(** What one round of the loop writes into the factor it appends. *)
Lemma scoreField_labels siteData weights name fd acc f :
  f ∈ factors (scoreField jsonNumber siteData weights name fd acc) ->
  f ∈ factors acc \/
  (Name f = name /\
   Direction f = (if String.eqb (Direction_ fd) DirectionMinimize
                  then "minimize" else "maximize")%string /\
   Reason f = generateReasonString name (Value f)
                (normalizeValue (Value f) (Min fd) (Max fd) (Direction_ fd))
                (Direction_ fd)).
Proof.
  unfold scoreField.
  destruct (negb (isNumericFieldType (Type_ fd)) || Qeq_bool (schema.Weight fd) 0);
    [auto |].
  destruct (Qeq_bool (default 0 (weights !! name)) 0); [auto |].
  destruct (siteData !! name) as [raw |]; [| auto].
  destruct (toFloat64 jsonNumber raw) as [v | msg]; [| auto].
  cbn [factors]. intros Hf. apply elem_of_app in Hf as [Hf | Hf]; [auto |].
  apply list_elem_of_singleton in Hf as ->. right. repeat split.
Qed.

Lemma scoreFields_labels siteData resolvedSchema f :
  f ∈ factors (scoreFields jsonNumber siteData resolvedSchema) ->
  exists fd, Fields resolvedSchema !! Name f = Some fd /\
    Direction f = (if String.eqb (Direction_ fd) DirectionMinimize
                   then "minimize" else "maximize")%string /\
    Reason f = generateReasonString (Name f) (Value f)
                 (normalizeValue (Value f) (Min fd) (Max fd) (Direction_ fd))
                 (Direction_ fd).
Proof.
  unfold scoreFields. revert f.
  apply (map_fold_weak_ind
           (fun (acc : totals) (m : gmap string FieldDef) =>
              forall f, f ∈ factors acc ->
                exists fd, m !! Name f = Some fd /\
                  Direction f = (if String.eqb (Direction_ fd) DirectionMinimize
                                 then "minimize" else "maximize")%string /\
                  Reason f = generateReasonString (Name f) (Value f)
                               (normalizeValue (Value f) (Min fd) (Max fd) (Direction_ fd))
                               (Direction_ fd))).
  - intros f Hf. apply elem_of_nil in Hf. contradiction.
  - intros name fd m acc Hfresh IH f Hf.
    apply scoreField_labels in Hf as [Hf | (Hn & Hd & Hr)].
    + destruct (IH f Hf) as (fd' & Hl & Hrest). exists fd'. split; [| exact Hrest].
      rewrite lookup_insert_ne; [exact Hl | congruence].
    + exists fd. rewrite Hn, lookup_insert_eq. auto.
Qed.

(** The direction that a factor reports is "minimize" for a field declared
    "minimize" and "maximize" for every other field, as the normalization
    treats it; the phrase of its reason is "higher is better" for a field
    declared "maximize" and "lower is better" for every other field.  So the
    two agree exactly for the fields declared "maximize" or "minimize": a
    field with any other direction is scored and labelled as maximized while
    its reason says that lower is better. *)
Theorem DefaultScoreFunc_direction_labels (siteData : gmap string SiteValue)
    (resolvedSchema : ResolvedSchema) (rawScore finalScore : Q)
    (explanation : Explanation) (f : ExplanationFactor) :
  (forall less l, sortSlice less l ≡ₚ l) ->
  DefaultScoreFunc jsonNumber sortSlice siteData (Some resolvedSchema)
    = Ok (rawScore, finalScore, explanation) ->
  f ∈ Factors explanation ->
  exists fd, Fields resolvedSchema !! Name f = Some fd /\
    (Direction_ fd = DirectionMinimize ->
       Direction f = "minimize"%string /\ snd (Reason f) = "lower is better"%string) /\
    (Direction_ fd = DirectionMaximize ->
       Direction f = "maximize"%string /\ snd (Reason f) = "higher is better"%string) /\
    (Direction_ fd <> DirectionMinimize -> Direction_ fd <> DirectionMaximize ->
       Direction f = "maximize"%string /\ snd (Reason f) = "lower is better"%string /\
       forall value,
         normalizeValue value (Min fd) (Max fd) (Direction_ fd)
           = normalizeValue value (Min fd) (Max fd) DirectionMaximize).
Proof.
  intros Hperm Hres Hf. unfold DefaultScoreFunc in Hres.
  destruct (Nat.eqb (size siteData) 0); [discriminate |].
  injection Hres as _ _ <-. cbn [Factors] in Hf. rewrite Hperm in Hf.
  destruct (scoreFields_labels siteData resolvedSchema f Hf) as (fd & Hl & Hd & Hr).
  exists fd. split; [exact Hl |]. rewrite Hd, Hr. unfold generateReasonString.
  split; [| split].
  - intros ->. split; reflexivity.
  - intros ->. split; reflexivity.
  - intros Hmin Hmax.
    apply String.eqb_neq in Hmin, Hmax. rewrite Hmin, Hmax.
    split; [reflexivity |]. split; [reflexivity |].
    intros value. unfold normalizeValue. rewrite Hmin. reflexivity.
Qed.

Lemma omap_length_le {A B} (f : A -> option B) (l : list A) :
  (length (omap f l) <= length l)%nat.
Proof.
  unfold omap. induction l as [|x l IH]; simpl; [lia |].
  destruct (f x); simpl; lia.
Qed.

(** The summary of the explanation: it says that nothing contributed exactly
    when there is no factor; otherwise it names at least one and at most three
    factors, each among the first three of the explanation and with a positive
    contribution, or none when none of the first three is positive. *)
Theorem DefaultScoreFunc_summary (siteData : gmap string SiteValue)
    (resolvedSchema : ResolvedSchema) (rawScore finalScore : Q)
    (explanation : Explanation) :
  DefaultScoreFunc jsonNumber sortSlice siteData (Some resolvedSchema)
    = Ok (rawScore, finalScore, explanation) ->
  match Summary_ explanation with
  | SummaryNoFactors => Factors explanation = []
  | SummaryWeighted score =>
      score = finalScore /\ Factors explanation <> [] /\
      forall f, f ∈ take 3 (Factors explanation) -> Contribution f <= 0
  | SummaryTop score names =>
      score = finalScore /\ (1 <= length names <= 3)%nat /\
      forall name, name ∈ names <->
        exists f, f ∈ take 3 (Factors explanation) /\ 0 < Contribution f /\ Name f = name
  end.
Proof.
  intros Hres. unfold DefaultScoreFunc in Hres.
  destruct (Nat.eqb (size siteData) 0); [discriminate |].
  injection Hres as _ <- <-. cbn [Summary_ Factors].
  set (fs := sortSlice byAbsContribution _). clearbody fs.
  unfold generateSummary.
  destruct fs as [|f0 fs0]; [reflexivity |].
  set (fs := f0 :: fs0).
  assert (Hnames : forall name,
            name ∈ omap (fun factor =>
                          if Qlt_le_dec 0 (Contribution factor)
                          then Some (Name factor) else None) (take 3 fs)
            <-> exists f, f ∈ take 3 fs /\ 0 < Contribution f /\ Name f = name).
  { intros name. rewrite list_elem_of_omap. split.
    - intros (f & Hf & Hn). exists f. split; [exact Hf |].
      destruct (Qlt_le_dec 0 (Contribution f)); [| discriminate].
      injection Hn as <-. auto.
    - intros (f & Hf & Hpos & <-). exists f. split; [exact Hf |].
      destruct (Qlt_le_dec 0 (Contribution f)); [reflexivity | lra]. }
  assert (Hlen : (length (omap (fun factor =>
                          if Qlt_le_dec 0 (Contribution factor)
                          then Some (Name factor) else None) (take 3 fs)) <= 3)%nat).
  { etransitivity; [apply omap_length_le |]. rewrite length_take. lia. }
  destruct (omap _ (take 3 fs)) as [|n ns] eqn:Htop.
  - split; [reflexivity |]. split; [discriminate |].
    intros f Hf. destruct (Qlt_le_dec 0 (Contribution f)) as [Hpos |]; [| assumption].
    exfalso. assert (Hin : Name f ∈ ([] : list string)) by (apply Hnames; eauto).
    apply elem_of_nil in Hin. exact Hin.
  - split; [reflexivity |]. split; [simpl in *; lia | exact Hnames].
Qed.


End ScorerMore.

Section ScorerMoreExamples.
Import schema models scoring spec examples.
Local Open Scope Q_scope.



Lemma DefaultScoreFunc_direction_labels_witness :
  (forall (less : ExplanationFactor -> ExplanationFactor -> bool) l,
     insertionSort less l ≡ₚ l) /\
  exists rawScore finalScore explanation f,
    defaultScore {[ "unemployment_rate" := VFloat64 25 ]} (Some schemaNoDirection)
      = Ok (rawScore, finalScore, explanation) /\
    f ∈ Factors explanation /\
    exists fd, Fields schemaNoDirection !! Name f = Some fd /\
      (Direction_ fd = DirectionMinimize ->
         Direction f = "minimize"%string /\ snd (Reason f) = "lower is better"%string) /\
      (Direction_ fd = DirectionMaximize ->
         Direction f = "maximize"%string /\ snd (Reason f) = "higher is better"%string) /\
      (Direction_ fd <> DirectionMinimize -> Direction_ fd <> DirectionMaximize ->
         Direction f = "maximize"%string /\ snd (Reason f) = "lower is better"%string /\
         forall value,
           normalizeValue value (Min fd) (Max fd) (Direction_ fd)
             = normalizeValue value (Min fd) (Max fd) DirectionMaximize).
Proof.
  split; [intros less l; apply insertionSort_perm |].
  eexists _, _, _, _. split; [vm_compute; reflexivity |].
  split; [apply list_elem_of_here |].
  eapply (DefaultScoreFunc_direction_labels decimalNumber insertionSort
            {[ "unemployment_rate" := VFloat64 25 ]} schemaNoDirection).
  - intros less l. apply insertionSort_perm.
  - vm_compute; reflexivity.
  - apply list_elem_of_here.
Defined.

Lemma DefaultScoreFunc_summary_witness :
  exists rawScore finalScore explanation,
    defaultScore {[ "unemployment_rate" := VFloat64 25 ]} (Some schemaUnemployment)
      = Ok (rawScore, finalScore, explanation) /\
    match Summary_ explanation with
    | SummaryNoFactors => Factors explanation = []
    | SummaryWeighted score =>
        score = finalScore /\ Factors explanation <> [] /\
        forall f, f ∈ take 3 (Factors explanation) -> Contribution f <= 0
    | SummaryTop score names =>
        score = finalScore /\ (1 <= length names <= 3)%nat /\
        forall name, name ∈ names <->
          exists f, f ∈ take 3 (Factors explanation) /\ 0 < Contribution f /\ Name f = name
    end.
Proof.
  eexists _, _, _. split; [vm_compute; reflexivity |].
  eapply (DefaultScoreFunc_summary decimalNumber insertionSort
           {[ "unemployment_rate" := VFloat64 25 ]} schemaUnemployment).
  vm_compute; reflexivity.
Defined.


End ScorerMoreExamples.

(* ===================================================================== *)
(** ** The ranking: what the sort keeps, and who is ranked first *)
(* ===================================================================== *)
Section SortMore.
Import models pipeline spec.



(** The sort loses nothing and adds nothing: its result is the input in
    another order, with no later result greater than an earlier one, and to
    sort a second time changes nothing. *)
Theorem sortRecommendationsByScore_idempotent (recommendations : list Recommendation) :
  sortRecommendationsByScore recommendations ≡ₚ recommendations /\
  length (sortRecommendationsByScore recommendations) = length recommendations /\
  sortRecommendationsByScore (sortRecommendationsByScore recommendations)
    = sortRecommendationsByScore recommendations.
Proof.
  destruct (sortRecommendationsByScore_sorts recommendations) as [Hperm Hsorted].
  split; [exact Hperm |]. split; [rewrite Hperm; reflexivity |].
  unfold sortRecommendationsByScore at 1.
  exact (outerLoop_sorted _ [] _ eq_refl Hsorted).
Qed.

(** The ranked results are the scored results: apart from the rank, which
    is the position counted from 1, the list handed to the store holds exactly
    the results that were scored, each as often as it was scored. *)
Theorem assignRankings_keeps_results (recommendations : list Recommendation) :
  let ranked := assignRankings (sortRecommendationsByScore recommendations) in
  (fun rec => setRanking rec 0) <$> ranked
    ≡ₚ (fun rec => setRanking rec 0) <$> recommendations /\
  forall i rec, ranked !! i = Some rec ->
    Ranking rec = (Z.of_nat i + 1)%Z /\
    exists rec0, rec0 ∈ recommendations /\ rec = setRanking rec0 (Z.of_nat i + 1).
Proof.
  cbv zeta.
  destruct (sortRecommendationsByScore_sorts recommendations) as [Hperm _].
  split.
  - assert (Heq : forall l : list Recommendation,
               (fun rec => setRanking rec 0) <$> assignRankings l
               = (fun rec => setRanking rec 0) <$> l).
    { intros l. apply list_eq. intros i.
      rewrite !list_lookup_fmap. unfold assignRankings. rewrite list_lookup_imap.
      destruct (l !! i) as [r |]; reflexivity. }
    rewrite Heq. apply fmap_Permutation. exact Hperm.
  - intros i rec Hrec. apply assignRankings_lookup in Hrec as (rec0 & Hrec0 & ->).
    split; [reflexivity |]. exists rec0. split; [| reflexivity].
    rewrite <- Hperm. eapply list_elem_of_lookup_2. exact Hrec0.
Qed.


End SortMore.

Section SortMoreExamples.
Import models pipeline spec examples.


End SortMoreExamples.

(* ===================================================================== *)
(** ** The idempotency claim: what one claim touches *)
(* ===================================================================== *)
Section ClaimMore.
Import models repository spec.

(** What one call of [Claim] does to the table.  An answer says
    AlreadyExists exactly when the composite key was there, and the id it
    returns is the one the table holds for the key afterwards; the table
    changes only at that key and only when the key was free, so a claim that
    fails or finds the key taken leaves the table as it was. *)
Theorem Claim_effect (tenantID : N) (key resourceType : string) (resourceID : N)
    (dbErr : option string) (table : gmap (N * string * string) N) :
  let k := (tenantID, key, resourceType) in
  let res := fst (Claim tenantID key resourceType resourceID dbErr table) in
  let table' := snd (Claim tenantID key resourceType resourceID dbErr table) in
  (forall k', k' <> k -> table' !! k' = table !! k') /\
  (forall r, res = Ok r ->
     table' !! k = Some (ResourceID r) /\
     (AlreadyExists r = true <-> is_Some (table !! k)) /\
     (AlreadyExists r = false -> ResourceID r = resourceID)) /\
  (is_ok res = false \/ is_Some (table !! k) -> table' = table) /\
  (is_ok res = false <-> key = ""%string \/ is_Some dbErr).
Proof.
  cbv zeta. unfold Claim.
  destruct (String.eqb_spec key "") as [Hkey | Hkey].
  { simpl. split; [reflexivity |]. split; [discriminate |].
    split; [reflexivity |]. split; auto. }
  destruct dbErr as [e |].
  { simpl. split; [reflexivity |]. split; [discriminate |].
    split; [reflexivity |]. split; eauto. }
  assert (Hok : ~ (key = ""%string \/ is_Some (@None string))).
  { intros [? | [? ?]]; [contradiction | discriminate]. }
  destruct (table !! (tenantID, key, resourceType)) as [existing |] eqn:Hl; simpl.
  - split; [reflexivity |]. split; [| split; [reflexivity |]].
    + intros r [= <-]. simpl. split; [exact Hl |].
      split; [split; eauto |]. discriminate.
    + split; [discriminate | intros H; contradiction].
  - split; [intros k' Hk'; apply lookup_insert_ne; congruence |].
    split; [| split].
    + intros r [= <-]. simpl. split; [apply lookup_insert_eq |].
      split; [| reflexivity].
      split; [discriminate | intros [x Hx]; discriminate].
    + intros [? | [x Hx]]; discriminate.
    + split; [discriminate | intros H; contradiction].
Qed.

(** Claims on different composite keys do not see each other: the answer
    to each is the same whether the other came before or not, and the table
    they leave is the same in either order.  The same key under another
    tenant or another resource type is a different composite key. *)
Theorem Claim_other_key_independent (tenant1 tenant2 : N)
    (key1 key2 type1 type2 : string) (id1 id2 : N) (err1 err2 : option string)
    (table : gmap (N * string * string) N) :
  (tenant1, key1, type1) <> (tenant2, key2, type2) ->
  let first := Claim tenant1 key1 type1 id1 err1 table in
  let second := Claim tenant2 key2 type2 id2 err2 table in
  fst (Claim tenant2 key2 type2 id2 err2 (snd first)) = fst second /\
  fst (Claim tenant1 key1 type1 id1 err1 (snd second)) = fst first /\
  snd (Claim tenant2 key2 type2 id2 err2 (snd first))
    = snd (Claim tenant1 key1 type1 id1 err1 (snd second)).
Proof.
  intros Hne. cbv zeta.
  assert (H12 : forall id, <[(tenant1, key1, type1) := id]> table !! (tenant2, key2, type2)
                           = table !! (tenant2, key2, type2))
    by (intros id; apply lookup_insert_ne; congruence).
  assert (H21 : forall id, <[(tenant2, key2, type2) := id]> table !! (tenant1, key1, type1)
                           = table !! (tenant1, key1, type1))
    by (intros id; apply lookup_insert_ne; congruence).
  unfold Claim.
  destruct (String.eqb key1 ""), (String.eqb key2 ""), err1, err2; cbn [fst snd];
    repeat first
      [ rewrite H12
      | rewrite H21
      | match goal with
        | H : table !! ?k = _ |- context [table !! ?k] => rewrite H
        end
      | match goal with
        | |- context [table !! ?k] => destruct (table !! k) eqn:?
        end
      | progress cbn [fst snd] ];
    repeat split; try reflexivity.
  apply insert_insert_ne. congruence.
Qed.

End ClaimMore.

Section ClaimMoreExamples.
Import models repository spec.

Lemma Claim_other_key_independent_witness :
  (7%N, "k1"%string, "upload"%string) <> (8%N, "k1"%string, "upload"%string) /\
  fst (Claim 8 "k1" "upload" 200 None (snd (Claim 7 "k1" "upload" 100 None ∅)))
    = fst (Claim 8 "k1" "upload" 200 None ∅) /\
  fst (Claim 7 "k1" "upload" 100 None (snd (Claim 8 "k1" "upload" 200 None ∅)))
    = fst (Claim 7 "k1" "upload" 100 None ∅) /\
  snd (Claim 8 "k1" "upload" 200 None (snd (Claim 7 "k1" "upload" 100 None ∅)))
    = snd (Claim 7 "k1" "upload" 100 None (snd (Claim 8 "k1" "upload" 200 None ∅))).
Proof.
  split; [discriminate |].
  apply (Claim_other_key_independent 7 8 "k1" "k1" "upload" "upload" 100 200 None None ∅).
  discriminate.
Defined.

End ClaimMoreExamples.

(* ===================================================================== *)
(** ** The pipeline: what every step keeps *)
(* ===================================================================== *)
Section PipelineInvariant.
Import schema models scoring repository pipeline spec.

(** A relation between worlds that every change the pipeline can make to
    the world keeps; [okResults] and [okSnapshot] are what is known of the
    results and of the snapshot that it hands to the store. *)
Variable R : World -> World -> Prop.
Variable p : Pipeline.
Variable run : ScoringRun.
Variable okResults : list Recommendation -> Prop.
Variable okSnapshot : SchemaConfigSnapshot -> Prop.

Hypothesis R_refl : forall w, R w w.
Hypothesis R_trans : forall w1 w2 w3, R w1 w2 -> R w2 w3 -> R w1 w3.
Hypothesis R_calls : forall c w, R w (set_calls (calls w ++ [c]) w).
Hypothesis R_faults : forall v w, R w (set_faults v w).
Hypothesis R_cancels : forall v w, R w (set_cancels v w).
Hypothesis R_nextUUID : forall v w, R w (set_nextUUID v w).
Hypothesis R_runSnapshotID : forall v w, R w (set_runSnapshotID v w).
Hypothesis R_snapshot : forall s w,
  okSnapshot s ->
  R w (set_schema_config_snapshots (schema_config_snapshots w ++ [s]) w).
Hypothesis R_results : forall recs w,
  okResults recs -> R w (set_recommendations (recommendations w ++ recs) w).
Hypothesis R_status : forall w row status scoredCount lastError durationMs,
  scoring_runs w !! ID run = Some row ->
  R w (set_scoring_runs
         (<[ID run := {| Status := status;
                         ScoredCount := coalesce scoredCount (ScoredCount row);
                         LastError := coalesce lastError (LastError row);
                         DurationMs := coalesce durationMs (DurationMs row);
                         Attempt := Attempt row |}]> (scoring_runs w)) w).
Hypothesis R_attempt : forall w row,
  scoring_runs w !! ID run = Some row ->
  R w (set_scoring_runs
         (<[ID run := {| Status := Status row; ScoredCount := ScoredCount row;
                         LastError := LastError row; DurationMs := DurationMs row;
                         Attempt := (Attempt row + 1)%Z |}]> (scoring_runs w)) w).
Hypothesis ok_scored : forall resolvedSchema siteRecords w,
  okResults (assignRankings (sortRecommendationsByScore
               (fst (scoreSites p run resolvedSchema [] siteRecords w)))).
Hypothesis ok_snapshot : forall snapshotID globalConfig tenantConfig resolvedSchema,
  schemaResolver p (Config globalConfig) tenantConfig = Ok resolvedSchema ->
  okSnapshot {| snapID := snapshotID; snapRunID := ID run;
                SchemaConfigID := cfgID globalConfig;
                snapUploadID := Some (UploadID run);
                snapConfig := Config globalConfig;
                SnapshotData := resolvedSchema |}.

Lemma preserves_ret {A} (a : A) : preserves R (ret a).
Proof. intros w. apply R_refl. Qed.

Lemma preserves_bind {A B} (m : M A) (k : A -> M B) :
  preserves R m -> (forall w0, preserves R (k (fst (m w0)))) ->
  preserves R (bind m k).
Proof.
  intros Hm Hk w. unfold bind. specialize (Hm w). specialize (Hk w (snd (m w))).
  destruct (m w) as [a w1]. simpl in *. eapply R_trans; eassumption.
Qed.

Lemma preserves_statement {A} (c : Call) (stmt : M (result A)) :
  preserves R stmt -> preserves R (statement c stmt).
Proof.
  intros Hstmt. unfold statement.
  apply preserves_bind; [intros w; apply R_calls |]. intros wa.
  apply preserves_bind; [intros w; apply R_faults |]. intros wb.
  destruct (fst (nextFault wb)); [apply preserves_ret | exact Hstmt].
Qed.

Lemma preserves_UpdateStatus status scoredCount lastError durationMs :
  preserves R (UpdateStatus (ID run) status scoredCount lastError durationMs).
Proof.
  unfold UpdateStatus. apply preserves_statement. intros w.
  destruct (scoring_runs w !! ID run) as [row |] eqn:Hrow; cbn [snd];
    [apply R_status, Hrow | apply R_refl].
Qed.

Lemma preserves_IncrementAttempt : preserves R (IncrementAttempt (ID run)).
Proof.
  unfold IncrementAttempt. apply preserves_statement. intros w.
  destruct (scoring_runs w !! ID run) as [row |] eqn:Hrow; cbn [snd];
    [apply R_attempt, Hrow | apply R_refl].
Qed.

Lemma preserves_handleExecutionError err :
  preserves R (handleExecutionError run err).
Proof.
  unfold handleExecutionError.
  apply preserves_bind; [apply preserves_UpdateStatus | intros ?; apply preserves_ret].
Qed.

Lemma preserves_scoreSite resolvedSchema recommendations siteRecord :
  preserves R (scoreSite p run resolvedSchema recommendations siteRecord).
Proof.
  unfold scoreSite.
  destruct (Data siteRecord) as [| | | d]; try apply preserves_ret.
  - destruct (scoreFunc p ∅ (Some resolvedSchema)) as [[[rawScore finalScore] explanation] |];
      [| apply preserves_ret].
    apply preserves_bind; [intros w; apply R_nextUUID | intros ?; apply preserves_ret].
  - destruct (scoreFunc p d (Some resolvedSchema)) as [[[rawScore finalScore] explanation] |];
      [| apply preserves_ret].
    apply preserves_bind; [intros w; apply R_nextUUID | intros ?; apply preserves_ret].
Qed.

Lemma preserves_scoreSites resolvedSchema siteRecords : forall recommendations,
  preserves R (scoreSites p run resolvedSchema recommendations siteRecords).
Proof.
  induction siteRecords as [|siteRecord rest IH]; intros recommendations;
    [apply preserves_ret |].
  cbn [scoreSites]. apply preserves_bind; [apply preserves_scoreSite |].
  intros ?. apply IH.
Qed.

Lemma preserves_BulkInsert recs :
  okResults recs -> preserves R (BulkInsert recs).
Proof.
  intros Hok. unfold BulkInsert.
  apply preserves_bind; [intros w; apply R_calls |]. intros wa.
  destruct recs as [|rec recs]; [apply preserves_ret |].
  apply preserves_bind; [intros w; apply R_faults |]. intros wb.
  destruct (fst (nextFault wb)); [apply preserves_ret |].
  intros w. apply R_results, Hok.
Qed.

(** [Execute] keeps the relation. *)
Lemma preserves_Execute : preserves R (Execute p run).
Proof.
  unfold Execute.
  apply preserves_bind; [apply preserves_UpdateStatus |]. intros w1.
  destruct (fst (UpdateStatus (ID run) "running" None None None w1)) as [_ | err];
    [| apply preserves_handleExecutionError].
  apply preserves_bind; [apply preserves_statement; intros w; apply R_refl |]. intros w2.
  destruct (fst (GetGlobalActive w2)) as [[globalConfig |] | err];
    try apply preserves_handleExecutionError.
  apply preserves_bind; [apply preserves_statement; intros w; apply R_refl |]. intros w3.
  destruct (fst (GetTenantActive (TenantID run) w3)) as [tenantConfig | err];
    [| apply preserves_handleExecutionError].
  cbv zeta.
  destruct (schemaResolver p (Config globalConfig) _) as [resolvedSchema | err] eqn:Hresolve;
    [| apply preserves_handleExecutionError].
  apply preserves_bind; [intros w; apply R_nextUUID |]. intros w4.
  apply preserves_bind.
  { apply preserves_statement. intros w. apply R_snapshot.
    eapply ok_snapshot. exact Hresolve. }
  intros w5. destruct (fst (CreateSnapshot _ w5)) as [_ | err];
    [| apply preserves_handleExecutionError].
  apply preserves_bind; [intros w; apply R_runSnapshotID |]. intros ?.
  apply preserves_bind; [apply preserves_statement; intros w; apply R_refl |]. intros w7.
  destruct (fst (GetByUpload (UploadID run) w7)) as [siteRecords | err];
    [| apply preserves_handleExecutionError].
  destruct (Nat.eqb (length siteRecords) 0).
  - apply preserves_bind; [intros w; apply R_refl |]. intros ?.
    apply preserves_bind; [apply preserves_UpdateStatus |]. intros ?.
    apply preserves_ret.
  - apply preserves_bind; [apply preserves_scoreSites |]. intros w8.
    apply preserves_bind; [apply preserves_BulkInsert, ok_scored |]. intros w9.
    destruct (fst (BulkInsert _ w9)) as [_ | err];
      [| apply preserves_handleExecutionError].
    apply preserves_bind; [intros w; apply R_refl |]. intros ?.
    apply preserves_bind; [apply preserves_UpdateStatus |]. intros w10.
    destruct (fst (UpdateStatus _ _ _ _ _ w10)); apply preserves_ret.
Qed.

Lemma preserves_retryLoop fuel : forall attempt lastErr,
  preserves R (retryLoop p run fuel attempt lastErr).
Proof.
  induction fuel as [|fuel IH]; intros attempt lastErr; [apply preserves_ret |].
  cbn [retryLoop]. destruct (attempt <=? maxRetries p)%Z; [| apply preserves_ret].
  apply preserves_bind; [apply preserves_IncrementAttempt |]. intros ?.
  apply preserves_bind; [apply preserves_Execute |]. intros w1.
  destruct (fst (Execute p run w1)) as [e |]; [| apply preserves_ret].
  destruct (attempt >=? maxRetries p)%Z; [apply preserves_ret |].
  apply preserves_bind; [intros w; apply R_cancels |]. intros w2.
  destruct (fst (waitBackoff w2)); [apply preserves_ret | apply IH].
Qed.

(** [ExecuteWithRetry] keeps the relation. *)
Lemma preserves_ExecuteWithRetry : preserves R (ExecuteWithRetry p run).
Proof.
  unfold ExecuteWithRetry.
  apply preserves_bind; [apply preserves_retryLoop |]. intros w1.
  destruct (fst (retryLoop p run _ 0 None w1)) as [res | lastErr];
    [apply preserves_ret |].
  cbv zeta. apply preserves_bind; [apply preserves_UpdateStatus |]. intros ?.
  apply preserves_ret.
Qed.

End PipelineInvariant.

(* ===================================================================== *)
(** ** The pipeline: what a run with retries leaves alone *)
(* ===================================================================== *)
Section PipelineFrame.
Import schema models scoring repository pipeline spec.

Lemma touchesOnly_refl runID w : touchesOnly runID w w.
Proof. unfold touchesOnly. repeat split; auto. Qed.

Lemma touchesOnly_trans runID w1 w2 w3 :
  touchesOnly runID w1 w2 -> touchesOnly runID w2 w3 -> touchesOnly runID w1 w3.
Proof.
  intros (Hg & Ht & Hs & Hother & Hdom & Hr & Hsn & Hc)
         (Hg' & Ht' & Hs' & Hother' & Hdom' & Hr' & Hsn' & Hc').
  unfold touchesOnly. repeat split; try congruence.
  - intros id Hid. rewrite Hother', Hother by exact Hid. reflexivity.
  - intros H. apply Hdom, Hdom', H.
  - intros H. apply Hdom', Hdom, H.
  - etransitivity; eassumption.
  - etransitivity; eassumption.
  - etransitivity; eassumption.
Qed.

(** The row of one run is rewritten: the other rows stay, and no row
    appears or disappears. *)
Lemma touchesOnly_row runID w row row' :
  scoring_runs w !! runID = Some row ->
  touchesOnly runID w (set_scoring_runs (<[runID := row']> (scoring_runs w)) w).
Proof.
  intros Hrow. unfold touchesOnly. world_simpl. repeat split; auto.
  - intros id Hid. apply lookup_insert_ne. congruence.
  - destruct (decide (id = runID)) as [-> | Hid]; [rewrite Hrow; eauto |].
    rewrite lookup_insert_ne by congruence. auto.
  - destruct (decide (id = runID)) as [-> | Hid]; [rewrite lookup_insert_eq; eauto |].
    rewrite lookup_insert_ne by congruence. auto.
Qed.

Lemma rowGrows_refl row : rowGrows row row.
Proof. unfold rowGrows. repeat split; auto. lia. Qed.

Lemma rowGrows_trans row1 row2 row3 :
  rowGrows row1 row2 -> rowGrows row2 row3 -> rowGrows row1 row3.
Proof.
  intros (Hs & Hl & Hd & Ha) (Hs' & Hl' & Hd' & Ha').
  unfold rowGrows. repeat split; auto. lia.
Qed.

Lemma coalesce_keeps {A} (new old : option A) : is_Some old -> is_Some (coalesce new old).
Proof. destruct new; simpl; eauto. Qed.

Lemma runRowGrows_refl runID w : runRowGrows runID w w.
Proof. intros row Hrow. exists row. split; [exact Hrow | apply rowGrows_refl]. Qed.

Lemma runRowGrows_trans runID w1 w2 w3 :
  runRowGrows runID w1 w2 -> runRowGrows runID w2 w3 -> runRowGrows runID w1 w3.
Proof.
  intros H12 H23 row1 Hrow1.
  destruct (H12 row1 Hrow1) as (row2 & Hrow2 & Hg12).
  destruct (H23 row2 Hrow2) as (row3 & Hrow3 & Hg23).
  exists row3. split; [exact Hrow3 | eapply rowGrows_trans; eassumption].
Qed.

(** The same rows, as after every step that does not write [scoring_runs]. *)
Lemma runRowGrows_same runID w w' :
  scoring_runs w' = scoring_runs w -> runRowGrows runID w w'.
Proof.
  intros Heq row Hrow. exists row. rewrite Heq. split; [exact Hrow | apply rowGrows_refl].
Qed.

Lemma runRowGrows_row runID w row row' :
  scoring_runs w !! runID = Some row -> rowGrows row row' ->
  runRowGrows runID w (set_scoring_runs (<[runID := row']> (scoring_runs w)) w).
Proof.
  intros Hrow Hg row0 Hrow0. exists row'. world_simpl.
  split; [apply lookup_insert_eq |]. congruence.
Qed.






(** Whatever the store does and however the retries go, [ExecuteWithRetry]
    writes nothing but the row of its own run and what it appends: the
    configurations and the site records are the same, every other row of
    [scoring_runs] is the same, no row is created or deleted, and the
    persisted results, the snapshots and the log of calls keep what they held
    and grow at the end only. *)
Theorem ExecuteWithRetry_touches_only_its_run (p : Pipeline) (run : ScoringRun)
    (w : World) :
  let w' := snd (ExecuteWithRetry p run w) in
  global_config w' = global_config w /\
  tenant_configs w' = tenant_configs w /\
  site_records w' = site_records w /\
  (forall id, id <> ID run -> scoring_runs w' !! id = scoring_runs w !! id) /\
  (forall id, is_Some (scoring_runs w' !! id) <-> is_Some (scoring_runs w !! id)) /\
  recommendations w `prefix_of` recommendations w' /\
  schema_config_snapshots w `prefix_of` schema_config_snapshots w' /\
  calls w `prefix_of` calls w'.
Proof.
  apply (preserves_ExecuteWithRetry (touchesOnly (ID run)) p run
           (fun _ => True) (fun _ => True)); auto.
  - apply touchesOnly_refl.
  - apply touchesOnly_trans.
  - intros c w0. unfold touchesOnly. world_simpl.
    repeat split; auto; try reflexivity. apply prefix_app_r. reflexivity.
  - intros v w0. unfold touchesOnly. world_simpl. repeat split; auto.
  - intros v w0. unfold touchesOnly. world_simpl. repeat split; auto.
  - intros v w0. unfold touchesOnly. world_simpl. repeat split; auto.
  - intros v w0. unfold touchesOnly. world_simpl. repeat split; auto.
  - intros s w0 _. unfold touchesOnly. world_simpl.
    repeat split; auto; try reflexivity. apply prefix_app_r. reflexivity.
  - intros recs w0 _. unfold touchesOnly. world_simpl.
    repeat split; auto; try reflexivity. apply prefix_app_r. reflexivity.
  - intros w0 row status scoredCount lastError durationMs Hrow.
    apply touchesOnly_row with (row := row). exact Hrow.
  - intros w0 row Hrow. apply touchesOnly_row with (row := row). exact Hrow.
Qed.

(** The row of the run only gains.  After [ExecuteWithRetry], whatever its
    outcome, the row is still there, no column among scored_count,
    last_error and duration_ms that held a value is empty, so that a run that
    succeeds after a failed attempt keeps the error of that attempt, and the
    attempt counter is not smaller.  One [Execute] leaves the attempt counter
    as it is. *)
Theorem ExecuteWithRetry_row_only_gains (p : Pipeline) (run : ScoringRun)
    (w : World) (row : RunRow) :
  scoring_runs w !! ID run = Some row ->
  (exists row',
     scoring_runs (snd (ExecuteWithRetry p run w)) !! ID run = Some row' /\
     (is_Some (ScoredCount row) -> is_Some (ScoredCount row')) /\
     (is_Some (LastError row) -> is_Some (LastError row')) /\
     (is_Some (DurationMs row) -> is_Some (DurationMs row')) /\
     (Attempt row <= Attempt row')%Z) /\
  (exists row1,
     scoring_runs (snd (Execute p run w)) !! ID run = Some row1 /\
     Attempt row1 = Attempt row).
Proof.
  intros Hrow. split.
  - assert (H : runRowGrows (ID run) w (snd (ExecuteWithRetry p run w))).
    { apply (preserves_ExecuteWithRetry (runRowGrows (ID run)) p run
               (fun _ => True) (fun _ => True)); auto.
      - apply runRowGrows_refl.
      - apply runRowGrows_trans.
      - intros c w0. apply runRowGrows_same. reflexivity.
      - intros v w0. apply runRowGrows_same. reflexivity.
      - intros v w0. apply runRowGrows_same. reflexivity.
      - intros v w0. apply runRowGrows_same. reflexivity.
      - intros v w0. apply runRowGrows_same. reflexivity.
      - intros s w0 _. apply runRowGrows_same. reflexivity.
      - intros recs w0 _. apply runRowGrows_same. reflexivity.
      - intros w0 row0 status scoredCount lastError durationMs Hrow0.
        apply runRowGrows_row with (row := row0); [exact Hrow0 |].
        unfold rowGrows. cbn [ScoredCount LastError DurationMs Attempt].
        repeat split; try apply coalesce_keeps. lia.
      - intros w0 row0 Hrow0.
        apply runRowGrows_row with (row := row0); [exact Hrow0 |].
        unfold rowGrows. cbn [ScoredCount LastError DurationMs Attempt].
        repeat split; auto. lia. }
    exact (H row Hrow).
  - set (same := fun w0 w1 : World =>
                   forall row0, scoring_runs w0 !! ID run = Some row0 ->
                     exists row1, scoring_runs w1 !! ID run = Some row1 /\
                       Attempt row1 = Attempt row0).
    assert (Hsame : forall w0 w1, scoring_runs w1 = scoring_runs w0 -> same w0 w1).
    { intros w0 w1 Heq row0 Hrow0. exists row0. rewrite Heq. auto. }
    assert (H : same w (snd (Execute p run w))).
    { apply (preserves_Execute same p run (fun _ => True) (fun _ => True)); auto.
      - intros w1 w2 w3 H12 H23 row1 Hrow1.
        destruct (H12 row1 Hrow1) as (row2 & Hrow2 & Ha2).
        destruct (H23 row2 Hrow2) as (row3 & Hrow3 & Ha3).
        exists row3. split; [exact Hrow3 | congruence].
      - intros w0 row0 status scoredCount lastError durationMs Hrow0 row1 Hrow1.
        eexists. world_simpl. split; [apply lookup_insert_eq |].
        cbn [Attempt]. congruence. }
    exact (H row Hrow).
Qed.


End PipelineFrame.

Section PipelineFrameExamples.
Import schema models scoring repository pipeline spec examples.

Lemma ExecuteWithRetry_row_only_gains_witness :
  scoring_runs unconfiguredWorld !! ID sampleRun = Some queuedRow /\
  (exists row',
     scoring_runs (snd (ExecuteWithRetry samplePipeline sampleRun unconfiguredWorld))
       !! ID sampleRun = Some row' /\
     (is_Some (ScoredCount queuedRow) -> is_Some (ScoredCount row')) /\
     (is_Some (LastError queuedRow) -> is_Some (LastError row')) /\
     (is_Some (DurationMs queuedRow) -> is_Some (DurationMs row')) /\
     (Attempt queuedRow <= Attempt row')%Z) /\
  (exists row1,
     scoring_runs (snd (Execute samplePipeline sampleRun unconfiguredWorld))
       !! ID sampleRun = Some row1 /\
     Attempt row1 = Attempt queuedRow).
Proof.
  assert (H : scoring_runs unconfiguredWorld !! ID sampleRun = Some queuedRow)
    by (vm_compute; reflexivity).
  split; [exact H |].
  exact (ExecuteWithRetry_row_only_gains samplePipeline sampleRun unconfiguredWorld
           queuedRow H).
Defined.

End PipelineFrameExamples.

(* ===================================================================== *)
(** ** The pipeline: how one [Execute] reports its outcome *)
(* ===================================================================== *)
Section ExecuteOutcome.
Import schema models scoring repository pipeline spec.

Lemma calls_GetGlobalActive w :
  calls (snd (GetGlobalActive w)) = calls w ++ [CallGetGlobalActive].
Proof. unfold GetGlobalActive. apply statement_calls. reflexivity. Qed.

Lemma calls_GetTenantActive tenantID w :
  calls (snd (GetTenantActive tenantID w)) = calls w ++ [CallGetTenantActive tenantID].
Proof. unfold GetTenantActive. apply statement_calls. reflexivity. Qed.

Lemma calls_CreateSnapshot snapshot w :
  calls (snd (CreateSnapshot snapshot w)) = calls w ++ [CallCreateSnapshot snapshot].
Proof. unfold CreateSnapshot. apply statement_calls. reflexivity. Qed.

Lemma calls_GetByUpload uploadID w :
  calls (snd (GetByUpload uploadID w)) = calls w ++ [CallGetByUpload uploadID].
Proof. unfold GetByUpload. apply statement_calls. reflexivity. Qed.

Lemma calls_BulkInsert recs w :
  calls (snd (BulkInsert recs w)) = calls w ++ [CallBulkInsert recs].
Proof.
  unfold BulkInsert, bind, recordCall, nextFault.
  destruct recs as [|rec recs]; [reflexivity |]. world_simpl.
  destruct (mjoin (head (faults w))); reflexivity.
Qed.

Lemma calls_scoreSites p run resolvedSchema siteRecords : forall recommendations w,
  calls (snd (scoreSites p run resolvedSchema recommendations siteRecords w)) = calls w.
Proof.
  induction siteRecords as [|siteRecord rest IH]; intros recommendations w;
    [reflexivity |].
  cbn [scoreSites]. rewrite bind_run, IH. unfold scoreSite.
  destruct (Data siteRecord) as [| | | d]; try reflexivity.
  - destruct (scoreFunc p ∅ (Some resolvedSchema)) as [[[rawScore finalScore] explanation] |];
      reflexivity.
  - destruct (scoreFunc p d (Some resolvedSchema)) as [[[rawScore finalScore] explanation] |];
      reflexivity.
Qed.

(** Every [Execute] opens with the request to mark the run running and
    closes with a request to mark it succeeded or failed, and sends no status
    update in between.  It returns nil only after the request for succeeded.
    When it returns an error, the closing request is for failed and carries
    that error as last_error, except when the error is that of the closing
    request for succeeded itself. *)
Theorem Execute_status_protocol (p : Pipeline) (run : ScoringRun) (w : World) :
  exists mid final,
    calls (snd (Execute p run w))
      = calls w ++ CallUpdateStatus (ID run) "running" None None None :: mid ++ [final] /\
    Forall (fun c => isUpdateStatus c = false) mid /\
    match fst (Execute p run w) with
    | None =>
        exists n d, final = CallUpdateStatus (ID run) "succeeded" (Some n) None (Some d)
    | Some e =>
        final = CallUpdateStatus (ID run) "failed" None (Some e) None \/
        exists n d, final = CallUpdateStatus (ID run) "succeeded" (Some n) None (Some d)
    end.
Proof.
  set (running := CallUpdateStatus (ID run) "running" None None None).
  set (T := fun (res : option string) (w' : World) =>
              exists mid final,
                calls w' = calls w ++ running :: mid ++ [final] /\
                Forall (fun c => isUpdateStatus c = false) mid /\
                match res with
                | None =>
                    exists n d,
                      final = CallUpdateStatus (ID run) "succeeded" (Some n) None (Some d)
                | Some e =>
                    final = CallUpdateStatus (ID run) "failed" None (Some e) None \/
                    exists n d,
                      final = CallUpdateStatus (ID run) "succeeded" (Some n) None (Some d)
                end).
  change (post (Execute p run) w T).
  assert (Hfail : forall err wi mid,
            calls wi = calls w ++ running :: mid ->
            Forall (fun c => isUpdateStatus c = false) mid ->
            post (handleExecutionError run err) wi T).
  { intros err wi mid Hi Hq. unfold handleExecutionError. apply post_bind.
    unfold post at 1.
    pose proof (calls_UpdateStatus (ID run) "failed" None (Some err) None wi) as Hc.
    destruct (UpdateStatus (ID run) "failed" None (Some err) None wi) as [r wj].
    cbn [fst snd] in *. unfold post, ret. cbn [fst snd].
    exists mid, (CallUpdateStatus (ID run) "failed" None (Some err) None).
    rewrite Hc, Hi, <- app_assoc. split; [reflexivity |]. split; [exact Hq | auto]. }
  assert (Hdone : forall n d wi mid,
            calls wi = calls w ++ running :: mid ->
            Forall (fun c => isUpdateStatus c = false) mid ->
            forall res,
              calls (snd (UpdateStatus (ID run) "succeeded" (Some n) None (Some d) wi))
                = calls wi ++ [CallUpdateStatus (ID run) "succeeded" (Some n) None (Some d)] ->
              T res (snd (UpdateStatus (ID run) "succeeded" (Some n) None (Some d) wi))).
  { intros n d wi mid Hi Hq res Hc.
    exists mid, (CallUpdateStatus (ID run) "succeeded" (Some n) None (Some d)).
    rewrite Hc, Hi, <- app_assoc. split; [reflexivity |]. split; [exact Hq |].
    destruct res; eauto. }
  assert (Hstep : forall wi wj mid c,
            calls wi = calls w ++ running :: mid ->
            Forall (fun c => isUpdateStatus c = false) mid ->
            calls wj = calls wi ++ [c] -> isUpdateStatus c = false ->
            calls wj = calls w ++ running :: (mid ++ [c]) /\
            Forall (fun c => isUpdateStatus c = false) (mid ++ [c])).
  { intros wi wj mid c Hi Hq Hc Hquiet. split.
    - rewrite Hc, Hi, <- app_assoc. reflexivity.
    - apply Forall_app. split; [exact Hq |]. constructor; [exact Hquiet | constructor]. }
  unfold Execute.
  (* Step a *)
  apply post_bind. unfold post at 1.
  pose proof (calls_UpdateStatus (ID run) "running" None None None w) as H1.
  destruct (UpdateStatus (ID run) "running" None None None w) as [r1 w1].
  cbn [fst snd] in *.
  assert (Hq1 : Forall (fun c => isUpdateStatus c = false) []) by constructor.
  destruct r1 as [[] | err]; [| exact (Hfail err w1 [] H1 Hq1)].
  (* Step b *)
  apply post_bind. unfold post at 1.
  pose proof (calls_GetGlobalActive w1) as Hc2.
  destruct (GetGlobalActive w1) as [r2 w2]. cbn [fst snd] in *.
  destruct (Hstep w1 w2 [] _ H1 Hq1 Hc2 eq_refl) as [H2 Hq2].
  destruct r2 as [[globalConfig |] | err]; try exact (Hfail _ w2 _ H2 Hq2).
  apply post_bind. unfold post at 1.
  pose proof (calls_GetTenantActive (TenantID run) w2) as Hc3.
  destruct (GetTenantActive (TenantID run) w2) as [r3 w3]. cbn [fst snd] in *.
  destruct (Hstep w2 w3 _ _ H2 Hq2 Hc3 eq_refl) as [H3 Hq3].
  destruct r3 as [tenantConfig | err]; [| exact (Hfail _ w3 _ H3 Hq3)].
  cbv zeta.
  destruct (schemaResolver p (Config globalConfig) _) as [resolvedSchema | err];
    [| exact (Hfail _ w3 _ H3 Hq3)].
  (* Step c *)
  apply post_bind. unfold post at 1.
  assert (H4 : calls (snd (newUUID w3)) = calls w ++ running :: ([] ++ [CallGetGlobalActive]) ++ [CallGetTenantActive (TenantID run)])
    by exact H3.
  destruct (newUUID w3) as [snapshotID w4]. cbn [fst snd] in *.
  apply post_bind. unfold post at 1.
  match goal with
  | |- context [CreateSnapshot ?s w4] =>
      pose proof (calls_CreateSnapshot s w4) as Hc5;
      destruct (CreateSnapshot s w4) as [r5 w5]
  end.
  cbn [fst snd] in *.
  destruct (Hstep w4 w5 _ _ H4 Hq3 Hc5 eq_refl) as [H5 Hq5].
  destruct r5 as [[] | err]; [| exact (Hfail _ w5 _ H5 Hq5)].
  apply post_bind. unfold post at 1.
  assert (H6 : calls (snd (setSnapshotID snapshotID w5)) = calls w5) by reflexivity.
  destruct (setSnapshotID snapshotID w5) as [[] w6]. cbn [fst snd] in *.
  rewrite <- H6 in H5.
  (* Step d *)
  apply post_bind. unfold post at 1.
  pose proof (calls_GetByUpload (UploadID run) w6) as Hc7.
  destruct (GetByUpload (UploadID run) w6) as [r7 w7]. cbn [fst snd] in *.
  destruct (Hstep w6 w7 _ _ H5 Hq5 Hc7 eq_refl) as [H7 Hq7].
  destruct r7 as [siteRecords | err]; [| exact (Hfail _ w7 _ H7 Hq7)].
  destruct (Nat.eqb (length siteRecords) 0).
  - apply post_bind. unfold post at 1. cbn [sinceStart fst snd].
    apply post_bind. unfold post at 1. unfold post, ret. cbn [fst snd].
    eapply Hdone; [exact H7 | exact Hq7 | apply calls_UpdateStatus].
  - (* Steps e to h *)
    apply post_bind. unfold post at 1.
    pose proof (calls_scoreSites p run resolvedSchema siteRecords [] w7) as Hc8.
    destruct (scoreSites p run resolvedSchema [] siteRecords w7) as [scored w8].
    cbn [fst snd] in *. rewrite <- Hc8 in H7.
    apply post_bind. unfold post at 1.
    pose proof (calls_BulkInsert (assignRankings (sortRecommendationsByScore scored)) w8)
      as Hc9.
    destruct (BulkInsert (assignRankings (sortRecommendationsByScore scored)) w8)
      as [r9 w9].
    cbn [fst snd] in *.
    destruct (Hstep w8 w9 _ _ H7 Hq7 Hc9 eq_refl) as [H9 Hq9].
    destruct r9 as [[] | err]; [| exact (Hfail _ w9 _ H9 Hq9)].
    apply post_bind. unfold post at 1. cbn [sinceStart fst snd].
    apply post_bind. unfold post at 1.
    pose proof (Hdone (Z.of_nat (length (assignRankings (sortRecommendationsByScore scored))))
                  (elapsedMs w9) w9 _ H9 Hq9) as Hfinal.
    pose proof (calls_UpdateStatus (ID run) "succeeded"
                  (Some (Z.of_nat (length (assignRankings (sortRecommendationsByScore scored)))))
                  None (Some (elapsedMs w9)) w9) as Hc10.
    destruct (UpdateStatus (ID run) "succeeded" _ None (Some (elapsedMs w9)) w9)
      as [r10 w10].
    cbn [fst snd] in *.
    destruct r10 as [[] | err]; unfold post, ret; cbn [fst snd]; apply Hfinal, Hc10.
Qed.

End ExecuteOutcome.

(* ===================================================================== *)
(** ** The pipeline: when [Execute] succeeds, and what it has recorded then *)
(* ===================================================================== *)
Section ExecuteSuccess.
Import schema models scoring repository pipeline spec.

Lemma handleExecutionError_fst run err w :
  fst (handleExecutionError run err w) = Some err.
Proof.
  unfold handleExecutionError. rewrite bind_run. reflexivity.
Qed.

(** The scoring loop draws ids and changes nothing else in the world. *)
Lemma scoreSites_world p run resolvedSchema siteRecords : forall recommendations w,
  exists n,
    snd (scoreSites p run resolvedSchema recommendations siteRecords w) = set_nextUUID n w.
Proof.
  induction siteRecords as [|siteRecord rest IH]; intros recommendations w.
  - exists (nextUUID w). destruct w. reflexivity.
  - cbn [scoreSites]. rewrite bind_run.
    destruct (IH (fst (scoreSite p run resolvedSchema recommendations siteRecord w))
                 (snd (scoreSite p run resolvedSchema recommendations siteRecord w)))
      as [n Hn].
    exists n. rewrite Hn. unfold scoreSite.
    destruct (Data siteRecord) as [| | | d]; try reflexivity.
    + destruct (scoreFunc p ∅ (Some resolvedSchema))
        as [[[rawScore finalScore] explanation] |]; reflexivity.
    + destruct (scoreFunc p d (Some resolvedSchema))
        as [[[rawScore finalScore] explanation] |]; reflexivity.
Qed.

(** [Execute] succeeds whenever the store answers and the configuration
    resolves.  When the store answers the seven statements that [Execute] can
    send, the run has a row, there is an active global configuration and it
    resolves with the tenant's, then [Execute] returns nil, whatever the site
    records hold: a record that does not parse or cannot be scored is left
    out and does not fail the run. *)
Theorem Execute_succeeds (p : Pipeline) (run : ScoringRun) (w : World) (row : RunRow)
    (globalConfig : SchemaConfig GlobalSchemaConfig) (resolvedSchema : ResolvedSchema) :
  Forall (fun f => f = None) (take 7 (faults w)) ->
  scoring_runs w !! ID run = Some row ->
  global_config w = Some globalConfig ->
  schemaResolver p (Config globalConfig) (tenantBytes run w) = Ok resolvedSchema ->
  fst (Execute p run w) = None.
Proof.
  intros Hf Hrow Hgc Hres.
  destruct w as [runs gc tcs snaps srs recs fs nc nu el cs rsid]. world_simpl.
  apply noFault_step in Hf as [Hf1 Hf]. apply noFault_step in Hf as [Hf2 Hf].
  apply noFault_step in Hf as [Hf3 Hf]. apply noFault_step in Hf as [Hf4 Hf].
  apply noFault_step in Hf as [Hf5 Hf]. apply noFault_step in Hf as [Hf6 Hf].
  apply noFault_step in Hf as [Hf7 _].
  unfold tenantBytes in Hres. world_simpl.
  unfold Execute. unfold bind at 1. unfold UpdateStatus at 1.
  rewrite statement_ok by exact Hf1. world_simpl. rewrite Hrow.
  unfold bind at 1. unfold GetGlobalActive.
  rewrite statement_ok by exact Hf2. world_simpl. rewrite Hgc.
  unfold bind at 1. unfold GetTenantActive.
  rewrite statement_ok by exact Hf3. world_simpl.
  rewrite Hres.
  unfold bind at 1. world_simpl. unfold bind at 1. unfold CreateSnapshot.
  rewrite statement_ok by exact Hf4. world_simpl.
  unfold bind at 1. world_simpl. unfold bind at 1. unfold GetByUpload.
  rewrite statement_ok by exact Hf5. world_simpl.
  destruct (default [] (srs !! UploadID run)) as [|siteRecord siteRecords].
  - world_simpl. unfold bind at 1. world_simpl. rewrite bind_run. reflexivity.
  - world_simpl. unfold bind at 1.
    match goal with
    | |- context [scoreSites p run resolvedSchema [] ?l ?w0] =>
        destruct (scoreSites_world p run resolvedSchema l [] w0) as [n Hn];
        destruct (scoreSites p run resolvedSchema [] l w0) as [scored w8]
    end.
    cbn [snd] in Hn. subst w8. world_simpl.
    unfold bind at 1. unfold BulkInsert. unfold bind at 1. unfold recordCall.
    world_simpl.
    destruct (assignRankings (sortRecommendationsByScore scored)) as [|rec ranked].
    + world_simpl. unfold bind at 1. world_simpl. unfold bind at 1.
      unfold UpdateStatus. rewrite statement_ok by exact Hf6. world_simpl.
      rewrite lookup_insert_eq. reflexivity.
    + unfold bind at 1. unfold nextFault. world_simpl. rewrite Hf6.
      unfold bind at 1. world_simpl. unfold bind at 1.
      unfold UpdateStatus. rewrite statement_ok by exact Hf7. world_simpl.
      rewrite lookup_insert_eq. reflexivity.
Qed.

(** The next statement of the goal: the store fails it or runs it. *)
Ltac step_statement :=
  match goal with
  | |- context [statement ?c ?stmt ?W] =>
      let e := fresh "e" in
      let Hf := fresh "Hf" in
      destruct (mjoin (head (faults W))) as [e |] eqn:Hf;
      [ rewrite (statement_fault c stmt W e Hf)
      | rewrite (statement_ok c stmt W Hf) ]
  end.

(** The goal is about an [Execute] that failed and yet returned nil. *)
Ltac failed_branch :=
  world_simpl;
  match goal with
  | |- context [handleExecutionError ?run ?err ?W] =>
      let res := fresh "res" in
      let w' := fresh "w'" in
      let Hh := fresh "Hh" in
      pose proof (handleExecutionError_fst run err W) as Hh;
      destruct (handleExecutionError run err W) as [res w'];
      cbn [fst] in Hh; subst res; intros; discriminate
  end.

(** When [Execute] returns nil for an upload that has site records, the
    store holds the outcome: the row of the run says succeeded, with the
    number of results that this call added to the persisted ones as
    scored_count and the time taken as duration_ms, and with the last_error
    and the attempt counter that it had; one snapshot was added, under the id
    that the run in memory now names. *)
Theorem Execute_success_is_recorded (p : Pipeline) (run : ScoringRun) (w : World) :
  fst (Execute p run w) = None ->
  default [] (site_records w !! UploadID run) <> [] ->
  exists row batch snap,
    scoring_runs w !! ID run = Some row /\
    scoring_runs (snd (Execute p run w)) !! ID run =
      Some {| Status := "succeeded";
              ScoredCount := Some (Z.of_nat (length batch));
              LastError := LastError row;
              DurationMs := Some (elapsedMs w);
              Attempt := Attempt row |} /\
    recommendations (snd (Execute p run w)) = recommendations w ++ batch /\
    schema_config_snapshots (snd (Execute p run w)) = schema_config_snapshots w ++ [snap] /\
    snapID snap = nextUUID w /\ snapRunID snap = ID run /\
    runSnapshotID (snd (Execute p run w)) = Some (nextUUID w).
Proof.
  intros Hnone Hsites.
  destruct w as [runs gc tcs snaps srs recs fs nc nu el cs rsid]. world_simpl.
  set (Q := fun w' : World =>
              exists row batch snap,
                runs !! ID run = Some row /\
                scoring_runs w' !! ID run =
                  Some {| Status := "succeeded";
                          ScoredCount := Some (Z.of_nat (length batch));
                          LastError := LastError row;
                          DurationMs := Some el;
                          Attempt := Attempt row |} /\
                recommendations w' = recs ++ batch /\
                schema_config_snapshots w' = snaps ++ [snap] /\
                snapID snap = nu /\ snapRunID snap = ID run /\
                runSnapshotID w' = Some nu).
  enough (Hpost : let (res, w') :=
                    Execute p run
                      {| scoring_runs := runs; global_config := gc; tenant_configs := tcs;
                         schema_config_snapshots := snaps; site_records := srs;
                         recommendations := recs; faults := fs; cancels := nc;
                         nextUUID := nu; elapsedMs := el; calls := cs;
                         runSnapshotID := rsid |} in
                  res = None -> Q w').
  { destruct (Execute p run _) as [res w']. cbn [fst snd] in *. exact (Hpost Hnone). }
  clear Hnone.
  unfold Execute.
  (* Step a *)
  unfold bind at 1. unfold UpdateStatus at 1.
  step_statement; [failed_branch |]. world_simpl.
  destruct (runs !! ID run) as [row |] eqn:Hrow; [| failed_branch].
  (* Step b *)
  unfold bind at 1. unfold GetGlobalActive.
  step_statement; [failed_branch |]. world_simpl.
  destruct gc as [globalConfig |]; [| failed_branch].
  unfold bind at 1. unfold GetTenantActive.
  step_statement; [failed_branch |]. world_simpl.
  destruct (schemaResolver p (Config globalConfig) _) as [resolvedSchema | err];
    [| failed_branch].
  (* Step c *)
  unfold bind at 1. world_simpl.
  unfold bind at 1. unfold CreateSnapshot.
  step_statement; [failed_branch |]. world_simpl.
  (* Step d *)
  unfold bind at 1. world_simpl.
  unfold bind at 1. unfold GetByUpload.
  step_statement; [failed_branch |]. world_simpl.
  destruct (default [] (srs !! UploadID run)) as [|siteRecord siteRecords];
    [contradiction |].
  world_simpl.
  (* Steps e and f *)
  unfold bind at 1.
  match goal with
  | |- context [scoreSites p run resolvedSchema [] ?l ?w0] =>
      destruct (scoreSites_world p run resolvedSchema l [] w0) as [n Hn];
      destruct (scoreSites p run resolvedSchema [] l w0) as [scored w8]
  end.
  cbn [snd] in Hn. subst w8. world_simpl.
  (* Step g *)
  unfold bind at 1. unfold BulkInsert.
  unfold bind at 1. unfold recordCall. world_simpl.
  set (ranked := assignRankings (sortRecommendationsByScore scored)).
  assert (Hfinal : forall W batch,
            scoring_runs W !! ID run
              = Some {| Status := "running";
                        ScoredCount := ScoredCount row;
                        LastError := LastError row;
                        DurationMs := DurationMs row;
                        Attempt := Attempt row |} ->
            elapsedMs W = el ->
            recommendations W = recs ++ batch ->
            (exists snap, schema_config_snapshots W = snaps ++ [snap] /\
               snapID snap = nu /\ snapRunID snap = ID run) ->
            runSnapshotID W = Some nu ->
            let (res, w') :=
              (let* completeDuration := sinceStart in
               let* r := UpdateStatus (ID run) "succeeded"
                           (Some (Z.of_nat (length batch))) None (Some completeDuration) in
               match r with
               | Ok _ => ret None
               | Err err => ret (Some err)
               end) W in
            res = None -> Q w').
  { intros W batch HWrow HWel HWrecs (snap & HWsnaps & Hsnap1 & Hsnap2) HWid.
    unfold bind at 1. cbn [sinceStart]. unfold bind at 1. unfold UpdateStatus.
    step_statement; [cbn [ret]; intros; discriminate |]. world_simpl.
    rewrite HWrow. cbn [ret]. intros _.
    exists row, batch, snap. split; [reflexivity |]. world_simpl.
    split; [rewrite lookup_insert_eq, HWel; reflexivity |].
    repeat split; assumption. }
  destruct ranked as [|rec ranked'] eqn:Hranked.
  - world_simpl. apply (Hfinal _ []); world_simpl.
    + apply lookup_insert_eq.
    + reflexivity.
    + rewrite app_nil_r. reflexivity.
    + eexists. repeat split.
    + reflexivity.
  - unfold bind at 1. unfold nextFault. world_simpl.
    match goal with
    | |- context [match mjoin (head ?l) with Some _ => _ | None => _ end] =>
        destruct (mjoin (head l)) as [e |]
    end; [failed_branch |].
    apply (Hfinal _ (rec :: ranked')); world_simpl.
    + apply lookup_insert_eq.
    + reflexivity.
    + reflexivity.
    + eexists. repeat split.
    + reflexivity.
Qed.

End ExecuteSuccess.

Section ExecuteSuccessExamples.
Import schema models scoring repository pipeline spec examples.

Lemma Execute_succeeds_witness :
  Forall (fun f : option string => f = None) (take 7 (faults tiedWorld)) /\
  scoring_runs tiedWorld !! ID sampleRun = Some queuedRow /\
  global_config tiedWorld = Some sampleConfig /\
  schemaResolver samplePipeline (Config sampleConfig) (tenantBytes sampleRun tiedWorld)
    = Ok schemaGlobalOnly /\
  fst (Execute samplePipeline sampleRun tiedWorld) = None.
Proof.
  assert (H1 : Forall (fun f : option string => f = None) (take 7 (faults tiedWorld)))
    by constructor.
  assert (H2 : scoring_runs tiedWorld !! ID sampleRun = Some queuedRow)
    by (vm_compute; reflexivity).
  assert (H3 : schemaResolver samplePipeline (Config sampleConfig)
                 (tenantBytes sampleRun tiedWorld) = Ok schemaGlobalOnly)
    by (vm_compute; reflexivity).
  repeat (split; [assumption || reflexivity |]).
  exact (Execute_succeeds samplePipeline sampleRun tiedWorld queuedRow sampleConfig
           schemaGlobalOnly H1 H2 eq_refl H3).
Defined.

Lemma Execute_success_is_recorded_witness :
  fst (Execute samplePipeline sampleRun tiedWorld) = None /\
  default [] (site_records tiedWorld !! UploadID sampleRun) <> [] /\
  exists row batch snap,
    scoring_runs tiedWorld !! ID sampleRun = Some row /\
    scoring_runs (snd (Execute samplePipeline sampleRun tiedWorld)) !! ID sampleRun =
      Some {| Status := "succeeded";
              ScoredCount := Some (Z.of_nat (length batch));
              LastError := LastError row;
              DurationMs := Some (elapsedMs tiedWorld);
              Attempt := Attempt row |} /\
    recommendations (snd (Execute samplePipeline sampleRun tiedWorld))
      = recommendations tiedWorld ++ batch /\
    schema_config_snapshots (snd (Execute samplePipeline sampleRun tiedWorld))
      = schema_config_snapshots tiedWorld ++ [snap] /\
    snapID snap = nextUUID tiedWorld /\ snapRunID snap = ID sampleRun /\
    runSnapshotID (snd (Execute samplePipeline sampleRun tiedWorld))
      = Some (nextUUID tiedWorld).
Proof.
  assert (H1 : fst (Execute samplePipeline sampleRun tiedWorld) = None)
    by (vm_compute; reflexivity).
  assert (H2 : default [] (site_records tiedWorld !! UploadID sampleRun) <> []).
  { intros Habs. apply (f_equal length) in Habs. vm_compute in Habs. discriminate Habs. }
  split; [exact H1 |]. split; [exact H2 |].
  exact (Execute_success_is_recorded samplePipeline sampleRun tiedWorld H1 H2).
Defined.

End ExecuteSuccessExamples.

(* ===================================================================== *)
(** ** The back-off between two attempts *)
(* ===================================================================== *)
Section BackoffFacts.
Import models pipeline.
Local Open Scope Z_scope.

Variable int64OutOfRange : Z -> Z.
Variable Int63n : Z -> Z.

Lemma wrap64_small (z : Z) : - 2 ^ 63 <= z < 2 ^ 63 -> wrap64 z = z.
Proof.
  intros Hz. unfold wrap64. rewrite Z.mod_small by lia. lia.
Qed.

Lemma pow2_exact (attempt : Z) :
  0 <= attempt <= 62 -> pow2 int64OutOfRange attempt = 2 ^ attempt.
Proof.
  intros Ha. unfold pow2.
  destruct (Z.ltb_spec attempt 0); [lia |].
  destruct (Z.leb_spec attempt 62); [reflexivity | lia].
Qed.

(** With a base wait that is not negative, an attempt number that a power of
    two in [int64] can follow and no overflow, the back-off is the exponential
    wait plus a jitter of at most a tenth of it, cut off at five minutes: it
    never panics, it is at least the smaller of the exponential wait and five
    minutes, and never more than five minutes. *)
Theorem calculateBackoff_bounds (p : Pipeline) (attempt : Z) :
  (forall n, 0 < n -> 0 <= Int63n n < n) ->
  0 <= attempt <= 62 ->
  0 <= retryBaseWait p ->
  Milliseconds (retryBaseWait p) * 2 ^ attempt < 2 ^ 62 ->
  exists jitterMs backoff,
    calculateBackoff int64OutOfRange Int63n p attempt = Some backoff /\
    0 <= jitterMs <= Milliseconds (retryBaseWait p) * 2 ^ attempt / 10 /\
    backoff
      = Z.min (Milliseconds (retryBaseWait p) * 2 ^ attempt + jitterMs) 300000 * 1000000 /\
    Z.min (Milliseconds (retryBaseWait p) * 2 ^ attempt) 300000 * 1000000 <= backoff
      <= 300000 * 1000000.
Proof.
  intros Hrand Hattempt Hbase Hsmall.
  unfold calculateBackoff. rewrite pow2_exact by exact Hattempt.
  set (exponentialMs := Milliseconds (retryBaseWait p) * 2 ^ attempt) in *.
  assert (Hms : 0 <= Milliseconds (retryBaseWait p)).
  { unfold Milliseconds. apply Z.quot_pos; lia. }
  assert (Hexp : 0 <= exponentialMs) by (unfold exponentialMs; nia).
  assert (H62 : 2 ^ 62 * 2 = 2 ^ 63) by reflexivity.
  rewrite (wrap64_small exponentialMs) by lia.
  assert (Hquot : Z.quot exponentialMs 10 = exponentialMs / 10)
    by (apply Z.quot_div_nonneg; lia).
  rewrite Hquot.
  assert (Hdiv : 0 <= exponentialMs / 10 <= exponentialMs).
  { split; [apply Z.div_pos; lia |]. apply Z.div_le_upper_bound; lia. }
  rewrite (wrap64_small (exponentialMs / 10 + 1)) by lia.
  destruct (Z.leb_spec (exponentialMs / 10 + 1) 0) as [Habs | Hn]; [lia |].
  destruct (Hrand _ Hn) as [Hj0 Hj1].
  set (jitterMs := Int63n (exponentialMs / 10 + 1)) in *.
  rewrite (wrap64_small (exponentialMs + jitterMs)) by lia.
  exists jitterMs. eexists. split; [reflexivity |].
  split; [lia |].
  change (5 * 60 * 1000) with 300000.
  destruct (Z.gtb_spec (exponentialMs + jitterMs) 300000) as [Hcap | Hcap].
  - rewrite wrap64_small by lia. rewrite Z.min_r by lia. split; [reflexivity |]. lia.
  - rewrite wrap64_small by lia. rewrite Z.min_l by lia. split; [reflexivity |]. lia.
Qed.


End BackoffFacts.

Section BackoffExamples.
Import models pipeline examples.
Local Open Scope Z_scope.

Lemma calculateBackoff_bounds_witness :
  (forall n, 0 < n -> 0 <= (fun n => n - 1) n < n) /\
  0 <= 3 <= 62 /\
  0 <= retryBaseWait (NewPipeline defaultScore None 2 1000000000) /\
  Milliseconds (retryBaseWait (NewPipeline defaultScore None 2 1000000000)) * 2 ^ 3 < 2 ^ 62 /\
  exists jitterMs backoff,
    calculateBackoff (fun _ => 0) (fun n => n - 1)
      (NewPipeline defaultScore None 2 1000000000) 3 = Some backoff /\
    0 <= jitterMs
      <= Milliseconds (retryBaseWait (NewPipeline defaultScore None 2 1000000000)) * 2 ^ 3 / 10 /\
    backoff
      = Z.min (Milliseconds (retryBaseWait (NewPipeline defaultScore None 2 1000000000)) * 2 ^ 3
               + jitterMs) 300000 * 1000000 /\
    Z.min (Milliseconds (retryBaseWait (NewPipeline defaultScore None 2 1000000000)) * 2 ^ 3)
      300000 * 1000000 <= backoff <= 300000 * 1000000.
Proof.
  assert (H1 : forall n, 0 < n -> 0 <= (fun n => n - 1) n < n) by (intros n Hn; lia).
  assert (H2 : 0 <= 3 <= 62) by lia.
  assert (H3 : 0 <= retryBaseWait (NewPipeline defaultScore None 2 1000000000))
    by (simpl; lia).
  assert (H4 : Milliseconds (retryBaseWait (NewPipeline defaultScore None 2 1000000000))
               * 2 ^ 3 < 2 ^ 62) by (vm_compute; reflexivity).
  repeat (split; [assumption |]).
  exact (calculateBackoff_bounds (fun _ => 0) (fun n => n - 1)
           (NewPipeline defaultScore None 2 1000000000) 3 H1 H2 H3 H4).
Defined.


End BackoffExamples.

(* ===================================================================== *)
(** ** The validator: headers, rows and values *)
(* ===================================================================== *)
Section ValidatorFacts.
Import schema.

Variable ParseFloat : string -> option Float64.
Variable formatFloat : Float64 -> string.
Variable differsOutOfRange : Q -> bool.
Variable TrimSpace : string -> string.

(** The set of the headers holds exactly the headers. *)
Lemma headerSet_lookup (headers : list string) (h : string) :
  forall headerSet : gmap string bool,
    foldl (fun headerSet h => <[h := true]> headerSet) headerSet headers !! h
    = if decide (h ∈ headers) then Some true else headerSet !! h.
Proof.
  induction headers as [|x headers IH]; intros headerSet; simpl.
  - destruct (decide (h ∈ [])) as [Hin |]; [| reflexivity].
    apply elem_of_nil in Hin. contradiction.
  - rewrite IH. destruct (decide (h ∈ headers)) as [Hin | Hnin].
    + rewrite decide_True by (apply elem_of_cons; auto). reflexivity.
    + destruct (decide (h = x)) as [-> | Hne].
      * rewrite decide_True by (apply elem_of_cons; auto). apply lookup_insert_eq.
      * rewrite decide_False by (rewrite elem_of_cons; tauto).
        apply lookup_insert_ne. congruence.
Qed.

Lemma headerSet_member (headers : list string) (h : string) :
  default false
    (foldl (fun headerSet h => <[h := true]> headerSet) (∅ : gmap string bool) headers !! h)
    = true
  <-> h ∈ headers.
Proof.
  rewrite headerSet_lookup. destruct (decide (h ∈ headers)) as [Hin | Hnin]; simpl.
  - tauto.
  - rewrite lookup_empty. simpl. split; [discriminate | contradiction].
Qed.

(** The errors of [ValidateHeaders] are one message for every required
    field of the schema that no header names, and one for the site-ID column
    when no header names it; so there is no error exactly when the headers
    hold every required field and the site-ID column.  Columns that the schema
    does not know never make an error. *)
Theorem ValidateHeaders_errors (headers : list string) (schema : ResolvedSchema) :
  let errors := snd (ValidateHeaders headers schema) in
  (forall msg, msg ∈ errors <->
     (exists name fd,
        Fields schema !! name = Some fd /\ Required fd = true /\ (name ∉ headers) /\
        msg = ("required field '" +:+ name +:+ "' not found in headers")) \/
     ((SiteIDColumn schema ∉ headers) /\
      msg = ("site_id_column '" +:+ SiteIDColumn schema +:+ "' not found in headers"))) /\
  (errors = [] <->
     (forall name fd, Fields schema !! name = Some fd -> Required fd = true ->
        name ∈ headers) /\
     SiteIDColumn schema ∈ headers).
Proof.
  cbv zeta. unfold ValidateHeaders. cbn [snd].
  set (headerSet := foldl (fun headerSet h => <[h := true]> headerSet) ∅ headers).
  assert (Hset : forall h, default false (headerSet !! h) = true <-> h ∈ headers)
    by (intros h; apply headerSet_member).
  assert (Hnset : forall h, negb (default false (headerSet !! h)) = true <-> h ∉ headers).
  { intros h. rewrite negb_true_iff, <- Hset.
    destruct (default false (headerSet !! h)); split; congruence. }
  set (body := fun fieldName (fieldDef : FieldDef) (errors : list string) =>
                 if Required fieldDef then
                   if negb (default false (headerSet !! fieldName)) then
                     errors ++ ["required field '" +:+ fieldName +:+ "' not found in headers"]
                   else errors
                 else errors).
  assert (Hfields : forall msg,
            msg ∈ map_fold body [] (Fields schema) <->
            exists name fd,
              Fields schema !! name = Some fd /\ Required fd = true /\ (name ∉ headers) /\
              msg = ("required field '" +:+ name +:+ "' not found in headers")).
  { apply (map_fold_weak_ind
             (fun (errors : list string) (m : gmap string FieldDef) =>
                forall msg, msg ∈ errors <->
                  exists name fd,
                    m !! name = Some fd /\ Required fd = true /\ (name ∉ headers) /\
                    msg = ("required field '" +:+ name +:+ "' not found in headers"))).
    - intros msg. split.
      + intros Hin. apply elem_of_nil in Hin. contradiction.
      + intros (name & fd & Hl & _). rewrite lookup_empty in Hl. discriminate.
    - intros name fd m errors Hfresh IH msg.
      assert (Hold : (exists name0 fd0,
                        m !! name0 = Some fd0 /\ Required fd0 = true /\ (name0 ∉ headers) /\
                        msg = ("required field '" +:+ name0 +:+ "' not found in headers"))
                     -> exists name0 fd0,
                        <[name := fd]> m !! name0 = Some fd0 /\ Required fd0 = true /\
                        (name0 ∉ headers) /\
                        msg = ("required field '" +:+ name0 +:+ "' not found in headers")).
      { intros (name0 & fd0 & Hl & Hrest). exists name0, fd0. split; [| exact Hrest].
        rewrite lookup_insert_ne; [exact Hl | congruence]. }
      unfold body.
      destruct (Required fd) eqn:Hreq;
        [destruct (negb (default false (headerSet !! name))) eqn:Hmiss |].
      + rewrite elem_of_app, list_elem_of_singleton, IH. split.
        * intros [Hin | ->]; [apply Hold, Hin |].
          exists name, fd. rewrite lookup_insert_eq. repeat split; auto.
          apply Hnset, Hmiss.
        * intros (name0 & fd0 & Hl & Hr & Hn & ->).
          destruct (decide (name = name0)) as [<- | Hne]; [right; reflexivity |].
          rewrite lookup_insert_ne in Hl by exact Hne. left. eauto 8.
      + rewrite IH. split; [apply Hold |].
        intros (name0 & fd0 & Hl & Hr & Hn & ->).
        destruct (decide (name = name0)) as [<- | Hne].
        * apply Hnset in Hn. congruence.
        * rewrite lookup_insert_ne in Hl by exact Hne. eauto 8.
      + rewrite IH. split; [apply Hold |].
        intros (name0 & fd0 & Hl & Hr & Hn & ->).
        destruct (decide (name = name0)) as [<- | Hne].
        * rewrite lookup_insert_eq in Hl. injection Hl as <-. congruence.
        * rewrite lookup_insert_ne in Hl by exact Hne. eauto 8. }
  set (fieldErrors := map_fold body [] (Fields schema)) in *.
  assert (Hall : forall msg,
            msg ∈ (if negb (default false (headerSet !! SiteIDColumn schema))
                   then fieldErrors ++
                        ["site_id_column '" +:+ SiteIDColumn schema +:+ "' not found in headers"]
                   else fieldErrors) <->
            (exists name fd,
               Fields schema !! name = Some fd /\ Required fd = true /\ (name ∉ headers) /\
               msg = ("required field '" +:+ name +:+ "' not found in headers")) \/
            ((SiteIDColumn schema ∉ headers) /\
             msg = ("site_id_column '" +:+ SiteIDColumn schema +:+ "' not found in headers"))).
  { intros msg.
    destruct (negb (default false (headerSet !! SiteIDColumn schema))) eqn:Hmiss.
    - apply Hnset in Hmiss.
      rewrite elem_of_app, list_elem_of_singleton, Hfields. tauto.
    - assert (Hin : SiteIDColumn schema ∈ headers).
      { apply Hset. apply negb_false_iff in Hmiss. exact Hmiss. }
      rewrite Hfields. tauto. }
  split; [exact Hall |].
  split.
  - intros Hnil. rewrite Hnil in Hall. split.
    + intros name fd Hl Hr. destruct (decide (name ∈ headers)) as [| Hn]; [assumption |].
      exfalso. eapply elem_of_nil. apply Hall. left. eauto 8.
    + destruct (decide (SiteIDColumn schema ∈ headers)) as [| Hn]; [assumption |].
      exfalso. eapply elem_of_nil. apply Hall. right. eauto.
  - intros [Hreq Hcol].
    match goal with |- ?l = [] => destruct l as [|msg rest] eqn:Hl end; [reflexivity |].
    exfalso.
    assert (Hin : msg ∈ msg :: rest) by apply list_elem_of_here.
    apply Hall in Hin as [(name & fd & Hl1 & Hr & Hn & _) | [Hn _]].
    + apply Hn. eapply Hreq; eassumption.
    + contradiction.
Qed.

(** The warnings of [ValidateHeaders] are one message for every header, in
    the order of the headers and as often as it occurs, that is neither the
    site-ID column nor a field of the schema. *)
Theorem ValidateHeaders_warnings (headers : list string) (schema : ResolvedSchema) :
  fst (ValidateHeaders headers schema) =
    (fun header =>
       "unexpected column '" +:+ header +:+
       "' found in CSV; will be included in record data but not validated")
    <$> filter (fun header =>
                  header <> SiteIDColumn schema /\ Fields schema !! header = None)
          headers.
Proof.
  unfold ValidateHeaders. cbn [fst].
  set (warn := fun header : string =>
                 "unexpected column '" +:+ header +:+
                 "' found in CSV; will be included in record data but not validated").
  set (unexpected := fun header : string =>
                       header <> SiteIDColumn schema /\ Fields schema !! header = None).
  enough (Hgen : forall warnings : list string,
            foldl (fun (warnings : list string) header =>
                     if String.eqb header (SiteIDColumn schema) then warnings
                     else match Fields schema !! header with
                          | None => warnings ++ [warn header]
                          | Some _ => warnings
                          end) warnings headers
            = warnings ++ (warn <$> filter unexpected headers))
    by (apply (Hgen [])).
  induction headers as [|h headers IH]; intros warnings; simpl.
  - rewrite app_nil_r. reflexivity.
  - rewrite IH. unfold unexpected at 2.
    destruct (String.eqb_spec h (SiteIDColumn schema)) as [Heq | Hne].
    + rewrite filter_cons_False by tauto. reflexivity.
    + destruct (Fields schema !! h) as [fd |] eqn:Hl.
      * rewrite filter_cons_False by (rewrite Hl; intros [_ ?]; discriminate). reflexivity.
      * rewrite filter_cons_True by (rewrite Hl; auto).
        rewrite fmap_cons, <- app_assoc. reflexivity.
Qed.

(** What one round of the loop of [ValidateRow] adds: nothing, or one error. *)
Lemma validateRowField_cases (row : gmap string string) (rowNum : Z)
    (name : string) (fd : FieldDef) (errors : list string) :
  let ok :=
    match row !! name with
    | None => Required fd = false
    | Some value =>
        (value = ""%string /\ Required fd = false) \/
        validateFieldValue ParseFloat formatFloat differsOutOfRange TrimSpace
          name value fd rowNum = None
    end in
  (ok /\ validateRowField ParseFloat formatFloat differsOutOfRange TrimSpace
           row rowNum name fd errors = errors) \/
  (~ ok /\ exists err,
      validateRowField ParseFloat formatFloat differsOutOfRange TrimSpace
        row rowNum name fd errors = errors ++ [err]).
Proof.
  cbv zeta. unfold validateRowField.
  destruct (row !! name) as [value |].
  - destruct (String.eqb_spec value "") as [Hempty | Hfull];
      destruct (Required fd) eqn:Hreq; simpl.
    + destruct (validateFieldValue _ _ _ _ name value fd rowNum) as [err |] eqn:Hv.
      * right. split; [| eauto]. intros [[_ ?] | ?]; discriminate.
      * left. auto.
    + left. auto.
    + destruct (validateFieldValue _ _ _ _ name value fd rowNum) as [err |] eqn:Hv.
      * right. split; [| eauto]. intros [[? _] | ?]; [contradiction | discriminate].
      * left. auto.
    + destruct (validateFieldValue _ _ _ _ name value fd rowNum) as [err |] eqn:Hv.
      * right. split; [| eauto]. intros [[? _] | ?]; [contradiction | discriminate].
      * left. auto.
  - destruct (Required fd).
    + right. split; [discriminate | eauto].
    + left. auto.
Qed.

(** [ValidateRow] never warns.  It reports at most one error for a field of
    the schema and none for any other column, and it reports no error exactly
    when every field of the schema that the row lacks is optional and every
    value that the row has for a field is valid for it, an empty value of an
    optional field being taken as absent.  So a required field that is present
    but empty is handed to the check of its type and is not reported as
    missing. *)
Theorem ValidateRow_errors (row : gmap string string) (schema : ResolvedSchema)
    (rowNum : Z) :
  let result :=
    ValidateRow ParseFloat formatFloat differsOutOfRange TrimSpace row schema rowNum in
  fst result = [] /\
  length (snd result) <= size (Fields schema) /\
  (snd result = [] <->
     forall name fd, Fields schema !! name = Some fd ->
       match row !! name with
       | None => Required fd = false
       | Some value =>
           (value = ""%string /\ Required fd = false) \/
           validateFieldValue ParseFloat formatFloat differsOutOfRange TrimSpace
             name value fd rowNum = None
       end).
Proof.
  cbv zeta. unfold ValidateRow. cbn [fst snd]. split; [reflexivity |].
  apply (map_fold_weak_ind
           (fun (errors : list string) (m : gmap string FieldDef) =>
              length errors <= size m /\
              (errors = [] <->
                 forall name fd, m !! name = Some fd ->
                   match row !! name with
                   | None => Required fd = false
                   | Some value =>
                       (value = ""%string /\ Required fd = false) \/
                       validateFieldValue ParseFloat formatFloat differsOutOfRange
                         TrimSpace name value fd rowNum = None
                   end))).
  - split; [rewrite map_size_empty; simpl; lia |].
    split; [| reflexivity]. intros _ name fd Hl. rewrite lookup_empty in Hl. discriminate.
  - intros name fd m errors Hfresh [Hlen Hiff].
    rewrite map_size_insert_None by exact Hfresh.
    destruct (validateRowField_cases row rowNum name fd errors)
      as [[Hok ->] | [Hbad [err ->]]].
    + split; [lia |]. rewrite Hiff. split.
      * intros Hall name0 fd0 Hl.
        destruct (decide (name = name0)) as [<- | Hne].
        -- rewrite lookup_insert_eq in Hl. injection Hl as <-. exact Hok.
        -- rewrite lookup_insert_ne in Hl by exact Hne. exact (Hall name0 fd0 Hl).
      * intros Hall name0 fd0 Hl. apply Hall.
        rewrite lookup_insert_ne; [exact Hl | congruence].
    + split; [rewrite length_app; simpl; lia |]. split.
      * intros Habs. destruct errors; discriminate.
      * intros Hall. exfalso. apply Hbad. apply (Hall name fd), lookup_insert_eq.
Qed.


Local Open Scope Q_scope.

(** A percentage is accepted exactly when it parses to a number between 0
    and 100, or to NaN, which no comparison turns down; the infinities are
    rejected. *)
Theorem validatePercentage_accepts (fieldName value : string) (rowNum : Z) :
  validatePercentage ParseFloat formatFloat fieldName value rowNum = None <->
  exists floatVal,
    ParseFloat value = Some floatVal /\
    (floatVal = NaN \/ exists q, floatVal = Finite q /\ 0 <= q <= 100).
Proof.
  unfold validatePercentage.
  destruct (ParseFloat value) as [[| negative | q] |].
  - simpl. split; eauto.
  - destruct negative; simpl.
    + split; [discriminate |]. intros (f & [= <-] & [? | (q & ? & _)]); discriminate.
    + split; [discriminate |]. intros (f & [= <-] & [? | (q & ? & _)]); discriminate.
  - simpl.
    destruct (Qlt_le_dec q 0) as [Hlt | Hge]; simpl.
    + split; [discriminate |].
      intros (f & [= <-] & [? | (q' & [= <-] & Hq)]); [discriminate | lra].
    + destruct (Qlt_le_dec 100 q) as [Hgt | Hle]; simpl.
      * split; [discriminate |].
        intros (f & [= <-] & [? | (q' & [= <-] & Hq)]); [discriminate | lra].
      * split; [| reflexivity]. intros _. exists (Finite q). split; [reflexivity |].
        right. exists q. split; [reflexivity | lra].
  - split; [discriminate |]. intros (f & ? & _). discriminate.
Qed.

(** [validateNumeric] is [validateIndex].  A value is accepted exactly when
    it parses to a number that is not below the lower bound and not above the
    upper bound, as far as the field has them, to NaN, or to an infinity on a
    side where the field has no bound. *)
Theorem validateNumeric_accepts (fieldName value : string) (fieldDef : FieldDef)
    (rowNum : Z) :
  validateNumeric ParseFloat formatFloat fieldName value fieldDef rowNum
    = validateIndex ParseFloat formatFloat fieldName value fieldDef rowNum /\
  (validateNumeric ParseFloat formatFloat fieldName value fieldDef rowNum = None <->
   exists floatVal,
     ParseFloat value = Some floatVal /\
     match floatVal with
     | NaN => True
     | Inf negative => if negative then Min fieldDef = None else Max fieldDef = None
     | Finite q =>
         (forall min, Min fieldDef = Some min -> min <= q) /\
         (forall max, Max fieldDef = Some max -> q <= max)
     end).
Proof.
  split; [reflexivity |].
  unfold validateNumeric.
  destruct (ParseFloat value) as [[| negative | q] |].
  - destruct (Min fieldDef), (Max fieldDef); simpl;
      (split; [intros _; exists NaN; split; [reflexivity | exact I] | reflexivity]).
  - destruct negative, (Min fieldDef) as [min |], (Max fieldDef) as [max |]; simpl;
      (split;
       [ intros H; first [discriminate H | eexists; split; reflexivity]
       | intros (f & [= <-] & Hf); first [reflexivity | discriminate Hf] ]).
  - destruct (Min fieldDef) as [min |], (Max fieldDef) as [max |]; simpl;
      repeat match goal with
             | |- context [Qlt_le_dec ?a ?b] => destruct (Qlt_le_dec a b)
             end;
      (split;
       [ intros H; first
           [ discriminate H
           | eexists; split; [reflexivity |];
             split; intros b Hb; first [discriminate Hb | injection Hb as <-; assumption] ]
       | intros (f & [= <-] & Hmin & Hmax);
         first
           [ reflexivity
           | exfalso;
             try (pose proof (Hmin _ eq_refl)); try (pose proof (Hmax _ eq_refl)); lra ] ]).
  - split; [discriminate |]. intros (f & ? & _). discriminate.
Qed.

Lemma whole_iff (q : Q) :
  Qeq_bool q (inject_Z (Z.quot (Qnum q) (Z.pos (Qden q)))) = true <->
  exists z, q == inject_Z z.
Proof.
  split.
  - intros H. apply Qeq_bool_eq in H. eauto.
  - intros [z Hz]. apply Qeq_eq_bool.
    unfold Qeq in Hz. simpl in Hz. rewrite Z.mul_1_r in Hz.
    rewrite Hz, Z.quot_mul by discriminate.
    unfold Qeq. simpl. rewrite Hz. ring.
Qed.

(** A population is accepted only when it parses to a number that is not
    negative: NaN and the infinities are rejected.  For a number that an
    [int64] can hold it is accepted exactly when it is whole and not
    negative. *)
Theorem validatePopulation_accepts (fieldName value : string) (rowNum : Z) :
  (validatePopulation ParseFloat formatFloat differsOutOfRange fieldName value rowNum = None ->
   exists q, ParseFloat value = Some (Finite q) /\ 0 <= q) /\
  (forall q,
     ParseFloat value = Some (Finite q) ->
     inject_Z (- 2 ^ 63) <= q -> q < inject_Z (2 ^ 63) ->
     (validatePopulation ParseFloat formatFloat differsOutOfRange fieldName value rowNum = None
      <-> exists z, q == inject_Z z /\ (0 <= z)%Z)).
Proof.
  unfold validatePopulation. split.
  - destruct (ParseFloat value) as [[| negative | q] |]; try discriminate.
    destruct (notWhole differsOutOfRange (Finite q)); [discriminate |].
    simpl. destruct (Qlt_le_dec q 0) as [Hlt | Hge]; [discriminate |].
    intros _. eauto.
  - intros q -> Hlow Hhigh. unfold notWhole.
    assert (Hin : Qle_bool (inject_Z (- 2 ^ 63)) q
                  && negb (Qle_bool (inject_Z (2 ^ 63)) q) = true).
    { apply andb_true_intro. split; [apply Qle_bool_iff, Hlow |].
      apply negb_true_iff. destruct (Qle_bool (inject_Z (2 ^ 63)) q) eqn:Hb; [| reflexivity].
      apply Qle_bool_iff in Hb. lra. }
    rewrite Hin.
    destruct (Qeq_bool q (inject_Z (Z.quot (Qnum q) (Z.pos (Qden q))))) eqn:Hwhole; simpl.
    + apply whole_iff in Hwhole as [z Hz].
      destruct (Qlt_le_dec q 0) as [Hlt | Hge].
      * split; [discriminate |]. intros (z' & Hz' & Hpos).
        rewrite Hz' in Hlt. assert (inject_Z 0 <= inject_Z z') by (rewrite <- Zle_Qle; exact Hpos).
        change (inject_Z 0) with 0 in *. lra.
      * split; [| reflexivity]. intros _. exists z. split; [exact Hz |].
        rewrite Hz in Hge. change 0 with (inject_Z 0) in Hge.
        rewrite <- Zle_Qle in Hge. exact Hge.
    + split; [discriminate |]. intros (z & Hz & _).
      assert (Hex : exists z, q == inject_Z z) by eauto.
      apply whole_iff in Hex. congruence.
Qed.

End ValidatorFacts.

Section ValidatorExamples.
Import schema examples.


(** The word NaN passes as a percentage, and 150 does not. *)
Example validatePercentage_NaN :
  validatePercentage parseFloat showFloat "unemployment_rate" "NaN" 1 = None /\
  validatePercentage parseFloat showFloat "unemployment_rate" "150" 1
    = Some "row 1: field 'unemployment_rate' must be between 0 and 100, got <number>".
Proof. split; vm_compute; reflexivity. Qed.

End ValidatorExamples.
